(** * A shallow embedding of the orchestration core of [bot.py]

    The bot drives a pool of user accounts on behalf of its operators:
    joining and leaving channels, reacting to messages and adding views.
    This development embeds the parts of [bot.py] that make up that core
    and states the properties of its specification over them:

    - [normalize_phone] and the phone guard of the add-account flow;
    - the flood clock ([flood_wait_until], [respect_flood_limit]);
    - the remote helpers [join_channel], [send_reaction], [send_view];
    - the four batch executors [process_join], [process_leave],
      [process_react] and [process_view];
    - the conversation handlers and the router [message_handler].

    Python text is a list of code points.  The handlers are [async]
    functions over global dictionaries; they are embedded as functions of
    a state monad over a record [world] holding these dictionaries, the
    event-loop clock, the calls of [event.reply] and the log of requests
    issued to the remote platform.  Whatever the remote platform, the
    scheduler, the other handlers and the random generator decide is read
    from an oracle [nat -> answer], one answer per interaction.  An
    exception that leaves a handler is a value the handler returns.  A
    handler runs as one task: what other tasks do to the dictionaries
    while it is suspended is not part of the embedding, apart from the
    cancellation event, whose state is an answer of the oracle.  The
    decorator [access_control] calls the function it wraps for an
    operator it lets through, an owner for one; the functions are
    embedded as called for such an operator. *)

From Stdlib Require Import ZArith NArith List Bool Ascii String Lia.
From stdpp Require Import base option list gmap sets.

Import ListNotations.
Open Scope Z_scope.

(** ** Text *)

Module Py.

(** A Python [str]: its code points, in order. *)
Definition char := N.
Definition str := list char.

(** Literals of the source are written as Rocq strings and kept byte for
    byte; the ASCII part of a literal is its code points. *)
Definition lit (s : string) : str := map N_of_ascii (list_ascii_of_string s).

Definition eqb (a b : str) : bool := bool_decide (a = b).

(** [s.startswith(p)] *)
Fixpoint startswith (s p : str) {struct p} : bool :=
  match p, s with
  | [], _ => true
  | c :: p', d :: s' => (c =? d)%N && startswith s' p'
  | _ :: _, [] => false
  end.


(** [not s]: the empty text is the only falsy one. *)
Definition truthy (s : str) : bool :=
  match s with [] => false | _ :: _ => true end.

(** [sep.join(l)] *)
Fixpoint join (sep : str) (l : list str) : str :=
  match l with
  | [] => []
  | [x] => x
  | x :: rest => x ++ sep ++ join sep rest
  end.

(** [s.split(c)] for a separator of one character: the pieces between
    the occurrences of [c], at least one piece. *)
Fixpoint split (c : char) (s : str) : list str :=
  match s with
  | [] => [[]]
  | d :: s' =>
      if (d =? c)%N then [] :: split c s'
      else match split c s' with
           | [] => [[d]]
           | piece :: pieces => (d :: piece) :: pieces
           end
  end.

Fixpoint dropwhile (p : char -> bool) (s : str) : str :=
  match s with
  | [] => []
  | c :: s' => if p c then dropwhile p s' else s
  end.

Fixpoint takewhile (p : char -> bool) (s : str) : str :=
  match s with
  | [] => []
  | c :: s' => if p c then c :: takewhile p s' else []
  end.

(** [s.strip()] for the whitespace class [sp]. *)
Definition strip (sp : char -> bool) (s : str) : str :=
  rev (dropwhile sp (rev (dropwhile sp s))).

(** [str(n)] for a natural number. *)
Definition digit_char (d : N) : char := (48 + d)%N.

Fixpoint digits_fuel (fuel : nat) (n : N) (acc : str) : str :=
  match fuel with
  | O => acc
  | S fuel' =>
      let acc' := digit_char (n mod 10) :: acc in
      if (n / 10 =? 0)%N then acc' else digits_fuel fuel' (n / 10)%N acc'
  end.

Definition of_N (n : N) : str := digits_fuel (S (N.to_nat (N.log2 n))) n [].

Definition of_nat (n : nat) : str := of_N (N.of_nat n).

Definition of_Z (z : Z) : str :=
  if z <? 0 then lit "-" ++ of_N (Z.to_N (- z)) else of_N (Z.to_N z).

Definition plus_sign : char := 43%N.
Definition at_sign : char := 64%N.
Definition slash : char := 47%N.
Definition comma : char := 44%N.
Definition newline : char := 10%N.

End Py.

Import Py.

(** *** The character classes of the Python runtime

    [str.isdigit], [str.isspace] and the classes [\d] and [\w] of [re] range
    over all of Unicode, and [int] parses any text.  Their tables are not
    part of the repository: the embedding takes them from a [runtime]. *)

Record runtime := {
  isdigit : char -> bool;          (* c.isdigit() *)
  isspace : char -> bool;          (* c.isspace(), the class of strip() *)
  is_decimal : char -> bool;       (* \d *)
  is_word : char -> bool;          (* \w *)
  digit_value : char -> N;         (* the value of a decimal digit *)
  py_int : str -> option Z         (* int(s); None stands for ValueError *)
}.

(** What the embedding relies on: ['+'] is not a digit, and no whitespace
    character is one. *)
Record runtime_ok (R : runtime) : Prop := {
  plus_not_digit : isdigit R plus_sign = false;
  space_not_digit : forall c, isspace R c = true -> isdigit R c = false
}.

(** The ASCII fragment of the runtime, used to run the embedding. *)
Module Ascii_runtime.

Definition digit (c : char) : bool := ((48 <=? c) && (c <=? 57))%N.

Definition space (c : char) : bool :=
  ((c =? 32) || ((9 <=? c) && (c <=? 13)) || ((28 <=? c) && (c <=? 31)))%N.

Definition word (c : char) : bool :=
  (digit c || ((65 <=? c) && (c <=? 90)) || ((97 <=? c) && (c <=? 122))
   || (c =? 95))%N.

Fixpoint nat_of_digits (s : str) (acc : N) : option N :=
  match s with
  | [] => Some acc
  | c :: s' => if digit c then nat_of_digits s' (10 * acc + (c - 48))%N else None
  end.

(** [int] on an optional sign followed by ASCII digits. *)
Definition int (s : str) : option Z :=
  match s with
  | [] => None
  | c :: s' =>
      if (c =? 45)%N then
        match s' with
        | [] => None
        | _ => option_map (fun n => - Z.of_N n) (nat_of_digits s' 0%N)
        end
      else if (c =? plus_sign)%N then
        match s' with
        | [] => None
        | _ => option_map Z.of_N (nat_of_digits s' 0%N)
        end
      else option_map Z.of_N (nat_of_digits s 0%N)
  end.

Definition R : runtime :=
  {| isdigit := digit; isspace := space; is_decimal := digit;
     is_word := word; digit_value := fun c => (c - 48)%N; py_int := int |}.

Lemma ok : runtime_ok R.
Proof.
  split.
  - reflexivity.
  - intros c. cbn. unfold space, digit.
    rewrite !orb_true_iff, !andb_true_iff, N.eqb_eq, !N.leb_le.
    intros H. apply andb_false_iff. rewrite N.leb_gt. lia.
Qed.

End Ascii_runtime.

(** ** Phone numbers *)

Section Phone.

Variable R : runtime.

(** [normalize_phone] (bot.py, line 178). *)
Definition normalize_phone (phone : str) : str :=
  let phone := strip (isspace R) phone in
  if startswith phone (lit "+") then
    lit "+" ++ List.filter (isdigit R) (drop 1 phone)
  else
    lit "+" ++ List.filter (isdigit R) phone.

(** [$] of [re]: the end of the text, or just before a final newline. *)
Definition at_end (s : str) : bool :=
  match s with
  | [] => true
  | [c] => (c =? newline)%N
  | _ => false
  end.

(** [re.match(r'^\+\d{7,15}$', phone)]: some number [k] of decimal digits
    between 7 and 15 after the sign, and then the end. *)
Definition digits_then_end (s : str) (k : nat) : bool :=
  (length (take k s) =? k)%nat && forallb (is_decimal R) (take k s)
  && at_end (drop k s).

Definition phone_pattern (phone : str) : bool :=
  match phone with
  | c :: rest =>
      (c =? plus_sign)%N && existsb (digits_then_end rest) (seq 7 9)
  | [] => false
  end.

End Phone.

(** ** Message links *)

Section Links.

Variable R : runtime.

(** The class [[\w\d_-]]. *)
Definition is_chat_char (c : char) : bool :=
  is_word R c || is_decimal R c || (c =? 95)%N || (c =? 45)%N.

Fixpoint first_some {A B} (f : A -> option B) (l : list A) : option B :=
  match l with
  | [] => None
  | x :: rest => match f x with Some y => Some y | None => first_some f rest end
  end.

(** The end of the message-link pattern: [/(\d+)]. *)
Definition tail_match (s : str) : option str :=
  match s with
  | c :: rest =>
      if (c =? slash)%N then
        match takewhile (is_decimal R) rest with
        | [] => None
        | ds => Some ds
        end
      else None
  | [] => None
  end.

(** A greedy run of the class [p], of one character at least, followed by
    the end of the pattern; the longest run is tried first. *)
Definition run_then_tail (p : char -> bool) (s : str) : option (str * str) :=
  first_some
    (fun k => option_map (fun ds => (take k s, ds)) (tail_match (drop k s)))
    (rev (seq 1 (length (takewhile p s)))).

(** [(@?[\w\d_-]+|\d+)/(\d+)] *)
Definition chat_and_id_match (s : str) : option (str * str) :=
  let bare := run_then_tail is_chat_char s in
  let first_alternative :=
    match s with
    | c :: s' =>
        if (c =? at_sign)%N then
          match run_then_tail is_chat_char s' with
          | Some (name, ds) => Some (at_sign :: name, ds)
          | None => bare
          end
        else bare
    | [] => None
    end in
  match first_alternative with
  | Some r => Some r
  | None => run_then_tail (is_decimal R) s
  end.

(** [re.match(r"https://t\.me/(c/|)(@?[\w\d_-]+|\d+)/(\d+)", link)]: the
    three groups of the first match in backtracking order. *)
Definition message_link_match (link : str) : option (str * str * str) :=
  if startswith link (lit "https://t.me/") then
    let s := drop 13 link in
    let private :=
      if startswith s (lit "c/") then
        option_map (fun r => (lit "c/", fst r, snd r)) (chat_and_id_match (drop 2 s))
      else None in
    match private with
    | Some r => Some r
    | None => option_map (fun r => ([], fst r, snd r)) (chat_and_id_match s)
    end
  else None.

(** [int] on the third group, a run of decimal digits. *)
Definition decimal_value (ds : str) : Z :=
  Z.of_N (fold_left (fun acc c => 10 * acc + digit_value R c)%N ds 0%N).

(** [extract_message_info] (bot.py, line 184): [None] stands for the
    pair [(None, None)]. *)
Definition extract_message_info (message_link : str) : option (str * Z) :=
  match message_link_match message_link with
  | None => None
  | Some (prefix, chat_identifier, message_id) =>
      let message_id := decimal_value message_id in
      let chat_identifier :=
        if eqb prefix (lit "c/") then lit "-100" ++ chat_identifier
        else chat_identifier in
      Some (chat_identifier, message_id)
  end.

End Links.

(** ** The world of the bot *)

(** The exceptions of the remote library that the source tells apart;
    [OtherError] is any other [Exception]. *)
Inductive error :=
| FloodWaitError (seconds : Z)
| UserNotParticipantError
| ReactionInvalidError
| InviteHashExpiredError
| InviteHashInvalidError
| ChannelsTooMuchError
| UserAlreadyParticipantError
| SessionPasswordNeededError
| ValueError
| OtherError.

(** One answer of the environment: what a suspension point or a query of
    the outside (the scheduler, the remote platform, the random generator)
    yields. *)
Record answer := {
  took : N;                (* time that passed while suspended *)
  raised : option error;   (* the exception of the awaited request, if any *)
  refused : option error;  (* the exception of the awaited event.reply, if any *)
  payload : Z;             (* the value the call returns: an entity, a hash *)
  name : str;              (* the text the call returns: a user name *)
  flag : bool;             (* client.is_connected() *)
  is_set : bool;           (* event_obj.is_set() *)
  rand : nat               (* the draw of the random generator *)
}.

Definition quiet : answer :=
  {| took := 0%N; raised := None; refused := None; payload := 0; name := [];
     flag := false; is_set := false; rand := O |}.

(** What [client.get_entity] is asked to resolve. *)
Inductive entity_ref :=
| ById (id : Z)
| ByName (name : str).

(** The requests sent to the remote platform on behalf of an account. *)
Inductive request :=
| GetEntity (target : entity_ref)
| JoinChannelRequest (channel : Z)
| LeaveChannelRequest (channel : Z)
| ImportChatInviteRequest (invite_hash : str)
| SendReactionRequest (peer : Z) (msg_id : Z) (emoticon : str)
| GetMessagesViewsRequest (peer : Z) (id : Z)
| SendCodeRequest (phone : str)
| SignInRequest (phone : str) (code : str) (phone_code_hash : Z)
| GetMe.

(** A request as it was issued: for which account, when, and the
    wait-until timestamp of the account at that moment. *)
Record call := {
  call_phone : str;
  call_request : request;
  issued_at : Z;
  wait_until_then : option Z
}.

Inductive command :=
| cmd_join | cmd_leave | cmd_react | cmd_view
| cmd_mega_join | cmd_mega_leave | cmd_mega_react | cmd_mega_view
| cmd_addaccount | cmd_removeaccount | cmd_add_sudo_user | cmd_remove_sudo_user.

Inductive step :=
| phone_step | otp | password | counting | invite_link | message_link
| remove_phone | sudo_user_id | remove_sudo_user_id | sudo_role
| confirm_remove_sudo.

Global Instance command_eq_dec : EqDecision command.
Proof. solve_decision. Defined.

Global Instance step_eq_dec : EqDecision step.
Proof. solve_decision. Defined.

(** An entry of [user_states]: the keys of the dictionary an operator's
    conversation carries; an absent key is [None]. *)
Record conversation := {
  conv_command : command;
  conv_state : step;
  conv_timestamp : Z;
  conv_count : option Z;
  conv_phone : option str;
  conv_client : option nat;
  conv_phone_code_hash : option Z
}.

(** An account of [user_clients]: the client handle and the session
    text. *)
Definition account : Type := str * (nat * str).

Record event := {
  sender_id : Z;
  text : str
}.

Record world := {
  now : Z;                                         (* the event-loop clock *)
  tick : nat;                                      (* answers consumed *)
  env : nat -> answer;
  user_clients : list account;                     (* in insertion order *)
  flood_wait_until : gmap str Z;
  reaction_history : gmap str (gmap str (gset str));
  cancellation_events : gset Z;
  user_states : gmap Z conversation;
  known_users : gset Z;
  replies : list (Z * str);                        (* the calls of event.reply *)
  calls : list call                                (* issued, oldest first *)
}.

Definition set_clock (t : Z) (n : nat) (w : world) : world :=
  {| now := t; tick := n; env := env w; user_clients := user_clients w;
     flood_wait_until := flood_wait_until w;
     reaction_history := reaction_history w;
     cancellation_events := cancellation_events w;
     user_states := user_states w; known_users := known_users w;
     replies := replies w; calls := calls w |}.

Definition set_user_clients (v : list account) (w : world) : world :=
  {| now := now w; tick := tick w; env := env w; user_clients := v;
     flood_wait_until := flood_wait_until w;
     reaction_history := reaction_history w;
     cancellation_events := cancellation_events w;
     user_states := user_states w; known_users := known_users w;
     replies := replies w; calls := calls w |}.

Definition set_flood_wait_until (v : gmap str Z) (w : world) : world :=
  {| now := now w; tick := tick w; env := env w; user_clients := user_clients w;
     flood_wait_until := v;
     reaction_history := reaction_history w;
     cancellation_events := cancellation_events w;
     user_states := user_states w; known_users := known_users w;
     replies := replies w; calls := calls w |}.

Definition set_reaction_history (v : gmap str (gmap str (gset str))) (w : world)
  : world :=
  {| now := now w; tick := tick w; env := env w; user_clients := user_clients w;
     flood_wait_until := flood_wait_until w;
     reaction_history := v;
     cancellation_events := cancellation_events w;
     user_states := user_states w; known_users := known_users w;
     replies := replies w; calls := calls w |}.

Definition set_cancellation_events (v : gset Z) (w : world) : world :=
  {| now := now w; tick := tick w; env := env w; user_clients := user_clients w;
     flood_wait_until := flood_wait_until w;
     reaction_history := reaction_history w;
     cancellation_events := v;
     user_states := user_states w; known_users := known_users w;
     replies := replies w; calls := calls w |}.

Definition set_user_states (v : gmap Z conversation) (w : world) : world :=
  {| now := now w; tick := tick w; env := env w; user_clients := user_clients w;
     flood_wait_until := flood_wait_until w;
     reaction_history := reaction_history w;
     cancellation_events := cancellation_events w;
     user_states := v; known_users := known_users w;
     replies := replies w; calls := calls w |}.

Definition set_known_users (v : gset Z) (w : world) : world :=
  {| now := now w; tick := tick w; env := env w; user_clients := user_clients w;
     flood_wait_until := flood_wait_until w;
     reaction_history := reaction_history w;
     cancellation_events := cancellation_events w;
     user_states := user_states w; known_users := v;
     replies := replies w; calls := calls w |}.

Definition set_replies (v : list (Z * str)) (w : world) : world :=
  {| now := now w; tick := tick w; env := env w; user_clients := user_clients w;
     flood_wait_until := flood_wait_until w;
     reaction_history := reaction_history w;
     cancellation_events := cancellation_events w;
     user_states := user_states w; known_users := known_users w;
     replies := v; calls := calls w |}.

Definition set_calls (v : list call) (w : world) : world :=
  {| now := now w; tick := tick w; env := env w; user_clients := user_clients w;
     flood_wait_until := flood_wait_until w;
     reaction_history := reaction_history w;
     cancellation_events := cancellation_events w;
     user_states := user_states w; known_users := known_users w;
     replies := replies w; calls := v |}.

(** *** The monad of the handlers *)

Definition M (A : Type) : Type := world -> A * world.

Definition ret {A} (a : A) : M A := fun w => (a, w).

Definition bind {A B} (m : M A) (k : A -> M B) : M B :=
  fun w => let (a, w') := m w in k a w'.

Declare Scope handler_scope.
Delimit Scope handler_scope with handler.
Bind Scope handler_scope with M.

Notation "x <- m ;; k" := (bind m (fun x => k))
  (at level 100, m at next level, right associativity) : handler_scope.
Notation "m ;; k" := (bind m (fun _ => k))
  (at level 100, right associativity) : handler_scope.

Open Scope handler_scope.

Definition modify (f : world -> world) : M unit := fun w => (tt, f w).

Definition get {A} (f : world -> A) : M A := fun w => (f w, w).

(** One answer of the environment; the clock moves on by the time the
    answer took. *)
Definition ask : M answer :=
  fun w =>
    let a := env w (tick w) in
    (a, set_clock (now w + Z.of_N (took a)) (S (tick w)) w).

(** [asyncio.get_event_loop().time()] *)
Definition loop_time : M Z := get now.

(** [await asyncio.sleep(d)]: the task resumes once [d] has passed, and
    not earlier. *)
Definition sleep (d : Z) : M unit :=
  modify (fun w => set_clock (now w + Z.max 0 d) (tick w) w) ;;
  _ <- ask ;; ret tt.

(** [await event.reply(text)]: the call is logged, then answered; the
    value is the exception the call raises, if any. *)
Definition reply (ev : event) (message : str) : M (option error) :=
  modify (fun w => set_replies (replies w ++ [(sender_id ev, message)]) w) ;;
  a <- ask ;; ret (refused a).

(** [m] and then [k], unless [m] raises: the sequence of two statements
    of a handler, the value being the exception that leaves it. *)
Definition and_then (m k : M (option error)) : M (option error) :=
  r <- m ;;
  match r with
  | Some e => ret (Some e)
  | None => k
  end.

Notation "m ;;; k" := (and_then m k)
  (at level 100, right associativity) : handler_scope.

(** [await client(request)] and [await client.get_entity(...)] for the
    account [phone]: the request is logged as issued, then answered. *)
Definition remote (phone : str) (r : request) : M answer :=
  modify (fun w =>
    set_calls (calls w ++ [{| call_phone := phone; call_request := r;
                              issued_at := now w;
                              wait_until_then := flood_wait_until w !! phone |}]) w) ;;
  ask.

(** [flood_wait_until[phone] = asyncio.get_event_loop().time() + seconds],
    the statement of every [except FloodWaitError] clause. *)
Definition register_flood_wait (phone : str) (seconds : Z) : M unit :=
  modify (fun w =>
    set_flood_wait_until (<[phone := now w + seconds]> (flood_wait_until w)) w).

(** A query of the outside that is no suspension point
    ([event_obj.is_set()], [client.is_connected()], [random]): an answer is
    consumed and the clock stays.  The cancellation event of a batch is set
    by the task that handles [/cancel] while the batch is suspended. *)
Definition query : M answer :=
  fun w => (env w (tick w), set_clock (now w) (S (tick w)) w).

(** ** Configuration *)

Record config := {
  EMOJIS : list str;
  JOIN_DELAY : Z;
  LEAVE_DELAY : Z;
  REACT_DELAY : Z;
  VIEW_DELAY : Z
}.

(** Lines 87 to 90 keep the non-empty entries of the [EMOJIS] variable and
    fall back on a default list when none is left. *)
Record config_ok (C : config) : Prop := {
  emojis_not_empty : EMOJIS C <> [];
  emojis_truthy : Forall (fun e => truthy e = true) (EMOJIS C)
}.

(** ** The flood clock and the remote helpers *)

Section Helpers.

Variable R : runtime.
Variable C : config.

(** [ensure_connected] (bot.py, line 197), [remaining] attempts being
    left.  Connecting is no request to the platform on behalf of the
    account and is not logged in [calls]. *)
Fixpoint ensure_connected_loop (remaining : nat) (delay : Z) : M bool :=
  match remaining with
  | O => ret false
  | S rest =>
      connected <- query ;;
      if flag connected then ret true
      else
        c <- ask ;;
        match raised c with
        | None => ret true
        | Some _ =>
            (match rest with
             | O => ret tt
             | S _ => sleep delay
             end) ;;
            ensure_connected_loop rest delay
        end
  end.

Definition ensure_connected (client : nat) (phone : str) : M bool :=
  ensure_connected_loop 3 5.

(** [respect_flood_limit] (bot.py, line 210). *)
Definition respect_flood_limit (phone : str) (delay : Z) : M unit :=
  entry <- get (fun w => flood_wait_until w !! phone) ;;
  (match entry with
   | Some wait_until =>
       current_time <- loop_time ;;
       if current_time <? wait_until then sleep (wait_until - current_time)
       else ret tt
   | None => ret tt
   end) ;;
  if 0 <? delay then sleep delay else ret tt.

(** The [try] and [except ValueError] around [client.get_entity] (bot.py,
    lines 1327 to 1330 and 1369 to 1372): the name as it is, and the name
    after an ["@"] when the first request raises [ValueError].  The answer
    is the one of the last request. *)
Definition get_entity_by_name (phone : str) (name : str) : M answer :=
  a <- remote phone (GetEntity (ByName name)) ;;
  match raised a with
  | Some ValueError => remote phone (GetEntity (ByName (lit "@" ++ name)))
  | _ => ret a
  end.

(** [join_channel] (bot.py, line 1295). *)
Definition join_channel (client : nat) (invite_link : str) (phone : str)
  : M bool :=
  connected <- ensure_connected client phone ;;
  if negb connected then ret false
  else
    respect_flood_limit phone 0 ;;
    if startswith invite_link (lit "https://t.me/+") then
      let invite_hash := nth 1 (split plus_sign invite_link) [] in
      if negb (truthy invite_hash) then ret false
      else
        a <- remote phone (ImportChatInviteRequest invite_hash) ;;
        match raised a with
        | None => respect_flood_limit phone (JOIN_DELAY C) ;; ret true
        | Some InviteHashExpiredError
        | Some InviteHashInvalidError
        | Some ChannelsTooMuchError => ret false
        | Some UserAlreadyParticipantError => ret true
        | Some (FloodWaitError seconds) =>
            register_flood_wait phone seconds ;; ret false
        | Some _ => ret false
        end
    else
      let channel_username := List.last (split slash invite_link) [] in
      if negb (truthy channel_username) then ret false
      else
        a <- get_entity_by_name phone channel_username ;;
        match raised a with
        | None =>
            j <- remote phone (JoinChannelRequest (payload a)) ;;
            match raised j with
            | None => respect_flood_limit phone (JOIN_DELAY C) ;; ret true
            | Some UserAlreadyParticipantError => ret true
            | Some _ => ret false
            end
        | Some UserAlreadyParticipantError => ret true
        | Some _ => ret false
        end.

(** The entity resolution of [send_reaction] (bot.py, lines 1363 to
    1377): the entity, or [None] when the [except Exception] clause is
    taken. *)
Definition resolve_for_reaction (chat_identifier : str) (phone : str)
  : M (option Z) :=
  if startswith chat_identifier (lit "-100") then
    match py_int R chat_identifier with
    | None => ret None
    | Some chat_id =>
        a <- remote phone (GetEntity (ById chat_id)) ;;
        ret (match raised a with None => Some (payload a) | Some _ => None end)
    end
  else
    a <- get_entity_by_name phone chat_identifier ;;
    ret (match raised a with None => Some (payload a) | Some _ => None end).

(** The retry loop of [send_reaction] (bot.py, lines 1379 to 1408),
    [remaining] attempts being left; [random.uniform(0, 2)] is a draw
    among the whole numbers of the interval. *)
Fixpoint reaction_attempts (remaining : nat) (client : nat)
    (chat_identifier : str) (chat : Z) (message_id : Z) (phone : str)
    (emoji : str) : M (option str) :=
  match remaining with
  | O => ret None
  | S rest =>
      a <- remote phone (SendReactionRequest chat message_id emoji) ;;
      match raised a with
      | None => ret (Some emoji)
      | Some UserNotParticipantError =>
          _ <- join_channel client (lit "https://t.me/" ++ chat_identifier) phone ;;
          reaction_attempts rest client chat_identifier chat message_id phone emoji
      | Some ReactionInvalidError =>
          match rest with
          | O => ret None
          | S _ =>
              reaction_attempts rest client chat_identifier chat message_id
                phone emoji
          end
      | Some (FloodWaitError seconds) =>
          draw <- query ;;
          let wait_time := seconds + Z.of_nat (rand draw mod 3) in
          register_flood_wait phone wait_time ;;
          sleep wait_time ;;
          match rest with
          | O => ret None
          | S _ =>
              reaction_attempts rest client chat_identifier chat message_id
                phone emoji
          end
      | Some _ =>
          match rest with
          | O => ret None
          | S _ =>
              sleep 2 ;;
              reaction_attempts rest client chat_identifier chat message_id
                phone emoji
          end
      end
  end.

(** [send_reaction] (bot.py, line 1351), with [retries=3]. *)
Definition send_reaction (client : nat) (message_link : str) (phone : str)
    (emoji : str) : M (option str) :=
  match extract_message_info R message_link with
  | None => ret None
  | Some (chat_identifier, message_id) =>
      if negb (truthy chat_identifier) || (message_id =? 0) then ret None
      else
        connected <- ensure_connected client phone ;;
        if negb connected then ret None
        else
          respect_flood_limit phone 0 ;;
          entity <- resolve_for_reaction chat_identifier phone ;;
          match entity with
          | None => ret None
          | Some chat =>
              reaction_attempts 3 client chat_identifier chat message_id
                phone emoji
          end
  end.

(** What [send_view] asks [client.get_entity] for (bot.py, lines 1459 to
    1463); [None] when [int] raises [ValueError]. *)
Definition view_target (chat_identifier : str) : option entity_ref :=
  if startswith chat_identifier (lit "-100") then
    option_map ById (py_int R chat_identifier)
  else
    Some (ByName (if negb (startswith chat_identifier (lit "@"))
                  then lit "@" ++ chat_identifier
                  else chat_identifier)).

(** [send_view] (bot.py, line 1447). *)
Definition send_view (client : nat) (message_link : str) (phone : str)
  : M bool :=
  match extract_message_info R message_link with
  | None => ret false
  | Some (chat_identifier, message_id) =>
      if negb (truthy chat_identifier) || (message_id =? 0) then ret false
      else
        connected <- ensure_connected client phone ;;
        if negb connected then ret false
        else
          respect_flood_limit phone 0 ;;
          match view_target chat_identifier with
          | None => ret false
          | Some target =>
              a <- remote phone (GetEntity target) ;;
              match raised a with
              | Some (FloodWaitError seconds) =>
                  register_flood_wait phone seconds ;; ret false
              | Some _ => ret false
              | None =>
                  v <- remote phone (GetMessagesViewsRequest (payload a) message_id) ;;
                  match raised v with
                  | None => ret true
                  | Some (FloodWaitError seconds) =>
                      register_flood_wait phone seconds ;; ret false
                  | Some _ => ret false
                  end
              end
          end
  end.

End Helpers.

(** ** The batch executors *)

(** [str(e)] for an exception of the remote library; the library owns the
    wording, the embedding keeps the name of the exception. *)
Definition str_of_error (e : error) : str :=
  match e with
  | FloodWaitError seconds => lit "FloodWaitError " ++ of_Z seconds
  | UserNotParticipantError => lit "UserNotParticipantError"
  | ReactionInvalidError => lit "ReactionInvalidError"
  | InviteHashExpiredError => lit "InviteHashExpiredError"
  | InviteHashInvalidError => lit "InviteHashInvalidError"
  | ChannelsTooMuchError => lit "ChannelsTooMuchError"
  | UserAlreadyParticipantError => lit "UserAlreadyParticipantError"
  | SessionPasswordNeededError => lit "SessionPasswordNeededError"
  | ValueError => lit "ValueError"
  | OtherError => lit "Exception"
  end.

(** What a function that returns a value or raises gives. *)
Inductive raising (A : Type) :=
| Returned (a : A)
| Raised (e : error).

Arguments Returned {A} a.
Arguments Raised {A} e.

(** The local variables of an executor: [success], [success_list],
    [failed_list] and [result], which is [None] as long as it is
    unbound. *)
Record tally := {
  success : nat;
  success_list : list str;
  failed_list : list str;
  result : option str
}.

Definition no_outcome : tally :=
  {| success := O; success_list := []; failed_list := []; result := None |}.

Definition succeeded (line : str) (t : tally) : tally :=
  {| success := S (success t); success_list := success_list t ++ [line];
     failed_list := failed_list t; result := result t |}.

Definition failed (line : str) (t : tally) : tally :=
  {| success := success t; success_list := success_list t;
     failed_list := failed_list t ++ [line]; result := result t |}.

(** [l[:count]] *)
Definition slice_to {A} (count : Z) (l : list A) : list A :=
  if count <? 0 then take (length l - Z.to_nat (- count)) l
  else take (Z.to_nat count) l.

(** The text an executor builds when its loop runs to its end: the
    headline and the two lists, each followed by a newline when not
    empty. *)
Definition lines (l : list str) : str :=
  match l with
  | [] => []
  | _ :: _ => join [newline] l ++ [newline]
  end.

Definition summary (headline : str) (t : tally) : str :=
  headline ++ [newline] ++ lines (success_list t) ++ lines (failed_list t).

Definition ratio (t : tally) (count : Z) : str :=
  of_nat (success t) ++ lit "/" ++ of_Z count.

(** [result = ...] *)
Definition bind_result (text : str) (t : tally) : tally :=
  {| success := success t; success_list := success_list t;
     failed_list := failed_list t; result := Some text |}.

(** How the loop of an executor is left: after the last account; at the
    account before which the cancellation event was found set, the
    operator having been told; or by an exception.  Each time with the
    accounts that were not reached: for a cancellation, the account at
    which the event was found set comes first; for an exception raised
    while an account was processed, the accounts after this one; for an
    exception raised by the reply that tells of the cancellation, the
    accounts from the one at which the event was found set. *)
Inductive finish :=
| ran_to_end
| canceled_before (unreached : list account)
| left_by (e : error) (unreached : list account).

(** The loop shared by the four executors: before each account the
    cancellation event is looked at; when it is set the operator is told
    and the loop is left.  The body returns the local variables and the
    exception that leaves it, if any. *)
Fixpoint for_each_account (ev : event) (canceled : str)
    (body : account -> tally -> M (tally * option error))
    (selected : list account) (t : tally) : M (tally * finish) :=
  match selected with
  | [] => ret (t, ran_to_end)
  | acc :: rest =>
      event_obj <- query ;;
      if is_set event_obj then
        e <- reply ev canceled ;;
        match e with
        | None => ret (t, canceled_before selected)
        | Some e => ret (t, left_by e selected)
        end
      else
        r <- body acc t ;;
        match snd r with
        | None => for_each_account ev canceled body rest (fst r)
        | Some e => ret (fst r, left_by e rest)
        end
  end.

(** The reply that tells the outcome of an account, sent when the local
    variables are [t]: when it raises, the exception leaves with [t];
    otherwise [after] is what the turn still does. *)
Definition tell_then (ev : event) (message : str) (t : tally) (after : M tally)
  : M (tally * option error) :=
  e <- reply ev message ;;
  match e with
  | Some e => ret (t, Some e)
  | None => t' <- after ;; ret (t', None)
  end.

Definition begin_batch (owner : Z) : M unit :=
  modify (fun w => set_cancellation_events ({[owner]} ∪ cancellation_events w) w).

Definition end_batch (owner : Z) : M unit :=
  modify (fun w => set_cancellation_events (cancellation_events w ∖ {[owner]}) w).

(** The frame shared by the four executors: the first [count] accounts of
    the registry are selected, the cancellation event of the operator is
    registered, the loop runs, and the [finally] clause removes the event,
    however the loop was left.  [prepare] is what an executor does between
    the two; the value is the selection, the local variables and the way
    the loop was left. *)
Definition batch (ev : event) (canceled : str) (prepare : M unit)
    (body : account -> tally -> M (tally * option error)) (count : Z)
  : M (list account * (tally * finish)) :=
  selected <- get (fun w => slice_to count (user_clients w)) ;;
  let owner := sender_id ev in
  begin_batch owner ;;
  prepare ;;
  r <- for_each_account ev canceled body selected no_outcome ;;
  end_batch owner ;;
  ret (selected, r).

(** What an executor gives after its loop: the exception that left the
    loop is raised again after the [finally] clause; [at_end] is the local
    variable [result] at the [return] that follows the loop, and returning
    an unbound variable raises. *)
Definition returned (canceled : str) (f : finish) (at_end : option str)
  : raising str :=
  match f with
  | ran_to_end =>
      match at_end with
      | Some text => Returned text
      | None => Raised OtherError
      end
  | canceled_before _ => Returned canceled
  | left_by e _ => Raised e
  end.

Section Executors.

Variable R : runtime.
Variable C : config.

(** *** [process_join] (bot.py, line 750) *)

Definition join_canceled : str := lit "❌ Join operation canceled successfully.".

Definition join_headline (t : tally) (count : Z) : str :=
  lit "📜 Successfully joined " ++ ratio t count ++ lit " accounts".

(** Lines 764 to 777: [result] is bound at the end of each turn that no
    exception left. *)
Definition join_body (ev : event) (count : Z) (link : str) (acc : account)
    (t : tally) : M (tally * option error) :=
  let phone := fst acc in
  let client := fst (snd acc) in
  joined <- join_channel C client link phone ;;
  if joined then
    let t1 := succeeded (lit "✅ Account " ++ phone ++ lit " joined successfully") t in
    tell_then ev (lit "✅ Account " ++ phone ++ lit " joined channel " ++ link
                  ++ lit " successfully") t1
      (ret (bind_result (summary (join_headline t1 count) t1) t1))
  else
    let t1 := failed (lit "❌ Account " ++ phone ++ lit " failed to join channel") t in
    tell_then ev (lit "❌ Account " ++ phone ++ lit " failed to join channel "
                  ++ link) t1
      (ret (bind_result (summary (join_headline t1 count) t1) t1)).

Definition join_batch (ev : event) (count : Z) (link : str)
  : M (list account * (tally * finish)) :=
  batch ev join_canceled (ret tt) (join_body ev count link) count.

(** [return result] after the loop: with [result] unbound this raises. *)
Definition process_join (ev : event) (count : Z) (link : str)
  : M (raising str) :=
  r <- join_batch ev count link ;;
  ret (returned join_canceled (snd (snd r)) (result (fst (snd r)))).

(** *** [process_leave] (bot.py, line 783) *)

Definition leave_canceled : str := lit "❌ Operation canceled successfully.".

(** The [try] block of a turn, lines 798 to 809: the local variables and
    the exception that leaves the block, if any. *)
Definition leave_try (ev : event) (link : str) (acc : account) (t : tally)
  : M (tally * option error) :=
  let phone := fst acc in
  let client := fst (snd acc) in
  connected <- ensure_connected client phone ;;
  if negb connected then
    let t1 := failed (lit "❌ Account " ++ phone ++ lit " failed to connect") t in
    tell_then ev (lit "❌ Account " ++ phone ++ lit " failed to connect for leaving "
                  ++ link) t1 (ret t1)
  else
    respect_flood_limit phone 0 ;;
    a <- remote phone (GetEntity (ByName link)) ;;
    match raised a with
    | Some e => ret (t, Some e)
    | None =>
        l <- remote phone (LeaveChannelRequest (payload a)) ;;
        match raised l with
        | Some e => ret (t, Some e)
        | None =>
            let t1 := succeeded (lit "✅ Account " ++ phone
                                 ++ lit " left channel successfully") t in
            tell_then ev (lit "✅ Account " ++ phone ++ lit " left channel " ++ link
                          ++ lit " successfully") t1
              (respect_flood_limit phone 0 ;; ret t1)
        end
    end.

(** The [except] clauses, lines 810 to 818, for the exception [e]. *)
Definition leave_failed (ev : event) (link phone : str) (e : error) (t : tally)
  : M (tally * option error) :=
  match e with
  | FloodWaitError seconds =>
      register_flood_wait phone seconds ;;
      let t1 := failed (lit "❌ Account " ++ phone ++ lit " failed—flood wait for "
                        ++ of_Z seconds ++ lit "s") t in
      tell_then ev (lit "❌ Account " ++ phone ++ lit " failed to leave channel "
                    ++ link ++ lit "—flood wait " ++ of_Z seconds ++ lit "s") t1
        (ret t1)
  | _ =>
      let t1 := failed (lit "❌ Account " ++ phone ++ lit " failed to leave channel") t in
      tell_then ev (lit "❌ Account " ++ phone ++ lit " failed to leave channel "
                    ++ link) t1 (ret t1)
  end.

Definition leave_body (ev : event) (link : str) (acc : account) (t : tally)
  : M (tally * option error) :=
  r <- leave_try ev link acc t ;;
  match snd r with
  | None => ret r
  | Some e => leave_failed ev link (fst acc) e (fst r)
  end.

Definition leave_batch (ev : event) (count : Z) (link : str)
  : M (list account * (tally * finish)) :=
  batch ev leave_canceled (ret tt) (leave_body ev link) count.

Definition leave_headline (t : tally) (count : Z) : str :=
  lit "📤 Successfully removed " ++ ratio t count ++ lit " accounts from channels".

Definition process_leave (ev : event) (count : Z) (link : str)
  : M (raising str) :=
  r <- leave_batch ev count link ;;
  let t := fst (snd r) in
  ret (returned leave_canceled (snd (snd r))
         (Some (summary (leave_headline t count) t))).

(** *** [process_react] (bot.py, line 828) *)

Definition react_canceled : str := lit "❌ React operation canceled successfully.".

(** [reaction_history[link][phone]], the empty set when absent. *)
Definition used_emojis (w : world) (link phone : str) : gset str :=
  default ∅ (reaction_history w !! link ≫= fun per_phone => per_phone !! phone).

Definition set_used_emojis (link phone : str) (used : gset str) : M unit :=
  modify (fun w =>
    set_reaction_history
      (<[link := <[phone := used]> (default ∅ (reaction_history w !! link))]>
         (reaction_history w)) w).

(** [random.choice(l)] *)
Definition random_choice (l : list str) : M str :=
  draw <- query ;;
  ret (nth (rand draw mod length l) l []).

(** Lines 846 to 858: the glyph picked for the account. *)
Definition choose_emoji (link phone : str) : M str :=
  present <- get (fun w =>
    bool_decide (is_Some (reaction_history w !! link ≫= fun p => p !! phone))) ;;
  (if present then ret tt else set_used_emojis link phone ∅) ;;
  used <- get (fun w => used_emojis w link phone) ;;
  let unused_emojis :=
    List.filter (fun e => negb (bool_decide (e ∈ used))) (EMOJIS C) in
  match unused_emojis with
  | [] =>
      set_used_emojis link phone ∅ ;;
      random_choice (EMOJIS C)
  | _ :: _ => random_choice unused_emojis
  end.

(** Lines 860 to 870: the reply of line 864 comes before the glyph is
    added to the ledger at line 866, and nothing catches what it
    raises. *)
Definition react_body (ev : event) (link : str) (acc : account) (t : tally)
  : M (tally * option error) :=
  let phone := fst acc in
  let client := fst (snd acc) in
  selected_emoji <- choose_emoji link phone ;;
  emoji_used <- send_reaction R C client link phone selected_emoji ;;
  let reacted :=
    match emoji_used with
    | Some emoji_used => truthy emoji_used
    | None => false
    end in
  if reacted then
    let emoji_used := default [] emoji_used in
    let t1 := succeeded (lit "✅ Account " ++ phone ++ lit " reacted with "
                         ++ emoji_used) t in
    tell_then ev (lit "✅ Account " ++ phone ++ lit " reacted to " ++ link
                  ++ lit " with " ++ emoji_used) t1
      (used <- get (fun w => used_emojis w link phone) ;;
       set_used_emojis link phone ({[emoji_used]} ∪ used) ;;
       respect_flood_limit phone (REACT_DELAY C) ;;
       ret t1)
  else
    let t1 := failed (lit "❌ Account " ++ phone
                      ++ lit " failed to react to message") t in
    tell_then ev (lit "❌ Account " ++ phone
                  ++ lit " failed to react to message " ++ link) t1
      (respect_flood_limit phone (REACT_DELAY C) ;; ret t1).

(** Lines 837 and 838. *)
Definition open_history (link : str) : M unit :=
  modify (fun w =>
    match reaction_history w !! link with
    | Some _ => w
    | None => set_reaction_history (<[link := ∅]> (reaction_history w)) w
    end).

Definition react_batch (ev : event) (count : Z) (link : str)
  : M (list account * (tally * finish)) :=
  batch ev react_canceled (open_history link) (react_body ev link) count.

Definition react_headline (t : tally) (count : Z) : str :=
  lit "❤️ Successfully sent " ++ ratio t count ++ lit " reactions".

Definition process_react (ev : event) (count : Z) (link : str)
  : M (raising str) :=
  r <- react_batch ev count link ;;
  let t := fst (snd r) in
  ret (returned react_canceled (snd (snd r))
         (Some (summary (react_headline t count) t))).

(** *** [process_view] (bot.py, line 881) *)

Definition view_canceled : str := lit "❌ View operation canceled successfully.".

(** The [try] block of a turn, lines 896 to 904. *)
Definition view_try (ev : event) (link : str) (acc : account) (t : tally)
  : M (tally * option error) :=
  let phone := fst acc in
  let client := fst (snd acc) in
  sent <- send_view R client link phone ;;
  if sent then
    let t1 := succeeded (lit "✅ Account " ++ phone
                         ++ lit " sent view successfully") t in
    tell_then ev (lit "✅ Account " ++ phone ++ lit " sent view to " ++ link
                  ++ lit " successfully") t1
      (respect_flood_limit phone (VIEW_DELAY C) ;; ret t1)
  else
    let t1 := failed (lit "❌ Account " ++ phone ++ lit " failed to send view") t in
    tell_then ev (lit "❌ Account " ++ phone ++ lit " failed to send view to "
                  ++ link) t1
      (respect_flood_limit phone (VIEW_DELAY C) ;; ret t1).

(** The [except Exception] clause, lines 905 to 908. *)
Definition view_failed (ev : event) (link phone : str) (e : error) (t : tally)
  : M (tally * option error) :=
  let t1 := failed (lit "❌ Account " ++ phone ++ lit " failed—"
                    ++ str_of_error e) t in
  tell_then ev (lit "❌ Account " ++ phone ++ lit " failed to send view to "
                ++ link) t1 (ret t1).

Definition view_body (ev : event) (link : str) (acc : account) (t : tally)
  : M (tally * option error) :=
  r <- view_try ev link acc t ;;
  match snd r with
  | None => ret r
  | Some e => view_failed ev link (fst acc) e (fst r)
  end.

Definition view_batch (ev : event) (count : Z) (link : str)
  : M (list account * (tally * finish)) :=
  batch ev view_canceled (ret tt) (view_body ev link) count.

Definition view_headline (t : tally) (count : Z) : str :=
  lit "👀 Successfully sent " ++ ratio t count ++ lit " views".

Definition process_view (ev : event) (count : Z) (link : str)
  : M (raising str) :=
  r <- view_batch ev count link ;;
  let t := fst (snd r) in
  ret (returned view_canceled (snd (snd r))
         (Some (summary (view_headline t count) t))).

End Executors.

(** ** The conversation *)

Definition set_state (user_id : Z) (c : conversation) : M unit :=
  modify (fun w => set_user_states (<[user_id := c]> (user_states w)) w).

Definition pop_state (user_id : Z) : M unit :=
  modify (fun w => set_user_states (delete user_id (user_states w)) w).

(** [user_states.pop(user_id, None)] as the last statement of a
    handler. *)
Definition pop_and_return (user_id : Z) : M (option error) :=
  pop_state user_id ;; ret None.

(** [await client.disconnect()] *)
Definition disconnect : M (option error) :=
  a <- ask ;; ret (raised a).

Definition channel_prompt (example : str) : str :=
  lit "📋 Enter channel link(s) (e.g., https://t.me/ChannelName or https://t.me/+"
  ++ example ++ lit ", comma-separated):" ++ [newline]
  ++ lit "Or type /cancel to cancel." ++ [newline].

Definition message_prompt : str :=
  lit "📜 Send message link(s) (e.g., https://t.me/channel/123, comma-separated):"
  ++ [newline] ++ lit "Or type /cancel to cancel." ++ [newline].

Definition no_accounts : str :=
  lit "❌ No accounts added yet. Add accounts via Account Management.".

(** [start_count_link_command] (bot.py, line 425), for [join], [leave],
    [react] and [view]. *)
Definition start_count_link_command (ev : event) (cmd : command)
  : M (option error) :=
  t <- loop_time ;;
  set_state (sender_id ev)
    {| conv_command := cmd; conv_state := counting; conv_timestamp := t;
       conv_count := None; conv_phone := None; conv_client := None;
       conv_phone_code_hash := None |} ;;
  max_accounts <- get (fun w => length (user_clients w)) ;;
  match max_accounts with
  | O => reply ev no_accounts
  | S _ =>
      reply ev (lit "🚚 How many accounts to use? Enter a number between 1 and "
                ++ of_nat max_accounts ++ lit ":")
  end.

(** [start_link_only_command] (bot.py, line 439), for the mega commands. *)
Definition start_link_only_command (ev : event) (cmd : command)
  : M (option error) :=
  pool <- get user_clients ;;
  match pool with
  | [] => reply ev no_accounts
  | _ :: _ =>
      let channels :=
        bool_decide (cmd = cmd_mega_join) || bool_decide (cmd = cmd_mega_leave) in
      t <- loop_time ;;
      set_state (sender_id ev)
        {| conv_command := cmd;
           conv_state := if channels then invite_link else message_link;
           conv_timestamp := t;
           conv_count := Some (Z.of_nat (length pool));
           conv_phone := None; conv_client := None;
           conv_phone_code_hash := None |} ;;
      reply ev (if channels then channel_prompt (lit "abcd1234") else message_prompt)
  end.

Section Conversation.

Variable R : runtime.
Variable C : config.

(** The [try] block of [receive_number] (bot.py, lines 474 to 490);
    [int] raises [ValueError], a missing conversation [KeyError]. *)
Definition receive_number_try (ev : event) : M (option error) :=
  match py_int R (text ev) with
  | None => ret (Some ValueError)
  | Some count =>
      pool_size <- get (fun w => Z.of_nat (length (user_clients w))) ;;
      if (count <? 1) || (pool_size <? count) then
        reply ev (lit "❌ Please enter a valid number between 1 and "
                  ++ of_Z pool_size ++ lit ".")
      else
        entry <- get (fun w => user_states w !! sender_id ev) ;;
        match entry with
        | None => ret (Some OtherError)
        | Some c =>
            let channels :=
              bool_decide (conv_command c = cmd_join)
              || bool_decide (conv_command c = cmd_leave) in
            t <- loop_time ;;
            set_state (sender_id ev)
              {| conv_command := conv_command c;
                 conv_state := if channels then invite_link else message_link;
                 conv_timestamp := t;
                 conv_count := Some count;
                 conv_phone := conv_phone c; conv_client := conv_client c;
                 conv_phone_code_hash := conv_phone_code_hash c |} ;;
            reply ev (if channels then channel_prompt (lit "joinName")
                      else message_prompt)
        end
  end.

(** [receive_number] (bot.py, line 472): the [except ValueError] clause
    catches the [ValueError] of the block, whatever raised it. *)
Definition receive_number (ev : event) : M (option error) :=
  r <- receive_number_try ev ;;
  match r with
  | Some ValueError =>
      reply ev (lit "❌ Invalid input. Please enter a valid number (e.g., 5).")
  | _ => ret r
  end.

(** The links of a message: the pieces between commas, stripped. *)
Definition links_of (message : str) : list str :=
  map (strip (isspace R)) (split comma (strip (isspace R) message)).

(** The loop over the valid links of [receive_invite_link]; an exception
    raised by an executor leaves it. *)
Fixpoint run_channel_links (ev : event) (cmd : command) (count : Z)
    (links : list str) (results : list str) : M (raising (list str)) :=
  match links with
  | [] => ret (Returned results)
  | link :: rest =>
      if bool_decide (cmd = cmd_join) || bool_decide (cmd = cmd_mega_join) then
        r <- process_join C ev count link ;;
        match r with
        | Raised e => ret (Raised e)
        | Returned text =>
            run_channel_links ev cmd count rest
              (results ++ [lit "Channel " ++ link ++ lit ":" ++ [newline]
                           ++ text ++ [newline]])
        end
      else if bool_decide (cmd = cmd_leave) || bool_decide (cmd = cmd_mega_leave) then
        r <- process_leave ev count link ;;
        match r with
        | Raised e => ret (Raised e)
        | Returned text =>
            run_channel_links ev cmd count rest
              (results ++ [lit "Channel " ++ link ++ lit ":" ++ [newline]
                           ++ text ++ [newline]])
        end
      else run_channel_links ev cmd count rest results
  end.

(** [receive_invite_link] (bot.py, line 495). *)
Definition receive_invite_link (ev : event) : M (option error) :=
  let invite_links := links_of (text ev) in
  let is_valid := fun link => startswith link (lit "https://t.me/") in
  let valid_links := List.filter is_valid invite_links in
  let invalid_links := List.filter (fun link => negb (is_valid link)) invite_links in
  match valid_links with
  | [] =>
      reply ev (lit "❌ All links are invalid. Links must start with 'https://t.me/'. Try again or use /cancel.")
  | _ :: _ =>
      (match invalid_links with
       | [] => ret None
       | _ :: _ =>
           reply ev (lit "⚠️ Skipped invalid links: " ++ join (lit ", ") invalid_links)
       end) ;;;
      entry <- get (fun w => user_states w !! sender_id ev) ;;
      match entry with
      | None => ret (Some OtherError)
      | Some c =>
          pool_size <- get (fun w => Z.of_nat (length (user_clients w))) ;;
          let count := default pool_size (conv_count c) in
          results <- run_channel_links ev (conv_command c) count valid_links [] ;;
          match results with
          | Raised e => ret (Some e)
          | Returned results =>
              reply ev (join [newline] results) ;;;
              pop_and_return (sender_id ev)
          end
      end
  end.

Fixpoint run_message_links (ev : event) (cmd : command) (count : Z)
    (links : list str) (results : list str) : M (raising (list str)) :=
  match links with
  | [] => ret (Returned results)
  | link :: rest =>
      if bool_decide (cmd = cmd_react) || bool_decide (cmd = cmd_mega_react) then
        r <- process_react R C ev count link ;;
        match r with
        | Raised e => ret (Raised e)
        | Returned text =>
            run_message_links ev cmd count rest
              (results ++ [lit "Message " ++ link ++ lit ":" ++ [newline]
                           ++ text ++ [newline]])
        end
      else if bool_decide (cmd = cmd_view) || bool_decide (cmd = cmd_mega_view) then
        r <- process_view R C ev count link ;;
        match r with
        | Raised e => ret (Raised e)
        | Returned text =>
            run_message_links ev cmd count rest
              (results ++ [lit "Message " ++ link ++ lit ":" ++ [newline]
                           ++ text ++ [newline]])
        end
      else run_message_links ev cmd count rest results
  end.

(** [receive_msg_link] (bot.py, line 526). *)
Definition receive_msg_link (ev : event) : M (option error) :=
  let msg_links := links_of (text ev) in
  let is_valid := fun link => bool_decide (is_Some (message_link_match R link)) in
  let valid_links := List.filter is_valid msg_links in
  let invalid_links := List.filter (fun link => negb (is_valid link)) msg_links in
  match valid_links with
  | [] =>
      reply ev (lit "❌ No valid message links found. Use format:" ++ [newline]
                ++ lit "- Public: https://t.me/ChannelName/1234567890" ++ [newline]
                ++ lit "- Private: https://t.me/c/1234567890/123" ++ [newline]
                ++ lit "Try again or use /cancel to cancel." ++ [newline])
  | _ :: _ =>
      (match invalid_links with
       | [] => ret None
       | _ :: _ =>
           reply ev (lit "⚠️ Skipped the following invalid links: "
                     ++ join (lit ", ") invalid_links)
       end) ;;;
      entry <- get (fun w => user_states w !! sender_id ev) ;;
      match entry with
      | None => ret (Some OtherError)
      | Some c =>
          pool_size <- get (fun w => Z.of_nat (length (user_clients w))) ;;
          let count := default pool_size (conv_count c) in
          results <- run_message_links ev (conv_command c) count valid_links [] ;;
          match results with
          | Raised e => ret (Some e)
          | Returned results =>
              reply ev (join [newline] results) ;;;
              pop_and_return (sender_id ev)
          end
      end
  end.

Definition invalid_phone_format : str :=
  lit "❌ Invalid phone number format. It must start with '+' and contain 7-15 digits only (e.g., +1234567890). Try again or press Cancel."
  ++ [newline].

(** The [try] block of [receive_phone] (bot.py, lines 974 to 1001). *)
Definition receive_phone_try (ev : event) (c : conversation) (phone : str)
    (client : nat) : M (option error) :=
  let user_id := sender_id ev in
  connected <- ensure_connected client phone ;;
  if negb connected then
    reply ev (lit "❌ Failed to connect to Telegram. Try again or press Cancel.") ;;;
    pop_and_return user_id
  else
    sent_code <- remote phone (SendCodeRequest phone) ;;
    match raised sent_code with
    | Some e => ret (Some e)
    | None =>
        t <- loop_time ;;
        set_state user_id
          {| conv_command := conv_command c; conv_state := otp;
             conv_timestamp := t; conv_count := conv_count c;
             conv_phone := Some phone; conv_client := Some client;
             conv_phone_code_hash := Some (payload sent_code) |} ;;
        reply ev (lit "📩 OTP sent to " ++ phone
                  ++ lit "! Please send the OTP code:")
    end.

(** [receive_phone] (bot.py, line 940).  The keys [session_file] and
    [session_string] of the state are functions of the phone and of the
    new client and are left out.  The [except] clauses catch what the
    [try] block raises, its replies included. *)
Definition receive_phone (ev : event) : M (option error) :=
  let user_id := sender_id ev in
  entry <- get (fun w => user_states w !! user_id) ;;
  match entry with
  | None =>
      reply ev (lit "❌ No valid /addaccount session active. Use /addaccount to start.")
  | Some c =>
      if negb (bool_decide (conv_state c = phone_step)) then
        reply ev (lit "❌ No valid /addaccount session active. Use /addaccount to start.")
      else
        let raw_phone := strip (isspace R) (text ev) in
        let phone := normalize_phone R raw_phone in
        if negb (phone_pattern R phone) then
          reply ev invalid_phone_format
        else
          known <- get (fun w => bool_decide (phone ∈ map fst (user_clients w))) ;;
          if known then
            reply ev (lit "❌ Account " ++ phone ++ lit " is already added.") ;;;
            pop_and_return user_id
          else
            client <- get tick ;;
            r <- receive_phone_try ev c phone client ;;
            match r with
            | None => ret None
            | Some (FloodWaitError seconds) =>
                register_flood_wait phone seconds ;;
                reply ev (lit "⏖ Too many requests. Please try again after "
                          ++ of_Z seconds ++ lit " seconds.") ;;;
                disconnect ;;;
                pop_and_return user_id
            | Some e =>
                reply ev (lit "❌ Failed to send OTP: " ++ str_of_error e
                          ++ lit ". Try again or press Cancel.") ;;;
                disconnect ;;;
                pop_and_return user_id
            end
  end.

(** The loop of [info] (bot.py, line 1200) over the accounts, numbered
    from [i]. *)
Fixpoint info_lines (i : nat) (accounts : list account) (acc : list str)
  : M (list str) :=
  match accounts with
  | [] => ret acc
  | (phone, (client, _)) :: rest =>
      connected <- ensure_connected client phone ;;
      if negb connected then
        info_lines (S i) rest
          (acc ++ [of_nat i ++ lit ". " ++ phone ++ lit " ❌ - Not connected"])
      else
        me <- remote phone GetMe ;;
        match raised me with
        | Some e =>
            info_lines (S i) rest
              (acc ++ [of_nat i ++ lit ". " ++ phone ++ lit " ❌ - Error: "
                       ++ str_of_error e])
        | None =>
            still <- query ;;
            let status := if flag still then lit "✅" else lit "❌" in
            let identifier :=
              if truthy (name me) then lit "@" ++ name me
              else lit "ID: " ++ of_Z (payload me) in
            info_lines (S i) rest
              (acc ++ [of_nat i ++ lit ". " ++ phone ++ lit " " ++ status
                       ++ lit " - " ++ identifier])
        end
  end.

Definition info (ev : event) : M (option error) :=
  accounts <- get user_clients ;;
  match accounts with
  | [] => reply ev (lit "📭 No accounts added.")
  | _ :: _ =>
      l <- info_lines 1 accounts [] ;;
      reply ev (lit "📋 Active accounts info:" ++ [newline; newline]
                ++ join [newline] l)
  end.

(** The handlers of the steps that the properties below do not look
    into. *)
Variable receive_code : event -> M (option error).
Variable receive_password : event -> M (option error).
Variable receive_remove_phone : event -> M (option error).
Variable receive_sudo_user_id : event -> M (option error).
Variable receive_remove_sudo_user_id : event -> M (option error).

(** [message_handler] (bot.py, line 1649). *)
Definition message_handler (ev : event) : M (option error) :=
  let user_id := sender_id ev in
  modify (fun w => set_known_users ({[user_id]} ∪ known_users w) w) ;;
  entry <- get (fun w => user_states w !! user_id) ;;
  match entry with
  | None => ret None
  | Some c =>
      if startswith (text ev) (lit "http://example.com/") then ret None
      else
        match conv_state c with
        | phone_step => receive_phone ev
        | otp => receive_code ev
        | password => receive_password ev
        | counting => receive_number ev
        | invite_link => receive_invite_link ev
        | message_link => receive_msg_link ev
        | remove_phone => receive_remove_phone ev
        | sudo_user_id => receive_sudo_user_id ev
        | remove_sudo_user_id => receive_remove_sudo_user_id ev
        | sudo_role | confirm_remove_sudo => ret None
        end
  end.

End Conversation.

(** * Properties *)

(** ** Phone normalisation *)

Section Phone_facts.

Variable R : runtime.
Hypothesis HR : runtime_ok R.

Lemma filter_dropwhile (sp p : char -> bool) (s : str) :
  (forall c, sp c = true -> p c = false) ->
  List.filter p (dropwhile sp s) = List.filter p s.
Proof.
  intros Hsp. induction s as [|c s IH]; [reflexivity|].
  cbn [dropwhile]. destruct (sp c) eqn:Ec; [|reflexivity].
  cbn [List.filter]. rewrite (Hsp c Ec). exact IH.
Qed.

Lemma filter_strip (sp p : char -> bool) (s : str) :
  (forall c, sp c = true -> p c = false) ->
  List.filter p (strip sp s) = List.filter p s.
Proof.
  intros Hsp. unfold strip.
  rewrite List.filter_rev, (filter_dropwhile sp p _ Hsp), List.filter_rev.
  rewrite rev_involutive. apply filter_dropwhile, Hsp.
Qed.

Lemma filter_filter (p : char -> bool) (s : str) :
  List.filter p (List.filter p s) = List.filter p s.
Proof.
  induction s as [|c s IH]; [reflexivity|].
  cbn [List.filter]. destruct (p c) eqn:Ec; [|exact IH].
  cbn [List.filter]. rewrite Ec, IH. reflexivity.
Qed.

Lemma normalize_phone_digits (s : str) :
  normalize_phone R s = plus_sign :: List.filter (isdigit R) s.
Proof.
  unfold normalize_phone.
  pose proof (filter_strip (isspace R) (isdigit R) s (space_not_digit R HR)) as Hs.
  destruct (strip (isspace R) s) as [|d t] eqn:Es.
  - cbn. cbn in Hs. rewrite <- Hs. reflexivity.
  - change (lit "+") with [plus_sign]. cbn [startswith].
    destruct (N.eqb_spec plus_sign d) as [<-|Hd]; cbn [andb app drop lit map].
    + rewrite <- Hs. cbn [List.filter]. rewrite (plus_not_digit R HR).
      reflexivity.
    + rewrite <- Hs. reflexivity.
Qed.

End Phone_facts.

(** C9.  [normalize_phone] returns ['+'] followed by exactly the digit
    characters of its input, in their order: a leading ['+'] and every
    character that is not a digit are dropped.  Normalising a normalised
    phone changes nothing. *)
Theorem normalize_phone_spec (R : runtime) (HR : runtime_ok R) (s : str) :
  normalize_phone R s = plus_sign :: List.filter (isdigit R) s
  /\ normalize_phone R (normalize_phone R s) = normalize_phone R s.
Proof.
  split; [apply normalize_phone_digits, HR|].
  rewrite !(normalize_phone_digits R HR).
  cbn [List.filter]. rewrite (plus_not_digit R HR), filter_filter.
  reflexivity.
Qed.

Lemma normalize_phone_spec_witness :
  normalize_phone Ascii_runtime.R (lit " +1 (234) 567-890 ")
    = plus_sign :: List.filter (isdigit Ascii_runtime.R) (lit " +1 (234) 567-890 ")
  /\ normalize_phone Ascii_runtime.R
       (normalize_phone Ascii_runtime.R (lit " +1 (234) 567-890 "))
     = normalize_phone Ascii_runtime.R (lit " +1 (234) 567-890 ").
Proof.
  exact (normalize_phone_spec Ascii_runtime.R Ascii_runtime.ok
           (lit " +1 (234) 567-890 ")).
Defined.

Example normalize_phone_example :
  normalize_phone Ascii_runtime.R (lit " +1 (234) 567-890 ") = lit "+1234567890".
Proof. reflexivity. Qed.

(** ** The phone guard of the add-account flow *)

(** C8.  When the normalised input does not match [^\+\d{7,15}$],
    [receive_phone] replies with the format message and does nothing
    else: the conversation of the operator is the one it was, still in
    the phone step, the registry is the one it was, and no request was
    issued, so that no code was asked for and no account came to be. *)
Theorem receive_phone_rejects (R : runtime) (ev : event) (w : world)
    (c : conversation) :
  user_states w !! sender_id ev = Some c ->
  conv_state c = phone_step ->
  phone_pattern R (normalize_phone R (strip (isspace R) (text ev))) = false ->
  let w' := snd (receive_phone R ev w) in
  replies w' = replies w ++ [(sender_id ev, invalid_phone_format)]
  /\ user_states w' = user_states w
  /\ (exists c', user_states w' !! sender_id ev = Some c'
                 /\ conv_state c' = phone_step)
  /\ user_clients w' = user_clients w
  /\ calls w' = calls w.
Proof.
  intros Hstate Hstep Hpat. unfold receive_phone, bind, get.
  rewrite Hstate, Hstep. cbn [bool_decide decide_rel negb].
  rewrite bool_decide_true by reflexivity. cbn [negb].
  rewrite Hpat. cbn.
  repeat split; try reflexivity.
  exists c. split; assumption.
Qed.

Definition awaiting_phone : conversation :=
  {| conv_command := cmd_addaccount; conv_state := phone_step;
     conv_timestamp := 0; conv_count := None; conv_phone := None;
     conv_client := None; conv_phone_code_hash := None |}.

(** A world at rest: no account, one operator (of identifier 7) who has
    just started the add-account flow. *)
Definition world_awaiting_phone : world :=
  {| now := 0; tick := O; env := fun _ => quiet; user_clients := [];
     flood_wait_until := ∅; reaction_history := ∅; cancellation_events := ∅;
     user_states := {[ 7 := awaiting_phone ]}; known_users := ∅;
     replies := []; calls := [] |}.

Lemma receive_phone_rejects_witness :
  let ev := {| sender_id := 7; text := lit "123" |} in
  let w' := snd (receive_phone Ascii_runtime.R ev world_awaiting_phone) in
  replies w' = replies world_awaiting_phone ++ [(7, invalid_phone_format)]
  /\ user_states w' = user_states world_awaiting_phone
  /\ (exists c', user_states w' !! 7 = Some c' /\ conv_state c' = phone_step)
  /\ user_clients w' = user_clients world_awaiting_phone
  /\ calls w' = calls world_awaiting_phone.
Proof.
  intros ev.
  apply (receive_phone_rejects Ascii_runtime.R ev world_awaiting_phone
           awaiting_phone).
  - reflexivity.
  - reflexivity.
  - reflexivity.
Defined.

(** ** The router *)

Lemma startswith_app (p rest : str) : startswith (p ++ rest) p = true.
Proof.
  induction p as [|c p IH]; [reflexivity|].
  cbn. rewrite N.eqb_refl. exact IH.
Qed.

(** C10.  For an operator with a conversation, in whatever step, a
    message whose text begins with [http://example.com/] is dropped by
    [message_handler]: whatever the handlers of the steps are, the world
    after the message is the world before it with the sender recorded
    among the known users; no reply is sent, no answer of the environment
    is consumed and the conversation is unchanged. *)
Theorem message_handler_ignores_example_links (R : runtime) (C : config)
    (receive_code receive_password receive_remove_phone receive_sudo_user_id
       receive_remove_sudo_user_id : event -> M (option error))
    (ev : event) (w : world) (c : conversation) (rest : str) :
  user_states w !! sender_id ev = Some c ->
  text ev = lit "http://example.com/" ++ rest ->
  let w' := snd (message_handler R C receive_code receive_password
                   receive_remove_phone receive_sudo_user_id
                   receive_remove_sudo_user_id ev w) in
  w' = set_known_users ({[sender_id ev]} ∪ known_users w) w
  /\ replies w' = replies w
  /\ user_states w' = user_states w
  /\ user_states w' !! sender_id ev = Some c
  /\ calls w' = calls w
  /\ tick w' = tick w.
Proof.
  intros Hstate Htext. unfold message_handler, bind, get, modify.
  cbn [user_states set_known_users]. rewrite Hstate, Htext, startswith_app.
  cbn. repeat split; try reflexivity. exact Hstate.
Qed.

Lemma message_handler_ignores_example_links_witness :
  let ev := {| sender_id := 7; text := lit "http://example.com/+1234567890" |} in
  let shout := fun ev : event => reply ev (lit "handled") in
  let w' := snd (message_handler Ascii_runtime.R
                   {| EMOJIS := [lit "A"]; JOIN_DELAY := 1; LEAVE_DELAY := 1;
                      REACT_DELAY := 1; VIEW_DELAY := 1 |}
                   shout shout shout shout shout ev world_awaiting_phone) in
  w' = set_known_users ({[7]} ∪ known_users world_awaiting_phone)
         world_awaiting_phone
  /\ replies w' = replies world_awaiting_phone
  /\ user_states w' = user_states world_awaiting_phone
  /\ user_states w' !! 7 = Some awaiting_phone
  /\ calls w' = calls world_awaiting_phone
  /\ tick w' = tick world_awaiting_phone.
Proof.
  intros ev shout.
  apply (message_handler_ignores_example_links Ascii_runtime.R _
           shout shout shout shout shout ev world_awaiting_phone awaiting_phone
           (lit "+1234567890")).
  - reflexivity.
  - reflexivity.
Defined.

(** ** Reasoning about handlers *)

(** [hoare P m Q]: run from a world where [P] holds, [m] returns a value
    and a world that [Q] relates. *)
Definition hoare {A} (P : world -> Prop) (m : M A) (Q : A -> world -> Prop)
  : Prop :=
  forall w, P w -> Q (fst (m w)) (snd (m w)).

(** [extends S m]: the world after [m] is [S]-related to the world
    before. *)
Definition extends {A} (S : world -> world -> Prop) (m : M A) : Prop :=
  forall w, S w (snd (m w)).

(** [keeps f]: the component [f] of the world is the same. *)
Definition keeps {B} (f : world -> B) (w w' : world) : Prop := f w' = f w.

Section Logic.

Context {A B : Type}.

Lemma hoare_ret (P : world -> Prop) (Q : A -> world -> Prop) (a : A) :
  (forall w, P w -> Q a w) -> hoare P (ret a) Q.
Proof. intros H w Hw. apply H, Hw. Qed.

Lemma hoare_bind (P : world -> Prop) (Q : A -> world -> Prop)
    (Q' : B -> world -> Prop) (m : M A) (k : A -> M B) :
  hoare P m Q -> (forall a, hoare (Q a) (k a) Q') -> hoare P (bind m k) Q'.
Proof.
  intros Hm Hk w Hw. unfold bind. specialize (Hm w Hw).
  destruct (m w) as [a w1]. apply (Hk a w1 Hm).
Qed.

Lemma hoare_weaken (P P' : world -> Prop) (Q Q' : A -> world -> Prop)
    (m : M A) :
  hoare P' m Q' -> (forall w, P w -> P' w) ->
  (forall a w, Q' a w -> Q a w) -> hoare P m Q.
Proof. intros Hm HP HQ w Hw. apply HQ, Hm, HP, Hw. Qed.

Lemma extends_ret (S : world -> world -> Prop) (a : A) :
  Reflexive S -> extends S (ret a).
Proof. intros HS w. apply HS. Qed.

Lemma extends_bind (S : world -> world -> Prop) (m : M A) (k : A -> M B) :
  Transitive S -> extends S m -> (forall a, extends S (k a)) ->
  extends S (bind m k).
Proof.
  intros HS Hm Hk w. unfold bind. specialize (Hm w).
  destruct (m w) as [a w1]. exact (HS _ _ _ Hm (Hk a w1)).
Qed.

Lemma extends_hoare (S : world -> world -> Prop) (P : world -> Prop)
    (m : M A) :
  extends S m -> (forall w w', S w w' -> P w -> P w') ->
  hoare P m (fun _ => P).
Proof. intros Hm HS w Hw. exact (HS _ _ (Hm w) Hw). Qed.

End Logic.

Global Instance keeps_reflexive {B} (f : world -> B) : Reflexive (keeps f).
Proof. intros w. reflexivity. Qed.

Global Instance keeps_transitive {B} (f : world -> B) : Transitive (keeps f).
Proof. intros w1 w2 w3 H12 H23. unfold keeps in *. congruence. Qed.

Lemma tell_then_extends (S : world -> world -> Prop) (ev : event)
    (message : str) (t : tally) (after : M tally) :
  Reflexive S -> Transitive S ->
  extends S (reply ev message) -> extends S after ->
  extends S (tell_then ev message t after).
Proof.
  intros HR HT Hr Ha. unfold tell_then.
  apply extends_bind; [exact HT|exact Hr|intros [e|]].
  - apply extends_ret, HR.
  - apply extends_bind; [exact HT|exact Ha|intros t']. apply extends_ret, HR.
Qed.

Lemma and_then_extends (S : world -> world -> Prop)
    (m k : M (option error)) :
  Reflexive S -> Transitive S ->
  extends S m -> extends S k -> extends S (and_then m k).
Proof.
  intros HR HT Hm Hk. unfold and_then.
  apply extends_bind; [exact HT|exact Hm|intros [e|]].
  - apply extends_ret, HR.
  - exact Hk.
Qed.

(** The steps of a proof that a handler extends a relation: through the
    binds and the case distinctions, down to operations that are known to
    extend it ([extends_db]) or do so by computation. *)
Create HintDb extends_db.

Ltac extends_step :=
  match goal with
  | |- extends _ (ret _) => apply extends_ret; typeclasses eauto
  | |- extends _ (bind _ _) =>
      apply extends_bind; [typeclasses eauto | | intros ?]
  | |- extends _ (tell_then _ _ _ _) =>
      apply tell_then_extends; [typeclasses eauto | typeclasses eauto | | ]
  | |- extends _ (and_then _ _) =>
      apply and_then_extends; [typeclasses eauto | typeclasses eauto | | ]
  | |- extends _ (match ?x with _ => _ end) => destruct x
  | |- extends _ (let _ := _ in _) => cbv zeta
  | |- extends _ _ => solve [eauto with extends_db]
  | |- extends (keeps _) _ => solve [intros ?; reflexivity]
  end.

Ltac extends_auto := repeat extends_step.

(** What the flood clock and the remote helpers leave alone: everything
    but the clocks, the flood map and the log of requests; answers of the
    environment are consumed, never given back. *)
Record quiet_step (w w' : world) : Prop := {
  quiet_env : env w' = env w;
  quiet_tick : (tick w <= tick w')%nat;
  quiet_clients : user_clients w' = user_clients w;
  quiet_history : reaction_history w' = reaction_history w;
  quiet_events : cancellation_events w' = cancellation_events w;
  quiet_states : user_states w' = user_states w;
  quiet_known : known_users w' = known_users w;
  quiet_replies : replies w' = replies w
}.

Global Instance quiet_step_reflexive : Reflexive quiet_step.
Proof. intros w. split; reflexivity. Qed.

Global Instance quiet_step_transitive : Transitive quiet_step.
Proof. intros w1 w2 w3 [] []. split; try congruence. lia. Qed.

Ltac quiet_leaf := solve [intros ?; split; first [reflexivity | cbn; lia]].

Section Quiet_helpers.

Variable R : runtime.
Variable C : config.

Lemma ask_quiet : extends quiet_step ask.
Proof. quiet_leaf. Qed.

Lemma query_quiet : extends quiet_step query.
Proof. quiet_leaf. Qed.

Lemma sleep_quiet (d : Z) : extends quiet_step (sleep d).
Proof. quiet_leaf. Qed.

Lemma remote_quiet (phone : str) (r : request) :
  extends quiet_step (remote phone r).
Proof. quiet_leaf. Qed.

Lemma register_flood_wait_quiet (phone : str) (s : Z) :
  extends quiet_step (register_flood_wait phone s).
Proof. quiet_leaf. Qed.

Lemma get_quiet {A} (f : world -> A) : extends quiet_step (get f).
Proof. quiet_leaf. Qed.

Hint Resolve ask_quiet query_quiet sleep_quiet remote_quiet
  register_flood_wait_quiet get_quiet : extends_db.

Lemma ensure_connected_loop_quiet (n : nat) (d : Z) :
  extends quiet_step (ensure_connected_loop n d).
Proof.
  induction n as [|n IH]; cbn [ensure_connected_loop]; extends_auto.
Qed.

Lemma ensure_connected_quiet (client : nat) (phone : str) :
  extends quiet_step (ensure_connected client phone).
Proof. apply ensure_connected_loop_quiet. Qed.

Lemma respect_flood_limit_quiet (phone : str) (d : Z) :
  extends quiet_step (respect_flood_limit phone d).
Proof. unfold respect_flood_limit, loop_time. extends_auto. Qed.

Lemma get_entity_by_name_quiet (phone name : str) :
  extends quiet_step (get_entity_by_name phone name).
Proof. unfold get_entity_by_name. extends_auto. Qed.

Hint Resolve ensure_connected_quiet respect_flood_limit_quiet
  get_entity_by_name_quiet : extends_db.

Lemma join_channel_quiet (client : nat) (link phone : str) :
  extends quiet_step (join_channel C client link phone).
Proof. unfold join_channel. extends_auto. Qed.

Hint Resolve join_channel_quiet : extends_db.

Lemma resolve_for_reaction_quiet (chat phone : str) :
  extends quiet_step (resolve_for_reaction R chat phone).
Proof. unfold resolve_for_reaction. extends_auto. Qed.

Lemma reaction_attempts_quiet (n client : nat) (chat_identifier : str)
    (chat message_id : Z) (phone emoji : str) :
  extends quiet_step
    (reaction_attempts C n client chat_identifier chat message_id phone emoji).
Proof.
  induction n as [|n IH]; cbn [reaction_attempts]; extends_auto.
Qed.

Hint Resolve resolve_for_reaction_quiet reaction_attempts_quiet : extends_db.

Lemma send_reaction_quiet (client : nat) (link phone emoji : str) :
  extends quiet_step (send_reaction R C client link phone emoji).
Proof. unfold send_reaction. extends_auto. Qed.

Lemma send_view_quiet (client : nat) (link phone : str) :
  extends quiet_step (send_view R client link phone).
Proof. unfold send_view. extends_auto. Qed.

End Quiet_helpers.

Global Hint Resolve ask_quiet query_quiet sleep_quiet remote_quiet
  register_flood_wait_quiet get_quiet ensure_connected_quiet
  respect_flood_limit_quiet join_channel_quiet send_reaction_quiet
  send_view_quiet : extends_db.


(** ** What the environment decides during a batch *)

(** From the world [w] on, the cancellation event is never found set. *)
Definition never_set (w : world) : Prop :=
  forall n, (tick w <= n)%nat -> is_set (env w n) = false.

(** From the world [w] on, no call of [event.reply] raises. *)
Definition replies_pass (w : world) : Prop :=
  forall n, (tick w <= n)%nat -> refused (env w n) = None.

(** [onward w w']: the world [w'] comes after [w] under the same
    environment. *)
Record onward (w w' : world) : Prop := {
  onward_env : env w' = env w;
  onward_tick : (tick w <= tick w')%nat
}.

Global Instance onward_reflexive : Reflexive onward.
Proof. intros w. split; reflexivity. Qed.

Global Instance onward_transitive : Transitive onward.
Proof. intros w1 w2 w3 [] []. split; [congruence|lia]. Qed.

Lemma never_set_onward (w w' : world) :
  onward w w' -> never_set w -> never_set w'.
Proof.
  intros [He Ht] H n Hn. rewrite He. apply H. lia.
Qed.

Lemma replies_pass_onward (w w' : world) :
  onward w w' -> replies_pass w -> replies_pass w'.
Proof.
  intros [He Ht] H n Hn. rewrite He. apply H. lia.
Qed.

Lemma quiet_onward {A} (m : M A) :
  extends quiet_step m -> extends onward m.
Proof. intros H w. destruct (H w). split; assumption. Qed.

Global Hint Resolve quiet_onward : extends_db.

Global Hint Extern 5 (extends onward _) =>
  solve [intros ?; split; [reflexivity | cbn; lia]] : extends_db.

Lemma reply_onward (ev : event) (message : str) :
  extends onward (reply ev message).
Proof. intros w. split; [reflexivity | cbn; lia]. Qed.

Lemma reply_tick (ev : event) (message : str) (w : world) :
  tick (snd (reply ev message w)) = S (tick w).
Proof. reflexivity. Qed.

Lemma reply_value (ev : event) (message : str) (w : world) :
  fst (reply ev message w) = refused (env w (tick w)).
Proof. reflexivity. Qed.

Lemma reply_passes (ev : event) (message : str) (w : world) :
  replies_pass w -> fst (reply ev message w) = None.
Proof. intros H. rewrite reply_value. apply H. lia. Qed.

Global Hint Resolve reply_onward : extends_db.

(** ** The replies of a handler *)

(** [tells P]: the log of the calls of [event.reply] grew by calls that
    satisfy [P]. *)
Definition tells (P : Z * str -> Prop) (w w' : world) : Prop :=
  exists new, replies w' = replies w ++ new /\ Forall P new.

Global Instance tells_reflexive (P : Z * str -> Prop) : Reflexive (tells P).
Proof. intros w. exists []. rewrite app_nil_r. split; [reflexivity|constructor]. Qed.

Global Instance tells_transitive (P : Z * str -> Prop) : Transitive (tells P).
Proof.
  intros w1 w2 w3 (n1 & H1 & F1) (n2 & H2 & F2). exists (n1 ++ n2).
  rewrite H2, H1, app_assoc. split; [reflexivity|].
  apply Forall_app. split; assumption.
Qed.

Lemma keeps_replies_tells {A} (P : Z * str -> Prop) (m : M A) :
  extends (keeps replies) m -> extends (tells P) m.
Proof.
  intros H w. exists []. rewrite app_nil_r. split; [exact (H w)|constructor].
Qed.

Lemma reply_tells (P : Z * str -> Prop) (ev : event) (message : str) :
  P (sender_id ev, message) -> extends (tells P) (reply ev message).
Proof.
  intros HP w. exists [(sender_id ev, message)]. split; [reflexivity|].
  constructor; [exact HP|constructor].
Qed.

Lemma tells_weaken (P Q : Z * str -> Prop) (w w' : world) :
  (forall r, P r -> Q r) -> tells P w w' -> tells Q w w'.
Proof.
  intros HPQ (new & Hnew & HP). exists new. split; [exact Hnew|].
  eapply Forall_impl; [exact HP|exact HPQ].
Qed.

Lemma quiet_keeps_replies {A} (m : M A) :
  extends quiet_step m -> extends (keeps replies) m.
Proof. intros H w. exact (quiet_replies _ _ (H w)). Qed.

Lemma quiet_keeps_history {A} (m : M A) :
  extends quiet_step m -> extends (keeps reaction_history) m.
Proof. intros H w. exact (quiet_history _ _ (H w)). Qed.

Lemma quiet_keeps_clients {A} (m : M A) :
  extends quiet_step m -> extends (keeps user_clients) m.
Proof. intros H w. exact (quiet_clients _ _ (H w)). Qed.

Global Hint Resolve quiet_keeps_replies quiet_keeps_history
  quiet_keeps_clients keeps_replies_tells : extends_db.

Global Hint Extern 5 (extends (keeps _) _) =>
  solve [intros ?; reflexivity] : extends_db.

Lemma bind_eq {A B} (m : M A) (k : A -> M B) (w : world) :
  bind m k w = k (fst (m w)) (snd (m w)).
Proof. unfold bind. destruct (m w). reflexivity. Qed.

Lemma replies_kept {A} (m : M A) (w : world) :
  extends (keeps replies) m -> replies (snd (m w)) = replies w.
Proof. intros H. exact (H w). Qed.

Lemma replies_reply (ev : event) (message : str) (w : world) :
  replies (snd (reply ev message w)) = replies w ++ [(sender_id ev, message)].
Proof. reflexivity. Qed.

(** The steps of a proof about the replies of a handler: as for
    [extends_step], with the replies to be checked left as goals. *)
Ltac tells_step :=
  first
    [ match goal with
      | |- extends (tells _) (reply _ _) => apply reply_tells
      end
    | extends_step ].

Ltac tells_auto := repeat tells_step.

Lemma tell_then_tells (P : Z * str -> Prop) (ev : event) (message : str)
    (t : tally) (after : M tally) :
  P (sender_id ev, message) -> extends (keeps replies) after ->
  extends (tells P) (tell_then ev message t after).
Proof.
  intros HP Ha. apply tell_then_extends; try typeclasses eauto.
  - apply reply_tells, HP.
  - apply keeps_replies_tells, Ha.
Qed.

(** ** The outcomes of a batch *)

(** A reply of an executor about an account: sent to the operator of
    the batch, it names the account after a mark that tells success from
    failure. *)
Definition names_account (ev : event) (acc : account) (r : Z * str) : Prop :=
  fst r = sender_id ev
  /\ exists ok rest,
       snd r = (if ok : bool then lit "✅ Account " else lit "❌ Account ")
               ++ fst acc ++ rest.

(** What an executor reports for an account it processed: the account,
    whether the action succeeded, and the reply sent to the operator. *)
Record outcome := {
  outcome_account : account;
  outcome_ok : bool;
  outcome_reply : str
}.

(** The reply names the account after a mark that tells success from
    failure. *)
Definition reports (o : outcome) : Prop :=
  exists rest,
    outcome_reply o
    = (if outcome_ok o then lit "✅ Account " else lit "❌ Account ")
      ++ fst (outcome_account o) ++ rest.

Definition successes (os : list outcome) : nat :=
  length (List.filter outcome_ok os).

Definition failures (os : list outcome) : nat :=
  length (List.filter (fun o => negb (outcome_ok o)) os).

Definition unreached (f : finish) : list account :=
  match f with
  | ran_to_end => []
  | canceled_before l => l
  | left_by _ l => l
  end.

(** The local variables after one outcome: a success is counted and
    listed, a failure is listed. *)
Definition counted (ok : bool) (t t' : tally) : Prop :=
  exists line,
    success t' = (if ok then S (success t) else success t)
    /\ success_list t' = (if ok then success_list t ++ [line] else success_list t)
    /\ failed_list t' = (if ok then failed_list t else failed_list t ++ [line]).

(** [outcome_from ev acc t before t' w']: the replies of [w'] are the
    replies [before] and the reply of one outcome for [acc], by which the
    local variables went from [t] to [t']. *)
Definition outcome_from (ev : event) (acc : account) (t : tally)
    (before : list (Z * str)) (t' : tally) (w' : world) : Prop :=
  exists o,
    outcome_account o = acc /\ reports o
    /\ replies w' = before ++ [(sender_id ev, outcome_reply o)]
    /\ counted (outcome_ok o) t t'.

(** [passing r w]: the replies logged are [r], and no reply raises from
    [w] on. *)
Definition passing (r : list (Z * str)) (w : world) : Prop :=
  replies_pass w /\ replies w = r.

Lemma passing_kept {A} (m : M A) (r : list (Z * str)) :
  extends onward m -> extends (keeps replies) m ->
  hoare (passing r) m (fun _ => passing r).
Proof.
  intros Ho Hk w [Hp Hr]. split.
  - exact (replies_pass_onward _ _ (Ho w) Hp).
  - rewrite <- Hr. exact (Hk w).
Qed.

Lemma passing_kept_value {A} (m : M A) (r : list (Z * str)) (a : A) :
  extends onward m -> extends (keeps replies) m ->
  (forall w, fst (m w) = a) ->
  hoare (passing r) m (fun v w => v = a /\ passing r w).
Proof.
  intros Ho Hk Hv w Hw. split; [apply Hv|]. exact (passing_kept m r Ho Hk w Hw).
Qed.

Lemma tell_then_passing (ev : event) (message : str) (t : tally)
    (after : M tally) (r : list (Z * str)) (Q : tally -> world -> Prop) :
  hoare (passing (r ++ [(sender_id ev, message)])) after Q ->
  hoare (passing r) (tell_then ev message t after)
    (fun res w => snd res = None /\ Q (fst res) w).
Proof.
  intros Hafter w [Hp Hr]. unfold tell_then. rewrite bind_eq.
  rewrite (reply_passes ev message w Hp). rewrite bind_eq. cbn [ret fst snd].
  split; [reflexivity|]. apply Hafter. split.
  - exact (replies_pass_onward _ _ (reply_onward ev message w) Hp).
  - rewrite replies_reply, Hr. reflexivity.
Qed.

(** The turn of an account whose reply passes: one outcome, and no
    exception. *)
Definition one_turn (ev : event) (acc : account) (t : tally)
    (r : list (Z * str)) (res : tally * option error) (w' : world) : Prop :=
  snd res = None /\ replies_pass w' /\ outcome_from ev acc t r (fst res) w'.

Lemma one_turn_intro (ev : event) (acc : account) (ok : bool) (rest : str)
    (t t' : tally) (r : list (Z * str)) (w : world) :
  passing (r ++ [(sender_id ev,
                  (if ok then lit "✅ Account " else lit "❌ Account ")
                  ++ fst acc ++ rest)]) w ->
  counted ok t t' ->
  replies_pass w
  /\ outcome_from ev acc t r t' w.
Proof.
  intros [Hp Hr] Hc. split; [exact Hp|].
  exists {| outcome_account := acc; outcome_ok := ok;
            outcome_reply := (if ok then lit "✅ Account " else lit "❌ Account ")
                             ++ fst acc ++ rest |}.
  split; [reflexivity|]. split; [exists rest; reflexivity|].
  split; [exact Hr|exact Hc].
Qed.

Lemma counted_succeeded (line : str) (t : tally) : counted true t (succeeded line t).
Proof. exists line. repeat split. Qed.

Lemma counted_failed (line : str) (t : tally) : counted false t (failed line t).
Proof. exists line. repeat split. Qed.

Lemma counted_bind_result (ok : bool) (text : str) (t t' : tally) :
  counted ok t t' -> counted ok t (bind_result text t').
Proof. intros (line & H). exists line. exact H. Qed.

(** The reply of a turn and what follows it, when the replies pass: the
    outcome [ok] for [acc], the local variables being [t'] at the end. *)
Lemma tell_then_one_turn (ev : event) (acc : account) (ok : bool) (rest : str)
    (t t1 t' : tally) (after : M tally) (r : list (Z * str)) :
  extends onward after -> extends (keeps replies) after ->
  (forall w, fst (after w) = t') ->
  counted ok t t' ->
  hoare (passing r)
    (tell_then ev ((if ok then lit "✅ Account " else lit "❌ Account ")
                   ++ fst acc ++ rest) t1 after)
    (one_turn ev acc t r).
Proof.
  intros Ho Hk Hv Hc.
  eapply hoare_weaken;
    [apply tell_then_passing, (passing_kept_value after _ t' Ho Hk Hv)
    |intros w Hw; exact Hw|].
  intros res w (Hnone & Hval & Hpass). unfold one_turn.
  split; [exact Hnone|]. rewrite Hval.
  exact (one_turn_intro ev acc ok rest t t' r w Hpass Hc).
Qed.

Ltac names_account_goal :=
  split; [reflexivity|];
  first [ exists true; eexists; reflexivity | exists false; eexists; reflexivity ].

Ltac passing_step :=
  match goal with
  | |- hoare (passing _) (bind _ _) _ =>
      eapply hoare_bind;
        [ apply passing_kept; solve [eauto with extends_db]
        | intros ?; cbv beta ]
  | |- hoare (passing _) (match ?x with _ => _ end) _ => destruct x
  | |- hoare (passing _) (let _ := _ in _) _ => cbv zeta
  end.

(** The side conditions of [tell_then_one_turn]. *)
Ltac one_turn_side :=
  first
    [ solve [extends_auto]
    | solve [intros ?; rewrite ?bind_eq; cbn [ret fst]; reflexivity]
    | solve [apply counted_succeeded]
    | solve [apply counted_failed]
    | solve [apply counted_bind_result, counted_succeeded]
    | solve [apply counted_bind_result, counted_failed] ].

Ltac tell_one_turn acc ok :=
  eapply (tell_then_one_turn _ acc ok); one_turn_side.

Section Bodies.

Variable R : runtime.
Variable C : config.

Lemma choose_emoji_keeps_replies (link phone : str) :
extends (keeps replies) (choose_emoji C link phone).
Proof. unfold choose_emoji, random_choice. extends_auto. Qed.

Lemma choose_emoji_onward (link phone : str) :
extends onward (choose_emoji C link phone).
Proof. unfold choose_emoji, random_choice. extends_auto. Qed.

Hint Resolve choose_emoji_keeps_replies choose_emoji_onward : extends_db.

(** *** The replies of a turn name its account *)

Lemma join_body_tells (ev : event) (count : Z) (link : str) (acc : account)
  (t : tally) :
extends (tells (names_account ev acc)) (join_body C ev count link acc t).
Proof. unfold join_body. tells_auto; names_account_goal. Qed.

Lemma leave_body_tells (ev : event) (link : str) (acc : account) (t : tally) :
extends (tells (names_account ev acc)) (leave_body ev link acc t).
Proof.
unfold leave_body, leave_try, leave_failed. tells_auto; names_account_goal.
Qed.

Lemma react_body_tells (ev : event) (link : str) (acc : account) (t : tally) :
extends (tells (names_account ev acc)) (react_body R C ev link acc t).
Proof. unfold react_body. tells_auto; names_account_goal. Qed.

Lemma view_body_tells (ev : event) (link : str) (acc : account) (t : tally) :
extends (tells (names_account ev acc)) (view_body R C ev link acc t).
Proof.
unfold view_body, view_try, view_failed. tells_auto; names_account_goal.
Qed.

(** *** A turn goes on under the same environment *)

Lemma join_body_onward (ev : event) (count : Z) (link : str) (acc : account)
  (t : tally) :
extends onward (join_body C ev count link acc t).
Proof. unfold join_body. extends_auto. Qed.

Lemma leave_body_onward (ev : event) (link : str) (acc : account) (t : tally) :
extends onward (leave_body ev link acc t).
Proof. unfold leave_body, leave_try, leave_failed. extends_auto. Qed.

Lemma react_body_onward (ev : event) (link : str) (acc : account) (t : tally) :
extends onward (react_body R C ev link acc t).
Proof. unfold react_body. extends_auto. Qed.

Lemma view_body_onward (ev : event) (link : str) (acc : account) (t : tally) :
extends onward (view_body R C ev link acc t).
Proof. unfold view_body, view_try, view_failed. extends_auto. Qed.

(** *** A turn whose replies pass gives one outcome *)

Lemma join_body_one_turn (ev : event) (count : Z) (link : str) (acc : account)
  (t : tally) (r : list (Z * str)) :
hoare (passing r) (join_body C ev count link acc t) (one_turn ev acc t r).
Proof.
unfold join_body. cbv zeta. passing_step. passing_step.
- tell_one_turn acc true.
- tell_one_turn acc false.
Qed.

Lemma leave_failed_one_turn (ev : event) (link : str) (acc : account)
  (e : error) (t : tally) (r : list (Z * str)) :
hoare (passing r) (leave_failed ev link (fst acc) e t) (one_turn ev acc t r).
Proof.
unfold leave_failed. destruct e; cbv zeta;
  try (tell_one_turn acc false).
passing_step. tell_one_turn acc false.
Qed.

Lemma leave_try_one_turn (ev : event) (link : str) (acc : account) (t : tally)
  (r : list (Z * str)) :
hoare (passing r) (leave_try ev link acc t)
  (fun res w =>
     match snd res with
     | None => one_turn ev acc t r res w
     | Some _ => fst res = t /\ passing r w
     end).
Proof.
assert (Hturn : forall m,
          hoare (passing r) m (one_turn ev acc t r) ->
          hoare (passing r) m
            (fun res w =>
               match snd res with
               | None => one_turn ev acc t r res w
               | Some _ => fst res = t /\ passing r w
               end)).
{ intros m Hm w Hw. destruct (Hm w Hw) as (Hnone & Hrest).
  rewrite Hnone. split; [exact Hnone|exact Hrest]. }
unfold leave_try. cbv zeta. passing_step. passing_step.
- apply Hturn. tell_one_turn acc false.
- passing_step. passing_step. passing_step.
  + apply hoare_ret. intros w Hw. cbn. split; [reflexivity|exact Hw].
  + passing_step. passing_step.
    * apply hoare_ret. intros w Hw. cbn. split; [reflexivity|exact Hw].
    * apply Hturn. tell_one_turn acc true.
Qed.

Lemma leave_body_one_turn (ev : event) (link : str) (acc : account) (t : tally)
  (r : list (Z * str)) :
hoare (passing r) (leave_body ev link acc t) (one_turn ev acc t r).
Proof.
unfold leave_body. eapply hoare_bind; [apply leave_try_one_turn|].
intros [t1 [e|]]; cbn [fst snd].
- intros w [-> Hw]. exact (leave_failed_one_turn ev link acc e t r w Hw).
- apply hoare_ret. intros w Hw. exact Hw.
Qed.

Lemma react_body_one_turn (ev : event) (link : str) (acc : account) (t : tally)
  (r : list (Z * str)) :
hoare (passing r) (react_body R C ev link acc t) (one_turn ev acc t r).
Proof.
unfold react_body. cbv zeta. passing_step. passing_step.
match goal with |- hoare _ (if ?b then _ else _) _ => destruct b end.
- tell_one_turn acc true.
- tell_one_turn acc false.
Qed.

Lemma view_failed_one_turn (ev : event) (link : str) (acc : account)
  (e : error) (t : tally) (r : list (Z * str)) :
hoare (passing r) (view_failed ev link (fst acc) e t) (one_turn ev acc t r).
Proof. unfold view_failed. cbv zeta. tell_one_turn acc false. Qed.

Lemma view_body_one_turn (ev : event) (link : str) (acc : account) (t : tally)
  (r : list (Z * str)) :
hoare (passing r) (view_body R C ev link acc t) (one_turn ev acc t r).
Proof.
unfold view_body. eapply hoare_bind with (Q := one_turn ev acc t r).
- unfold view_try. cbv zeta. passing_step. passing_step.
  + tell_one_turn acc true.
  + tell_one_turn acc false.
- intros [t1 [e|]]; cbn [fst snd].
  + intros w (Hnone & _). discriminate Hnone.
  + apply hoare_ret. intros w Hw. exact Hw.
Qed.

End Bodies.

(** ** The loop of an executor *)

(** Between [w] and [w'] the cancellation event was found set. *)
Definition found_set (w w' : world) : Prop :=
  exists n, (tick w <= n < tick w')%nat /\ is_set (env w n) = true.

Lemma found_set_onward (w0 w w' : world) :
  onward w0 w -> found_set w w' -> found_set w0 w'.
Proof.
  intros [He Ht] (n & Hn & Hset). exists n. split; [lia|].
  rewrite <- He. exact Hset.
Qed.

Lemma never_set_not_found (w w' : world) :
  never_set w -> ~ found_set w w'.
Proof.
  intros Hnever (n & Hn & Hset). rewrite (Hnever n) in Hset; [discriminate|lia].
Qed.

(** The loop was left in due course: at its end, or on the cancellation
    event found set before an account. *)
Definition duly_left (w w' : world) (f : finish) : Prop :=
  match f with
  | ran_to_end => True
  | canceled_before l => l <> [] /\ found_set w w'
  | left_by _ _ => False
  end.

(** The reply that closes a canceled loop. *)
Definition closing_reply (ev : event) (canceled : str) (f : finish)
  : list (Z * str) :=
  match f with
  | canceled_before _ => [(sender_id ev, canceled)]
  | _ => []
  end.

(** A run of the loop, from the local variables [t] over [selected], in
    which every reply passed: the outcomes of the accounts reached, in
    order; the accounts not reached; the replies sent; the local variables
    at the end; the way the loop was left. *)
Definition loop_run (ev : event) (canceled : str) (selected : list account)
    (t : tally) (w : world) (t' : tally) (f : finish) (w' : world)
    (os : list outcome) : Prop :=
  selected = map outcome_account os ++ unreached f
  /\ Forall reports os
  /\ replies w'
     = replies w ++ map (fun o => (sender_id ev, outcome_reply o)) os
       ++ closing_reply ev canceled f
  /\ success t' = (success t + successes os)%nat
  /\ length (success_list t') = (length (success_list t) + successes os)%nat
  /\ length (failed_list t') = (length (failed_list t) + failures os)%nat
  /\ duly_left w w' f
  /\ onward w w'.

Lemma query_onward : extends onward query.
Proof. intros w. split; [reflexivity | cbn; lia]. Qed.

Lemma for_each_account_onward (ev : event) (canceled : str)
    (body : account -> tally -> M (tally * option error))
    (selected : list account) :
  (forall acc t, extends onward (body acc t)) ->
  forall t, extends onward (for_each_account ev canceled body selected t).
Proof.
  intros Hbody. induction selected as [|acc rest IH]; intros t;
    cbn [for_each_account]; extends_auto.
Qed.

Lemma for_each_account_run (ev : event) (canceled : str)
    (body : account -> tally -> M (tally * option error)) :
  (forall acc t r, hoare (passing r) (body acc t) (one_turn ev acc t r)) ->
  (forall acc t, extends onward (body acc t)) ->
  forall selected t w,
    replies_pass w ->
    let r := for_each_account ev canceled body selected t w in
    exists os,
      loop_run ev canceled selected t w (fst (fst r)) (snd (fst r)) (snd r) os.
Proof.
  intros Hbody Honward selected.
  induction selected as [|acc rest IH]; intros t w Hpass r.
  - exists []. subst r. cbn. unfold loop_run. cbn.
    rewrite app_nil_r, !Nat.add_0_r.
    split; [reflexivity|]. split; [constructor|].
    split; [reflexivity|]. split; [reflexivity|].
    split; [reflexivity|]. split; [reflexivity|].
    split; [exact I|reflexivity].
  - subst r. cbn [for_each_account]. rewrite bind_eq.
    pose proof (query_onward w) as Hq.
    assert (Hset0 : is_set (fst (query w)) = is_set (env w (tick w)))
      by reflexivity.
    assert (Htick1 : tick (snd (query w)) = S (tick w)) by reflexivity.
    assert (Hrep1 : replies (snd (query w)) = replies w) by reflexivity.
    set (a := fst (query w)) in *. set (w1 := snd (query w)) in *.
    clearbody a w1.
    pose proof (replies_pass_onward _ _ Hq Hpass) as Hpass1.
    destruct (is_set a) eqn:Eset.
    + exists []. rewrite bind_eq. rewrite (reply_passes ev canceled w1 Hpass1).
      cbn [ret fst snd]. unfold loop_run.
      cbn [map app unreached closing_reply successes failures List.filter length].
      rewrite !Nat.add_0_r, replies_reply, Hrep1.
      split; [reflexivity|]. split; [constructor|].
      split; [reflexivity|]. split; [reflexivity|].
      split; [reflexivity|]. split; [reflexivity|].
      split.
      * split; [discriminate|].
        exists (tick w). rewrite reply_tick, Htick1. split; [lia|].
        rewrite <- Hset0. reflexivity.
      * etransitivity; [exact Hq|apply reply_onward].
    + rewrite bind_eq.
      destruct (Hbody acc t (replies w1) w1 (conj Hpass1 eq_refl))
        as (Hnone & Hpass2 & o & Hacc & Hrep & Hreplies & line & Hs & Hsl & Hfl).
      pose proof (Honward acc t w1) as Ho2.
      set (t2 := fst (fst (body acc t w1))) in *.
      set (e2 := snd (fst (body acc t w1))) in *.
      set (w2 := snd (body acc t w1)) in *.
      clearbody t2 e2 w2. subst e2.
      destruct (IH t2 w2 Hpass2)
        as (os & Hsel & Hos & Hrs & Hsucc & Hsuccl & Hfaill & Hleft & Ho3).
      exists (o :: os). unfold loop_run.
      split; [cbn; rewrite Hacc; f_equal; exact Hsel|].
      split; [constructor; assumption|].
      split.
      { rewrite Hrs, Hreplies, Hrep1. cbn [map]. rewrite <- !app_assoc.
        reflexivity. }
      unfold successes, failures in *. cbn [List.filter].
      rewrite Hsucc, Hsuccl, Hfaill, Hs, Hsl, Hfl.
      assert (Ho13 : onward w w2) by (etransitivity; eassumption).
      assert (Hleft' : duly_left w
                (snd (for_each_account ev canceled body rest t2 w2))
                (snd (fst (for_each_account ev canceled body rest t2 w2)))).
      { destruct (snd (fst (for_each_account ev canceled body rest t2 w2)))
          as [|l|e l]; cbn in Hleft |- *; [exact I| |exact Hleft].
        destruct Hleft as [Hne Hfound].
        split; [exact Hne|exact (found_set_onward _ _ _ Ho13 Hfound)]. }
      assert (Ho : onward w (snd (for_each_account ev canceled body rest t2 w2)))
        by (etransitivity; eassumption).
      destruct (outcome_ok o); cbn [negb length]; rewrite ?length_app;
        cbn [length].
      all: split; [lia|]; split; [lia|]; split; [lia|];
        split; [exact Hleft'|exact Ho].
Qed.

(** A run of the loop, whatever the replies do: the accounts reached,
    each with the replies of its turn; the replies are those of the turns,
    in order, and the reply that tells of the cancellation when the event
    was found set. *)
Definition loop_trace (ev : event) (canceled : str) (selected : list account)
    (w : world) (f : finish) (w' : world)
    (turns : list (account * list (Z * str))) : Prop :=
  selected = map fst turns ++ unreached f
  /\ Forall (fun turn => Forall (names_account ev (fst turn)) (snd turn)) turns
  /\ onward w w'
  /\ match f with
     | ran_to_end => replies w' = replies w ++ concat (map snd turns)
     | canceled_before l =>
         replies w'
         = replies w ++ concat (map snd turns) ++ [(sender_id ev, canceled)]
         /\ l <> [] /\ found_set w w'
     | left_by _ _ =>
         exists closing,
           replies w' = replies w ++ concat (map snd turns) ++ closing
           /\ (closing = [] \/ closing = [(sender_id ev, canceled)])
     end.

Lemma for_each_account_trace (ev : event) (canceled : str)
    (body : account -> tally -> M (tally * option error)) :
  (forall acc t, extends (tells (names_account ev acc)) (body acc t)) ->
  (forall acc t, extends onward (body acc t)) ->
  forall selected t w,
    let r := for_each_account ev canceled body selected t w in
    exists turns, loop_trace ev canceled selected w (snd (fst r)) (snd r) turns.
Proof.
  intros Hbody Honward selected.
  induction selected as [|acc rest IH]; intros t w r.
  - exists []. subst r. cbn. unfold loop_trace. cbn.
    rewrite app_nil_r.
    split; [reflexivity|]. split; [constructor|]. split; reflexivity.
  - subst r. cbn [for_each_account]. rewrite bind_eq.
    pose proof (query_onward w) as Hq.
    assert (Hset0 : is_set (fst (query w)) = is_set (env w (tick w)))
      by reflexivity.
    assert (Htick1 : tick (snd (query w)) = S (tick w)) by reflexivity.
    assert (Hrep1 : replies (snd (query w)) = replies w) by reflexivity.
    set (a := fst (query w)) in *. set (w1 := snd (query w)) in *.
    clearbody a w1.
    destruct (is_set a) eqn:Eset.
    + exists []. rewrite bind_eq.
      pose proof (reply_onward ev canceled w1) as Hr.
      pose proof (reply_tick ev canceled w1) as Hrt.
      pose proof (replies_reply ev canceled w1) as Hrr.
      set (e := fst (reply ev canceled w1)) in *.
      set (w2 := snd (reply ev canceled w1)) in *. clearbody e w2.
      assert (Ho : onward w w2) by (etransitivity; eassumption).
      destruct e as [e|]; cbn [ret fst snd]; unfold loop_trace;
        cbn [map concat app unreached];
        (split; [reflexivity|]); (split; [constructor|]);
        (split; [exact Ho|]); rewrite Hrr, Hrep1.
      * exists [(sender_id ev, canceled)]. split; [reflexivity|]. right.
        reflexivity.
      * split; [reflexivity|]. split; [discriminate|].
        exists (tick w). rewrite Hrt, Htick1. split; [lia|].
        rewrite <- Hset0. reflexivity.
    + rewrite bind_eq.
      destruct (Hbody acc t w1) as (new & Hnew & Hnames).
      pose proof (Honward acc t w1) as Ho2.
      set (t2 := fst (fst (body acc t w1))) in *.
      set (e2 := snd (fst (body acc t w1))) in *.
      set (w2 := snd (body acc t w1)) in *.
      clearbody t2 e2 w2.
      assert (Ho12 : onward w w2) by (etransitivity; eassumption).
      destruct e2 as [e|].
      * exists [(acc, new)]. cbn [ret fst snd]. unfold loop_trace.
        cbn [map concat app unreached fst snd].
        split; [reflexivity|]. split; [repeat constructor; exact Hnames|].
        split; [exact Ho12|].
        exists []. rewrite !app_nil_r, Hnew, Hrep1. split; [reflexivity|].
        left. reflexivity.
      * destruct (IH t2 w2) as (turns & Hsel & Hturns & Ho3 & Hend).
        exists ((acc, new) :: turns). unfold loop_trace.
        cbn [map concat fst snd].
        split; [cbn; f_equal; exact Hsel|].
        split; [constructor; [exact Hnames|exact Hturns]|].
        split; [etransitivity; eassumption|].
        destruct (snd (fst (for_each_account ev canceled body rest t2 w2)))
          as [|l|e l].
        -- rewrite Hend, Hnew, Hrep1, <- !app_assoc. reflexivity.
        -- destruct Hend as (Hreplies & Hne & Hfound).
           split; [rewrite Hreplies, Hnew, Hrep1, <- !app_assoc; reflexivity|].
           split; [exact Hne|exact (found_set_onward _ _ _ Ho12 Hfound)].
        -- destruct Hend as (closing & Hreplies & Hclosing).
           exists closing. split; [|exact Hclosing].
           rewrite Hreplies, Hnew, Hrep1, <- !app_assoc. reflexivity.
Qed.

(** ** The four executors at once *)

Inductive executor := Join | Leave | React | View.

Definition executor_batch (R : runtime) (C : config) (x : executor)
    (ev : event) (count : Z) (link : str)
  : M (list account * (tally * finish)) :=
  match x with
  | Join => join_batch C ev count link
  | Leave => leave_batch ev count link
  | React => react_batch R C ev count link
  | View => view_batch R C ev count link
  end.

(** What the executor returns, or the exception it raises. *)
Definition executor_result (R : runtime) (C : config) (x : executor)
    (ev : event) (count : Z) (link : str) : M (raising str) :=
  match x with
  | Join => process_join C ev count link
  | Leave => process_leave ev count link
  | React => process_react R C ev count link
  | View => process_view R C ev count link
  end.

Definition canceled_text (x : executor) : str :=
  match x with
  | Join => join_canceled
  | Leave => leave_canceled
  | React => react_canceled
  | View => view_canceled
  end.

(** The local variable [result] at the [return] that follows the loop. *)
Definition result_at_end (x : executor) (t : tally) (count : Z) : option str :=
  match x with
  | Join => result t
  | Leave => Some (summary (leave_headline t count) t)
  | React => Some (summary (react_headline t count) t)
  | View => Some (summary (view_headline t count) t)
  end.

Lemma executor_result_eq (R : runtime) (C : config) (x : executor)
    (ev : event) (count : Z) (link : str) (w : world) :
  let r := executor_batch R C x ev count link w in
  executor_result R C x ev count link w
  = (returned (canceled_text x) (snd (snd (fst r)))
       (result_at_end x (fst (snd (fst r))) count),
     snd r).
Proof.
  destruct x; cbn [executor_batch executor_result canceled_text result_at_end];
    unfold process_join, process_leave, process_react, process_view;
    rewrite bind_eq; reflexivity.
Qed.

Lemma open_history_onward (link : str) : extends onward (open_history link).
Proof.
  intros w. unfold open_history, modify. cbn [snd].
  destruct (reaction_history w !! link); split; reflexivity.
Qed.

Lemma open_history_keeps_replies (link : str) :
  extends (keeps replies) (open_history link).
Proof.
  intros w. unfold open_history, modify, keeps. cbn [snd].
  destruct (reaction_history w !! link); reflexivity.
Qed.

Lemma open_history_keeps_calls (link : str) :
  extends (keeps calls) (open_history link).
Proof.
  intros w. unfold open_history, modify, keeps. cbn [snd].
  destruct (reaction_history w !! link); reflexivity.
Qed.

Global Hint Resolve open_history_onward open_history_keeps_replies
  open_history_keeps_calls : extends_db.

Lemma batch_run (ev : event) (canceled : str) (prepare : M unit)
    (body : account -> tally -> M (tally * option error)) (count : Z)
    (w : world) :
  (forall acc t r, hoare (passing r) (body acc t) (one_turn ev acc t r)) ->
  (forall acc t, extends onward (body acc t)) ->
  extends (keeps replies) prepare -> extends onward prepare ->
  replies_pass w ->
  let r := batch ev canceled prepare body count w in
  fst (fst r) = slice_to count (user_clients w)
  /\ exists os,
       loop_run ev canceled (fst (fst r)) no_outcome w (fst (snd (fst r)))
         (snd (snd (fst r))) (snd r) os.
Proof.
  intros Hbody Honward Hprepare Hprepare' Hpass r. subst r. unfold batch.
  rewrite !bind_eq. cbn [ret get fst snd].
  split; [reflexivity|].
  set (w0 := snd (begin_batch (sender_id ev) w)).
  assert (Ho0 : onward w w0) by (split; reflexivity).
  set (w1 := snd (prepare w0)).
  assert (Ho1 : onward w w1) by (etransitivity; [exact Ho0|apply Hprepare']).
  assert (Hw1 : replies w1 = replies w).
  { subst w1. rewrite (replies_kept prepare _ Hprepare). reflexivity. }
  destruct (for_each_account_run ev canceled body Hbody Honward
              (slice_to count (user_clients w)) no_outcome w1
              (replies_pass_onward _ _ Ho1 Hpass))
    as (os & Hsel & Hos & Hrs & Hs & Hsl & Hfl & Hleft & Ho2).
  exists os. unfold loop_run. rewrite <- Hw1.
  set (w2 := snd (for_each_account ev canceled body
                    (slice_to count (user_clients w)) no_outcome w1)) in *.
  set (f := snd (fst (for_each_account ev canceled body
                        (slice_to count (user_clients w)) no_outcome w1))) in *.
  split; [exact Hsel|]. split; [exact Hos|]. split; [exact Hrs|].
  split; [exact Hs|]. split; [exact Hsl|]. split; [exact Hfl|].
  assert (Ho : onward w w2) by (etransitivity; eassumption).
  split.
  - destruct f as [|l|e l]; cbn in Hleft |- *; [exact I| |exact Hleft].
    destruct Hleft as [Hne Hfound]. split; [exact Hne|].
    destruct (found_set_onward _ _ _ Ho1 Hfound) as (n & Hn & Hset).
    exists n. split; [exact Hn|exact Hset].
  - destruct Ho as [He Ht]. split; [exact He|exact Ht].
Qed.

Lemma batch_trace (ev : event) (canceled : str) (prepare : M unit)
    (body : account -> tally -> M (tally * option error)) (count : Z)
    (w : world) :
  (forall acc t, extends (tells (names_account ev acc)) (body acc t)) ->
  (forall acc t, extends onward (body acc t)) ->
  extends (keeps replies) prepare -> extends onward prepare ->
  let r := batch ev canceled prepare body count w in
  fst (fst r) = slice_to count (user_clients w)
  /\ exists turns,
       loop_trace ev canceled (fst (fst r)) w (snd (snd (fst r))) (snd r) turns.
Proof.
  intros Hbody Honward Hprepare Hprepare' r. subst r. unfold batch.
  rewrite !bind_eq. cbn [ret get fst snd].
  split; [reflexivity|].
  set (w0 := snd (begin_batch (sender_id ev) w)).
  assert (Ho0 : onward w w0) by (split; reflexivity).
  set (w1 := snd (prepare w0)).
  assert (Ho1 : onward w w1) by (etransitivity; [exact Ho0|apply Hprepare']).
  assert (Hw1 : replies w1 = replies w).
  { subst w1. rewrite (replies_kept prepare _ Hprepare). reflexivity. }
  destruct (for_each_account_trace ev canceled body Hbody Honward
              (slice_to count (user_clients w)) no_outcome w1)
    as (turns & Hsel & Hturns & Ho2 & Hend).
  exists turns. unfold loop_trace.
  set (w2 := snd (for_each_account ev canceled body
                    (slice_to count (user_clients w)) no_outcome w1)) in *.
  set (f := snd (fst (for_each_account ev canceled body
                        (slice_to count (user_clients w)) no_outcome w1))) in *.
  assert (Ho : onward w w2) by (etransitivity; eassumption).
  split; [exact Hsel|]. split; [exact Hturns|].
  split; [destruct Ho as [He Ht]; split; [exact He|exact Ht]|].
  rewrite <- Hw1.
  destruct f as [|l|e l]; [exact Hend| |exact Hend].
  destruct Hend as (Hreplies & Hne & Hfound).
  split; [exact Hreplies|]. split; [exact Hne|].
  destruct (found_set_onward _ _ _ Ho1 Hfound) as (n & Hn & Hset).
  exists n. split; [exact Hn|exact Hset].
Qed.

Lemma executor_batch_run (R : runtime) (C : config) (x : executor)
    (ev : event) (count : Z) (link : str) (w : world) :
  replies_pass w ->
  let r := executor_batch R C x ev count link w in
  fst (fst r) = slice_to count (user_clients w)
  /\ exists os,
       loop_run ev (canceled_text x) (fst (fst r)) no_outcome w
         (fst (snd (fst r))) (snd (snd (fst r))) (snd r) os.
Proof.
  intros Hpass.
  destruct x; cbn [executor_batch canceled_text];
    unfold join_batch, leave_batch, react_batch, view_batch.
  - apply (batch_run ev join_canceled (ret tt) (join_body C ev count link)
             count w); auto with extends_db.
    + intros acc t r. apply join_body_one_turn.
    + intros acc t. apply join_body_onward.
  - apply (batch_run ev leave_canceled (ret tt) (leave_body ev link) count w);
      auto with extends_db.
    + intros acc t r. apply leave_body_one_turn.
    + intros acc t. apply leave_body_onward.
  - apply (batch_run ev react_canceled (open_history link)
             (react_body R C ev link) count w); auto with extends_db.
    + intros acc t r. apply react_body_one_turn.
    + intros acc t. apply react_body_onward.
  - apply (batch_run ev view_canceled (ret tt) (view_body R C ev link) count w);
      auto with extends_db.
    + intros acc t r. apply view_body_one_turn.
    + intros acc t. apply view_body_onward.
Qed.

Lemma executor_batch_trace (R : runtime) (C : config) (x : executor)
    (ev : event) (count : Z) (link : str) (w : world) :
  let r := executor_batch R C x ev count link w in
  fst (fst r) = slice_to count (user_clients w)
  /\ exists turns,
       loop_trace ev (canceled_text x) (fst (fst r)) w (snd (snd (fst r)))
         (snd r) turns.
Proof.
  destruct x; cbn [executor_batch canceled_text];
    unfold join_batch, leave_batch, react_batch, view_batch.
  - apply (batch_trace ev join_canceled (ret tt) (join_body C ev count link)
             count w); auto with extends_db.
    + intros acc t. apply join_body_tells.
    + intros acc t. apply join_body_onward.
  - apply (batch_trace ev leave_canceled (ret tt) (leave_body ev link) count w);
      auto with extends_db.
    + intros acc t. apply leave_body_tells.
    + intros acc t. apply leave_body_onward.
  - apply (batch_trace ev react_canceled (open_history link)
             (react_body R C ev link) count w); auto with extends_db.
    + intros acc t. apply react_body_tells.
    + intros acc t. apply react_body_onward.
  - apply (batch_trace ev view_canceled (ret tt) (view_body R C ev link) count w);
      auto with extends_db.
    + intros acc t. apply view_body_tells.
    + intros acc t. apply view_body_onward.
Qed.

(** ** Sample worlds *)

Definition sample_config : config :=
  {| EMOJIS := [lit "A"; lit "B"]; JOIN_DELAY := 1; LEAVE_DELAY := 1;
     REACT_DELAY := 1; VIEW_DELAY := 1 |}.

Definition first_account : account := (lit "+1000001", (1%nat, lit "s1")).
Definition second_account : account := (lit "+1000002", (2%nat, lit "s2")).
Definition third_account : account := (lit "+1000003", (3%nat, lit "s3")).

Definition pool : list account := [first_account; second_account; third_account].

(** A world with the three accounts and nothing else, under the
    environment [e]. *)
Definition world_of (e : nat -> answer) : world :=
  {| now := 0; tick := O; env := e; user_clients := pool;
     flood_wait_until := ∅; reaction_history := ∅; cancellation_events := ∅;
     user_states := ∅; known_users := ∅; replies := []; calls := [] |}.

(** The environment where every call succeeds at once and the [k]-th
    answer finds the cancellation event set. *)
Definition set_at (k : nat) : nat -> answer :=
  fun n =>
    if Nat.eqb n k then
      {| took := 0%N; raised := None; refused := None; payload := 0;
         name := []; flag := false; is_set := true; rand := O |}
    else quiet.

(** The environment where every request succeeds at once and the [k]-th
    answer, given to a call of [event.reply], is the exception [e]. *)
Definition refusing_at (k : nat) (e : error) : nat -> answer :=
  fun n =>
    if Nat.eqb n k then
      {| took := 0%N; raised := None; refused := Some e; payload := 0;
         name := []; flag := false; is_set := false; rand := O |}
    else quiet.

(** A world with the accounts and the conversations given and nothing
    else, under the environment [e]. *)
Definition world_with (accounts : list account)
    (states : gmap Z conversation) (e : nat -> answer) : world :=
  {| now := 0; tick := O; env := e; user_clients := accounts;
     flood_wait_until := ∅; reaction_history := ∅; cancellation_events := ∅;
     user_states := states; known_users := ∅; replies := []; calls := [] |}.

(** The operator, of identifier 7, and a message link. *)
Definition operator : event := {| sender_id := 7; text := [] |}.
Definition sample_link : str := lit "https://t.me/chan/5".


(** ** The flood clock *)

(** The wait-until timestamp of the account, if it has one, has passed. *)
Definition wait_passed (phone : str) (w : world) : Prop :=
  forall t, flood_wait_until w !! phone = Some t -> t <= now w.

(** The time at which the wait of [respect_flood_limit] is over. *)
Definition wait_over (phone : str) (w : world) : Z :=
  match flood_wait_until w !! phone with
  | Some t => Z.max (now w) t
  | None => now w
  end.

Lemma respect_flood_limit_spec (phone : str) (delay : Z) (w : world) :
  let w' := snd (respect_flood_limit phone delay w) in
  flood_wait_until w' = flood_wait_until w
  /\ calls w' = calls w
  /\ wait_over phone w + (if 0 <? delay then delay else 0) <= now w'
  /\ wait_passed phone w'.
Proof.
  intros w'. subst w'. unfold respect_flood_limit, loop_time, wait_passed,
    wait_over.
  rewrite !bind_eq. cbn [get fst snd].
  destruct (flood_wait_until w !! phone) as [t|] eqn:E;
    rewrite ?bind_eq; cbn [get fst snd];
    [destruct (Z.ltb_spec (now w) t) | ];
    destruct (Z.ltb_spec 0 delay);
    cbn; rewrite ?E; repeat split; try reflexivity; try lia;
    intros t0 Ht0; try discriminate Ht0; injection Ht0 as <-; lia.
Qed.


(** A world with the three accounts where the clock shows [t] and the
    flood map is [flood]. *)
Definition world_at (t : Z) (flood : gmap str Z) (e : nat -> answer) : world :=
  {| now := t; tick := O; env := e; user_clients := pool;
     flood_wait_until := flood; reaction_history := ∅;
     cancellation_events := ∅; user_states := ∅; known_users := ∅;
     replies := []; calls := [] |}.





(** ** Requests issued *)

(** The requests issued between the world [w] and a later world [w']. *)
Definition requests_since (w w' : world) : list request :=
  map call_request (drop (length (calls w)) (calls w')).

(** [issues P]: the log of requests grew by requests that satisfy [P]. *)
Definition issues (P : call -> Prop) (w w' : world) : Prop :=
  exists new, calls w' = calls w ++ new /\ Forall P new.

Global Instance issues_reflexive (P : call -> Prop) : Reflexive (issues P).
Proof. intros w. exists []. rewrite app_nil_r. split; [reflexivity|constructor]. Qed.

Global Instance issues_transitive (P : call -> Prop) : Transitive (issues P).
Proof.
  intros w1 w2 w3 (n1 & H1 & F1) (n2 & H2 & F2). exists (n1 ++ n2).
  rewrite H2, H1, app_assoc. split; [reflexivity|].
  apply Forall_app. split; assumption.
Qed.

Lemma keeps_calls_issues {A} (P : call -> Prop) (m : M A) :
  extends (keeps calls) m -> extends (issues P) m.
Proof.
  intros H w. exists []. rewrite app_nil_r. split; [exact (H w)|constructor].
Qed.

Lemma remote_issues (P : call -> Prop) (phone : str) (r : request) :
  (forall t o, P {| call_phone := phone; call_request := r; issued_at := t;
                    wait_until_then := o |}) ->
  extends (issues P) (remote phone r).
Proof.
  intros HP w. eexists. split; [reflexivity|].
  constructor; [apply HP|constructor].
Qed.


Lemma ensure_connected_loop_keeps_calls (n : nat) (d : Z) :
  extends (keeps calls) (ensure_connected_loop n d).
Proof.
  induction n as [|n IH]; cbn [ensure_connected_loop]; extends_auto.
Qed.

Lemma ensure_connected_keeps_calls (client : nat) (phone : str) :
  extends (keeps calls) (ensure_connected client phone).
Proof. apply ensure_connected_loop_keeps_calls. Qed.

Lemma respect_flood_limit_keeps_calls (phone : str) (d : Z) :
  extends (keeps calls) (respect_flood_limit phone d).
Proof. intros w. apply respect_flood_limit_spec. Qed.

Global Hint Resolve keeps_calls_issues ensure_connected_keeps_calls
  respect_flood_limit_keeps_calls : extends_db.

Lemma calls_kept {A} (m : M A) (w : world) :
  extends (keeps calls) m -> calls (snd (m w)) = calls w.
Proof. intros H. exact (H w). Qed.





(** The steps of a proof that a handler issues requests of a kind only:
    as for [extends_step], with the requests to be checked left as
    goals. *)
Ltac issues_step :=
  first
    [ match goal with
      | |- extends (issues _) (remote _ _) =>
          apply remote_issues; intros ? ?; cbn [call_request call_phone]
      end
    | extends_step ].

Ltac issues_auto := repeat issues_step.

Section Resolution.

Variable R : runtime.
Variable C : config.






End Resolution.





(** ** What a batch leaves alone *)

(** What the loop of an executor leaves alone: the environment, the
    registry, the conversations, the known users and the cancellation
    events. *)
Record loop_step (w w' : world) : Prop := {
  loop_env : env w' = env w;
  loop_clients : user_clients w' = user_clients w;
  loop_events : cancellation_events w' = cancellation_events w;
  loop_states : user_states w' = user_states w;
  loop_known : known_users w' = known_users w
}.

Global Instance loop_step_reflexive : Reflexive loop_step.
Proof. intros w. split; reflexivity. Qed.

Global Instance loop_step_transitive : Transitive loop_step.
Proof. intros w1 w2 w3 [] []. split; congruence. Qed.

Lemma quiet_loop_step {A} (m : M A) :
  extends quiet_step m -> extends loop_step m.
Proof. intros H w. destruct (H w). split; assumption. Qed.

Lemma reply_loop_step (ev : event) (message : str) :
  extends loop_step (reply ev message).
Proof. intros w. split; reflexivity. Qed.

Lemma get_loop_step {A} (f : world -> A) : extends loop_step (get f).
Proof. intros w. split; reflexivity. Qed.

Lemma set_used_emojis_loop_step (link phone : str) (used : gset str) :
  extends loop_step (set_used_emojis link phone used).
Proof. intros w. split; reflexivity. Qed.

Lemma open_history_loop_step (link : str) : extends loop_step (open_history link).
Proof.
  intros w. unfold open_history, modify. cbn [snd].
  destruct (reaction_history w !! link); split; reflexivity.
Qed.

Section Batch_frame.

Variable R : runtime.
Variable C : config.

Hint Resolve quiet_loop_step reply_loop_step get_loop_step
  set_used_emojis_loop_step open_history_loop_step : extends_db.

Lemma choose_emoji_loop_step (link phone : str) :
  extends loop_step (choose_emoji C link phone).
Proof. unfold choose_emoji, random_choice. extends_auto. Qed.

Hint Resolve choose_emoji_loop_step : extends_db.

Lemma join_body_loop_step (ev : event) (count : Z) (link : str) (acc : account)
    (t : tally) :
  extends loop_step (join_body C ev count link acc t).
Proof. unfold join_body. extends_auto. Qed.

Lemma leave_body_loop_step (ev : event) (link : str) (acc : account) (t : tally) :
  extends loop_step (leave_body ev link acc t).
Proof. unfold leave_body, leave_try, leave_failed. extends_auto. Qed.

Lemma react_body_loop_step (ev : event) (link : str) (acc : account) (t : tally) :
  extends loop_step (react_body R C ev link acc t).
Proof. unfold react_body. extends_auto. Qed.

Lemma view_body_loop_step (ev : event) (link : str) (acc : account) (t : tally) :
  extends loop_step (view_body R C ev link acc t).
Proof. unfold view_body, view_try, view_failed. extends_auto. Qed.

Lemma for_each_account_loop_step (ev : event) (canceled : str)
    (body : account -> tally -> M (tally * option error)) (selected : list account) :
  (forall acc t, extends loop_step (body acc t)) ->
  forall t, extends loop_step (for_each_account ev canceled body selected t).
Proof.
  intros Hbody. induction selected as [|acc rest IH]; intros t;
    cbn [for_each_account]; extends_auto.
Qed.

(** The world after a batch: the one of the loop, with the cancellation
    event of the operator removed. *)
Lemma batch_frame (ev : event) (canceled : str) (prepare : M unit)
    (body : account -> tally -> M (tally * option error)) (count : Z) (w : world) :
  (forall acc t, extends loop_step (body acc t)) ->
  extends loop_step prepare ->
  let w' := snd (batch ev canceled prepare body count w) in
  user_clients w' = user_clients w
  /\ user_states w' = user_states w
  /\ known_users w' = known_users w
  /\ cancellation_events w' = cancellation_events w ∖ {[sender_id ev]}.
Proof.
  intros Hbody Hprepare. unfold batch. rewrite !bind_eq. cbn [ret get fst snd].
  set (w0 := snd (begin_batch (sender_id ev) w)).
  set (w1 := snd (prepare w0)).
  pose proof (Hprepare w0) as H1. fold w1 in H1.
  pose proof (for_each_account_loop_step ev canceled body
                (slice_to count (user_clients w)) Hbody no_outcome w1) as H2.
  set (w2 := snd (for_each_account ev canceled body
                    (slice_to count (user_clients w)) no_outcome w1)) in *.
  destruct H1 as [_ Hc1 He1 Hs1 Hk1], H2 as [_ Hc2 He2 Hs2 Hk2].
  cbn [end_batch modify snd user_clients user_states known_users
       cancellation_events set_cancellation_events].
  rewrite Hc2, Hc1, Hs2, Hs1, Hk2, Hk1, He2, He1.
  subst w0. cbn. repeat split.
  apply set_eq. intros z.
  rewrite !elem_of_difference, elem_of_union, elem_of_singleton. tauto.
Qed.

Lemma executor_batch_frame (x : executor) (ev : event) (count : Z) (link : str)
    (w : world) :
  let w' := snd (executor_batch R C x ev count link w) in
  user_clients w' = user_clients w
  /\ user_states w' = user_states w
  /\ known_users w' = known_users w
  /\ cancellation_events w' = cancellation_events w ∖ {[sender_id ev]}.
Proof.
  destruct x; cbn [executor_batch];
    unfold join_batch, leave_batch, react_batch, view_batch.
  - apply (batch_frame ev join_canceled (ret tt) (join_body C ev count link) count w);
      [apply join_body_loop_step | intros ?; reflexivity].
  - apply (batch_frame ev leave_canceled (ret tt) (leave_body ev link) count w);
      [apply leave_body_loop_step | intros ?; reflexivity].
  - apply (batch_frame ev react_canceled (open_history link)
             (react_body R C ev link) count w);
      [apply react_body_loop_step | apply open_history_loop_step].
  - apply (batch_frame ev view_canceled (ret tt) (view_body R C ev link) count w);
      [apply view_body_loop_step | intros ?; reflexivity].
Qed.

End Batch_frame.

(** X4.  A batch of any of the four executors, however it ends, neither
    adds nor removes an account, and touches no conversation state and no
    known user. *)
Theorem batch_leaves_registry_and_conversations (R : runtime) (C : config)
    (x : executor) (ev : event) (count : Z) (link : str) (w : world) :
  let w' := snd (executor_batch R C x ev count link w) in
  user_clients w' = user_clients w
  /\ user_states w' = user_states w
  /\ known_users w' = known_users w.
Proof.
  intros w'. destruct (executor_batch_frame R C x ev count link w)
    as (Hc & Hs & Hk & _).
  repeat split; assumption.
Qed.

(** X5.  When a batch is over (run to its end or canceled) the
    cancellation event of its operator is no longer registered, whether or
    not one was registered before; the events of the other operators are
    the ones registered before. *)
Theorem batch_removes_its_cancellation_event (R : runtime) (C : config)
    (x : executor) (ev : event) (count : Z) (link : str) (w : world) :
  let w' := snd (executor_batch R C x ev count link w) in
  (sender_id ev ∉ cancellation_events w')
  /\ forall other, other <> sender_id ev ->
       (other ∈ cancellation_events w' <-> other ∈ cancellation_events w).
Proof.
  intros w'. destruct (executor_batch_frame R C x ev count link w)
    as (_ & _ & _ & He).
  fold w' in He. rewrite He. split.
  - rewrite elem_of_difference, elem_of_singleton. tauto.
  - intros other Hother. rewrite elem_of_difference, elem_of_singleton. tauto.
Qed.

(** ** The accounts a batch issues requests for *)

(** [for_account phone c]: the request [c] was issued on behalf of the
    account [phone]. *)
Definition for_account (phone : str) (c : call) : Prop := call_phone c = phone.

Lemma issues_weaken (P Q : call -> Prop) (w w' : world) :
  (forall c, P c -> Q c) -> issues P w w' -> issues Q w w'.
Proof.
  intros HPQ (new & Hnew & HP). exists new. split; [exact Hnew|].
  eapply Forall_impl; [exact HP|exact HPQ].
Qed.

Ltac for_account_auto := issues_auto; try reflexivity.

Section Requests_of_a_batch.

Variable R : runtime.
Variable C : config.

Lemma join_channel_for_account (client : nat) (link phone : str) :
  extends (issues (for_account phone)) (join_channel C client link phone).
Proof. unfold join_channel, get_entity_by_name. for_account_auto. Qed.

Hint Resolve join_channel_for_account : extends_db.

Lemma reaction_attempts_for_account (n client : nat) (chat_identifier : str)
    (chat message_id : Z) (phone emoji : str) :
  extends (issues (for_account phone))
    (reaction_attempts C n client chat_identifier chat message_id phone emoji).
Proof.
  induction n as [|n IH]; cbn [reaction_attempts]; for_account_auto.
Qed.

Hint Resolve reaction_attempts_for_account : extends_db.

Lemma send_reaction_for_account (client : nat) (link phone emoji : str) :
  extends (issues (for_account phone))
    (send_reaction R C client link phone emoji).
Proof.
  unfold send_reaction, resolve_for_reaction, get_entity_by_name.
  for_account_auto.
Qed.

Lemma send_view_for_account (client : nat) (link phone : str) :
  extends (issues (for_account phone)) (send_view R client link phone).
Proof. unfold send_view. for_account_auto. Qed.

Hint Resolve send_reaction_for_account send_view_for_account : extends_db.

Lemma join_body_for_account (ev : event) (count : Z) (link : str) (acc : account)
    (t : tally) :
  extends (issues (for_account (fst acc))) (join_body C ev count link acc t).
Proof. unfold join_body. for_account_auto. Qed.

Lemma leave_body_for_account (ev : event) (link : str) (acc : account)
    (t : tally) :
  extends (issues (for_account (fst acc))) (leave_body ev link acc t).
Proof. unfold leave_body, leave_try, leave_failed. for_account_auto. Qed.

Lemma react_body_for_account (ev : event) (link : str) (acc : account)
    (t : tally) :
  extends (issues (for_account (fst acc))) (react_body R C ev link acc t).
Proof. unfold react_body, choose_emoji, random_choice. for_account_auto. Qed.

Lemma view_body_for_account (ev : event) (link : str) (acc : account)
    (t : tally) :
  extends (issues (for_account (fst acc))) (view_body R C ev link acc t).
Proof. unfold view_body, view_try, view_failed. for_account_auto. Qed.

(** The requests of the loop are issued for the accounts it reached. *)
Lemma for_each_account_requests (ev : event) (canceled : str)
    (body : account -> tally -> M (tally * option error)) :
  (forall acc t, extends (issues (for_account (fst acc))) (body acc t)) ->
  forall selected t w,
    let r := for_each_account ev canceled body selected t w in
    exists reached,
      selected = reached ++ unreached (snd (fst r))
      /\ issues (fun c => call_phone c ∈ map fst reached) w (snd r).
Proof.
  intros Hbody selected. induction selected as [|acc rest IH]; intros t w r.
  - exists []. subst r. cbn. split; [reflexivity|]. reflexivity.
  - subst r. cbn [for_each_account]. rewrite bind_eq.
    destruct (is_set (fst (query w))) eqn:Eset.
    + exists []. rewrite bind_eq.
      assert (Hcalls : calls (snd (reply ev canceled (snd (query w)))) = calls w)
        by reflexivity.
      destruct (fst (reply ev canceled (snd (query w))));
        cbn [ret fst snd unreached app];
        (split; [reflexivity|]);
        exists []; rewrite app_nil_r; (split; [exact Hcalls|constructor]).
    + rewrite bind_eq. set (w1 := snd (query w)).
      pose proof (Hbody acc t w1) as Hacc.
      set (t2 := fst (fst (body acc t w1))) in *.
      set (e2 := snd (fst (body acc t w1))) in *.
      set (w2 := snd (body acc t w1)) in *.
      assert (H01 : forall reached,
                issues (fun c => call_phone c ∈ map fst (acc :: reached)) w w1).
      { intros reached. exists []. rewrite app_nil_r.
        split; [reflexivity|constructor]. }
      assert (H12 : forall reached,
                issues (fun c => call_phone c ∈ map fst (acc :: reached)) w1 w2).
      { intros reached. eapply issues_weaken; [|exact Hacc].
        intros c Hc. unfold for_account in Hc. rewrite Hc. cbn [map].
        apply elem_of_cons. left. reflexivity. }
      destruct e2 as [e|].
      * exists [acc]. cbn [ret fst snd unreached app].
        split; [reflexivity|].
        etransitivity; [apply H01|apply H12].
      * destruct (IH t2 w2) as (reached & Hsel & Hrest).
        exists (acc :: reached). split; [cbn; f_equal; exact Hsel|].
        etransitivity; [apply H01|]. etransitivity; [apply H12|].
        eapply issues_weaken; [|exact Hrest].
        intros c Hc. cbn [map]. apply elem_of_cons. right. exact Hc.
Qed.

Lemma batch_requests (ev : event) (canceled : str) (prepare : M unit)
    (body : account -> tally -> M (tally * option error)) (count : Z) (w : world) :
  (forall acc t, extends (issues (for_account (fst acc))) (body acc t)) ->
  extends (keeps calls) prepare ->
  let r := batch ev canceled prepare body count w in
  exists reached,
    fst (fst r) = reached ++ unreached (snd (snd (fst r)))
    /\ issues (fun c => call_phone c ∈ map fst reached) w (snd r).
Proof.
  intros Hbody Hprepare. unfold batch. rewrite !bind_eq. cbn [ret get fst snd].
  set (w1 := snd (prepare (snd (begin_batch (sender_id ev) w)))).
  assert (Hw1 : calls w1 = calls w).
  { subst w1. rewrite (calls_kept prepare _ Hprepare). reflexivity. }
  destruct (for_each_account_requests ev canceled body Hbody
              (slice_to count (user_clients w)) no_outcome w1)
    as (reached & Hsel & new & Hnew & Hfor).
  exists reached. split; [exact Hsel|].
  exists new. split; [|exact Hfor].
  rewrite <- Hw1. exact Hnew.
Qed.

Lemma executor_batch_requests (x : executor) (ev : event) (count : Z)
    (link : str) (w : world) :
  let r := executor_batch R C x ev count link w in
  exists reached,
    fst (fst r) = reached ++ unreached (snd (snd (fst r)))
    /\ issues (fun c => call_phone c ∈ map fst reached) w (snd r).
Proof.
  destruct x; cbn [executor_batch];
    unfold join_batch, leave_batch, react_batch, view_batch.
  - apply (batch_requests ev join_canceled (ret tt) (join_body C ev count link) count w);
      [apply join_body_for_account | intros ?; reflexivity].
  - apply (batch_requests ev leave_canceled (ret tt) (leave_body ev link) count w);
      [apply leave_body_for_account | intros ?; reflexivity].
  - apply (batch_requests ev react_canceled (open_history link)
             (react_body R C ev link) count w);
      [apply react_body_for_account |].
    intros w0. unfold open_history, modify, keeps. cbn.
    destruct (reaction_history w0 !! link); reflexivity.
  - apply (batch_requests ev view_canceled (ret tt) (view_body R C ev link) count w);
      [apply view_body_for_account | intros ?; reflexivity].
Qed.

End Requests_of_a_batch.

(** X6.  The requests a batch sends to the platform are issued on behalf
    of the accounts its loop reached: the accounts selected split into the
    ones reached and the ones a cancellation left unreached, and every
    request logged during the batch carries the phone of an account
    reached.  The older entries of the log are untouched. *)
Theorem batch_requests_only_for_reached_accounts (R : runtime) (C : config)
    (x : executor) (ev : event) (count : Z) (link : str) (w : world) :
  let r := executor_batch R C x ev count link w in
  exists reached new,
    slice_to count (user_clients w)
    = reached ++ unreached (snd (snd (fst r)))
    /\ calls (snd r) = calls w ++ new
    /\ Forall (fun c => call_phone c ∈ map fst reached) new.
Proof.
  intros r.
  destruct (executor_batch_requests R C x ev count link w)
    as (reached & Hsel & new & Hnew & Hfor).
  destruct (executor_batch_trace R C x ev count link w) as (Hslice & _).
  fold r in Hsel, Hnew, Hslice. exists reached, new.
  rewrite <- Hslice. auto.
Qed.


(** ** The counts of a batch *)

(** C5, at a failing input.  One account is selected for a view; the
    view is sent, and the reply that tells the operator so (bot.py, line
    899) raises a rate limit of 3 seconds.  The account was counted as a
    success at line 897; the [except] clause of line 905 appends it to
    [failed_list] as well, and its reply passes.  The loop runs to its
    end: one success, one failure and no account left unprocessed, for
    one account selected; the text returned lists the account twice. *)
Theorem view_counts_one_account_twice :
  let w := world_with [first_account] ∅ (refusing_at 5 (FloodWaitError 3)) in
  let r := executor_batch Ascii_runtime.R sample_config View operator 1
             sample_link w in
  let t := fst (snd (fst r)) in
  let f := snd (snd (fst r)) in
  fst (fst r) = [first_account]
  /\ f = ran_to_end
  /\ map snd (replies (snd r))
     = [lit "✅ Account +1000001 sent view to https://t.me/chan/5 successfully";
        lit "❌ Account +1000001 failed to send view to https://t.me/chan/5"]
  /\ success t = 1%nat
  /\ success_list t = [lit "✅ Account +1000001 sent view successfully"]
  /\ failed_list t = [lit "❌ Account +1000001 failed—FloodWaitError 3"]
  /\ (success t + length (failed_list t) + length (unreached f))%nat = 2%nat
  /\ length (fst (fst r)) = 1%nat
  /\ fst (process_view Ascii_runtime.R sample_config operator 1 sample_link w)
     = Returned (lit "👀 Successfully sent 1/1 views" ++ [newline]
                 ++ lit "✅ Account +1000001 sent view successfully" ++ [newline]
                 ++ lit "❌ Account +1000001 failed—FloodWaitError 3"
                 ++ [newline]).
Proof. vm_compute. repeat split. Qed.

(** The same reply raising in [process_join], which has no [try] around
    its replies: the exception leaves the batch after the first of two
    accounts, the second one being neither processed nor canceled. *)
Example join_left_by_a_reply :
  let w := world_of (refusing_at 6 (FloodWaitError 3)) in
  let r := executor_batch Ascii_runtime.R sample_config Join operator 2
             (lit "https://t.me/chan") w in
  let t := fst (snd (fst r)) in
  fst (fst r) = [first_account; second_account]
  /\ snd (snd (fst r)) = left_by (FloodWaitError 3) [second_account]
  /\ success t = 1%nat /\ failed_list t = []
  /\ map call_phone (calls (snd r)) = [lit "+1000001"; lit "+1000001"]
  /\ fst (process_join sample_config operator 2 (lit "https://t.me/chan") w)
     = Raised (FloodWaitError 3)
  /\ cancellation_events (snd r) = ∅.
Proof. vm_compute. repeat split. Qed.

(** ** Cancellation *)




(** ** Selection *)



(** *** The end of the login ([receive_code], bot.py, line 1071) *)

(** [user_clients[phone] = v]: the value of a key of the registry is
    replaced where it is, a new key comes last. *)
Definition registry_set (phone : str) (v : nat * str) (l : list account)
  : list account :=
  if bool_decide (phone ∈ map fst l) then
    map (fun a => if bool_decide (fst a = phone) then (phone, v) else a) l
  else l ++ [(phone, v)].

(** Writing the session file: the files are outside the world, whether
    the writing raises is an answer of the environment. *)
Definition write_session : M (option error) :=
  a <- ask ;; ret (raised a).

Section Login.

Variable R : runtime.

(** [session.save()], the text kept under [session_string] in the
    conversation, for the client of the login. *)
Variable session_string : nat -> str.

(** [code.isdigit()] *)
Definition all_digits (s : str) : bool :=
  match s with
  | [] => false
  | _ :: _ => forallb (isdigit R) s
  end.

(** The [try] block of [receive_code], lines 1097 to 1109. *)
Definition receive_code_try (ev : event) (client : nat) (phone : str)
    (phone_code_hash : Z) (code : str) : M (option error) :=
  a <- remote phone (SignInRequest phone code phone_code_hash) ;;
  match raised a with
  | Some e => ret (Some e)
  | None =>
      write_session ;;;
      (modify (fun w =>
         set_user_clients
           (registry_set phone (client, session_string client) (user_clients w))
           w) ;;
       reply ev (lit "✅ Account " ++ phone ++ lit " added successfully!") ;;;
       pop_and_return (sender_id ev))
  end.

Definition receive_code (ev : event) : M (option error) :=
  let user_id := sender_id ev in
  entry <- get (fun w => user_states w !! user_id) ;;
  match entry with
  | None =>
      reply ev (lit "❌ No active OTP session. Start again with /addaccount.")
  | Some c =>
      if negb (bool_decide (conv_state c = otp)) then
        reply ev (lit "❌ No active OTP session. Start again with /addaccount.")
      else
        let code := strip (isspace R) (text ev) in
        if negb (all_digits code) then
          reply ev (lit "❌ Invalid OTP. Please send a numeric code.")
        else
          match conv_client c, conv_phone c, conv_phone_code_hash c with
          | Some client, Some phone, Some phone_code_hash =>
              r <- receive_code_try ev client phone phone_code_hash code ;;
              match r with
              | None => ret None
              | Some SessionPasswordNeededError =>
                  t <- loop_time ;;
                  set_state user_id
                    {| conv_command := conv_command c; conv_state := password;
                       conv_timestamp := t; conv_count := conv_count c;
                       conv_phone := conv_phone c; conv_client := conv_client c;
                       conv_phone_code_hash := conv_phone_code_hash c |} ;;
                  reply ev (lit "🔒 This account has 2FA enabled. Please send your password:")
              | Some e =>
                  reply ev (lit "❌ Invalid OTP or error: " ++ str_of_error e
                            ++ lit ". Try again or press Cancel.")
              end
          | _, _, _ => ret (Some OtherError)
          end
  end.

End Login.





(** The scenario of the specification: a pool of three accounts and a
    join with a count of 2 on a public link; the first two accounts are
    processed, in the order of the registry, and the third one is not. *)
Example join_two_of_three :
  let r := process_join sample_config operator 2 (lit "https://t.me/chan")
             (world_of (fun _ => quiet)) in
  replies (snd r)
  = [(7, lit "✅ Account +1000001 joined channel https://t.me/chan successfully");
     (7, lit "✅ Account +1000002 joined channel https://t.me/chan successfully")]
  /\ map call_phone (calls (snd r))
     = [lit "+1000001"; lit "+1000001"; lit "+1000002"; lit "+1000002"]
  /\ fst r
     = Returned (lit "📜 Successfully joined 2/2 accounts" ++ [newline]
                 ++ lit "✅ Account +1000001 joined successfully" ++ [newline]
                 ++ lit "✅ Account +1000002 joined successfully" ++ [newline]).
Proof. vm_compute. repeat split. Qed.



(** ** The reaction ledger *)

(** The used-sets of the ledger hold glyphs of the alphabet only. *)
Definition history_ok (C : config) (w : world) : Prop :=
  forall link phone e, e ∈ used_emojis w link phone -> e ∈ EMOJIS C.

Lemma used_emojis_history (w w' : world) (link phone : str) :
  reaction_history w' = reaction_history w ->
  used_emojis w' link phone = used_emojis w link phone.
Proof. intros H. unfold used_emojis. rewrite H. reflexivity. Qed.

Lemma history_kept {A} (m : M A) (w : world) :
  extends (keeps reaction_history) m ->
  reaction_history (snd (m w)) = reaction_history w.
Proof. intros H. exact (H w). Qed.

Lemma used_emojis_set_same (link phone : str) (s : gset str) (w : world) :
  used_emojis (snd (set_used_emojis link phone s w)) link phone = s.
Proof.
  unfold used_emojis, set_used_emojis, modify. cbn.
  rewrite lookup_insert_eq. cbn. rewrite lookup_insert_eq. reflexivity.
Qed.

Lemma used_emojis_set_other (link phone l p : str) (s : gset str) (w : world) :
  (l, p) <> (link, phone) ->
  used_emojis (snd (set_used_emojis link phone s w)) l p = used_emojis w l p.
Proof.
  intros Hne. unfold used_emojis, set_used_emojis, modify. cbn.
  destruct (decide (link = l)) as [->|Hl].
  - rewrite lookup_insert_eq. cbn.
    rewrite lookup_insert_ne by congruence.
    destruct (reaction_history w !! l); reflexivity.
  - rewrite lookup_insert_ne by exact Hl. reflexivity.
Qed.

Lemma nth_mod_in (l : list str) (r : nat) :
  l <> [] -> nth (r mod length l) l [] ∈ l.
Proof.
  intros Hl. apply list_elem_of_In, nth_In.
  apply Nat.mod_upper_bound. destruct l; [congruence|cbn; lia].
Qed.

(** The glyphs of the alphabet that are not in [used], in the order of
    the alphabet. *)
Definition unused_of (C : config) (used : gset str) : list str :=
  List.filter (fun e => negb (bool_decide (e ∈ used))) (EMOJIS C).

Lemma unused_of_spec (C : config) (used : gset str) (e : str) :
  e ∈ unused_of C used <-> e ∈ EMOJIS C /\ e ∉ used.
Proof.
  unfold unused_of. rewrite !list_elem_of_In, filter_In, negb_true_iff,
    bool_decide_eq_false. reflexivity.
Qed.

Lemma unused_of_nil (C : config) (used : gset str) :
  (forall e, e ∈ used -> e ∈ EMOJIS C) ->
  unused_of C used = [] <-> used = list_to_set (EMOJIS C).
Proof.
  intros Hsub. split.
  - intros Hnil. apply set_eq. intros e. rewrite elem_of_list_to_set.
    split; [apply Hsub|]. intros He.
    destruct (decide (e ∈ used)) as [Hin|Hout]; [exact Hin|].
    assert (e ∈ unused_of C used) as Hu by (apply unused_of_spec; auto).
    rewrite Hnil in Hu. inversion Hu.
  - intros ->. destruct (unused_of C (list_to_set (EMOJIS C))) as [|e l] eqn:E;
      [reflexivity|].
    assert (e ∈ unused_of C (list_to_set (EMOJIS C))) as Hu
        by (rewrite E; left).
    apply unused_of_spec in Hu. destruct Hu as [He Hn].
    exfalso. apply Hn, elem_of_list_to_set, He.
Qed.

(** What [choose_emoji] does: the used-set of the pair is emptied when no
    glyph of the alphabet is left, the glyph is drawn among the glyphs
    left, and the used-sets of the other pairs stay. *)
Lemma choose_emoji_spec (C : config) (link phone : str) (w : world) :
  let used := used_emojis w link phone in
  let candidates :=
    match unused_of C used with [] => EMOJIS C | _ :: _ => unused_of C used end in
  let r := choose_emoji C link phone w in
  (exists draw, fst r = nth (draw mod length candidates) candidates [])
  /\ used_emojis (snd r) link phone
     = match unused_of C used with [] => ∅ | _ :: _ => used end
  /\ (forall l p, (l, p) <> (link, phone) ->
        used_emojis (snd r) l p = used_emojis w l p).
Proof.
  intros used candidates r. subst r. unfold choose_emoji.
  rewrite bind_eq. cbn [get fst snd].
  set (w1 := snd ((if bool_decide
                        (is_Some (reaction_history w !! link
                                  ≫= fun p => p !! phone))
                   then ret tt else set_used_emojis link phone ∅) w)).
  assert (Hsame : used_emojis w1 link phone = used).
  { subst w1 used. case_bool_decide as Hp; [reflexivity|].
    rewrite used_emojis_set_same. unfold used_emojis.
    destruct (reaction_history w !! link ≫= fun p => p !! phone) eqn:E;
      [exfalso; apply Hp; eauto | reflexivity]. }
  assert (Hother : forall l p, (l, p) <> (link, phone) ->
                     used_emojis w1 l p = used_emojis w l p).
  { intros l p Hne. subst w1. case_bool_decide; [reflexivity|].
    apply used_emojis_set_other, Hne. }
  rewrite bind_eq. fold w1. rewrite bind_eq. cbn [get fst snd].
  rewrite Hsame. fold (unused_of C used).
  subst candidates. destruct (unused_of C used) as [|e rest] eqn:Eu.
  - rewrite bind_eq. unfold random_choice. rewrite bind_eq. cbn [ret fst snd].
    split; [eexists; reflexivity|]. split.
    + rewrite (used_emojis_history (snd (set_used_emojis link phone ∅ w1)))
        by reflexivity.
      apply used_emojis_set_same.
    + intros l p Hne.
      rewrite (used_emojis_history (snd (set_used_emojis link phone ∅ w1)))
        by reflexivity.
      rewrite used_emojis_set_other by exact Hne. apply Hother, Hne.
  - unfold random_choice. rewrite bind_eq. cbn [ret fst snd].
    split; [eexists; reflexivity|]. split.
    + rewrite (used_emojis_history w1) by reflexivity. exact Hsame.
    + intros l p Hne. rewrite (used_emojis_history w1) by reflexivity.
      apply Hother, Hne.
Qed.

Lemma used_emojis_kept {A} (m : M A) (w : world) (link phone : str) :
  extends (keeps reaction_history) m ->
  used_emojis (snd (m w)) link phone = used_emojis w link phone.
Proof. intros H. apply used_emojis_history, (H w). Qed.

Lemma reply_keeps_history (ev : event) (message : str) :
  extends (keeps reaction_history) (reply ev message).
Proof. intros w. reflexivity. Qed.

Global Hint Resolve reply_keeps_history : extends_db.

Section Ledger.

Variable R : runtime.
Variable C : config.

(** [send_reaction] returns the glyph it was given, or nothing. *)
Lemma reaction_attempts_result (n client : nat) (chat_identifier : str)
    (chat message_id : Z) (phone emoji : str) (w : world) (e : str) :
  fst (reaction_attempts C n client chat_identifier chat message_id phone
         emoji w) = Some e ->
  e = emoji.
Proof.
  revert w. induction n as [|n IH]; intros w; cbn [reaction_attempts].
  - cbn. discriminate.
  - rewrite bind_eq.
    destruct (raised (fst (remote phone
                             (SendReactionRequest chat message_id emoji) w)))
      as [[]|]; rewrite ?bind_eq; try destruct n;
      rewrite ?bind_eq; cbn [ret fst snd];
      try discriminate; try apply IH.
    all: intros [= <-]; reflexivity.
Qed.

Lemma send_reaction_result (client : nat) (link phone emoji : str)
    (w : world) (e : str) :
  fst (send_reaction R C client link phone emoji w) = Some e -> e = emoji.
Proof.
  unfold send_reaction.
  repeat first
    [ rewrite bind_eq
    | match goal with
      | |- context [match ?x with _ => _ end] => destruct x eqn:?
      end ];
    cbn [ret fst snd]; try discriminate.
  apply reaction_attempts_result.
Qed.

(** The answer to the reply of a turn of [react_body] that is sent from
    the world [w]. *)
Definition reply_answer (w : world) : option error :=
  refused (env w (tick w)).

(** The used-sets after one turn of [react_body], from the ones left
    by [choose_emoji]: the glyph of a reaction that succeeded is added
    when the reply that tells of it passes. *)
Lemma react_body_history (ev : event) (link : str) (acc : account)
    (t : tally) (w : world) :
  let phone := fst acc in
  let pick := choose_emoji C link phone w in
  let sent := send_reaction R C (fst (snd acc)) link phone (fst pick)
                (snd pick) in
  let w' := snd (react_body R C ev link acc t w) in
  used_emojis w' link phone
  = match fst sent, reply_answer (snd sent) with
    | Some e, None =>
        if truthy e then {[e]} ∪ used_emojis (snd pick) link phone
        else used_emojis (snd pick) link phone
    | _, _ => used_emojis (snd pick) link phone
    end
  /\ (forall l p, (l, p) <> (link, phone) ->
        used_emojis w' l p = used_emojis (snd pick) l p).
Proof.
  intros phone pick sent w'. subst w'. unfold react_body.
  cbv zeta. fold phone. rewrite bind_eq. fold pick. rewrite bind_eq.
  fold sent.
  assert (Hsent : forall l p,
             used_emojis (snd sent) l p = used_emojis (snd pick) l p).
  { intros l p. subst sent. apply used_emojis_kept. eauto with extends_db. }
  assert (Hne_chain : forall (W : world) l p,
             used_emojis (snd (respect_flood_limit phone (REACT_DELAY C) W)) l p
             = used_emojis W l p)
    by (intros; apply used_emojis_kept; eauto with extends_db).
  assert (Hreply : forall message (W : world) l p,
             used_emojis (snd (reply ev message W)) l p = used_emojis W l p)
    by (intros; apply used_emojis_kept; eauto with extends_db).
  unfold reply_answer.
  destruct (fst sent) as [e|] eqn:Esent; [destruct (truthy e) eqn:Etruthy|];
    cbn [default]; unfold tell_then; rewrite bind_eq, reply_value;
    destruct (refused (env (snd sent) (tick (snd sent)))) as [err|];
    rewrite ?bind_eq; cbn [ret get fst snd];
    (split; [|intros l p Hne]);
    rewrite ?Hne_chain, ?used_emojis_set_same,
      ?(used_emojis_set_other _ _ _ _ _ _ Hne), Hreply, Hsent;
    reflexivity.
Qed.

(** The local variables and the exception after one turn of
    [react_body]. *)
Lemma react_body_counts (ev : event) (link : str) (acc : account)
    (t : tally) (w : world) :
  let phone := fst acc in
  let pick := choose_emoji C link phone w in
  let sent := send_reaction R C (fst (snd acc)) link phone (fst pick)
                (snd pick) in
  let after := fst (react_body R C ev link acc t w) in
  success (fst after)
  = match fst sent with
    | Some e => if truthy e then S (success t) else success t
    | None => success t
    end
  /\ snd after = reply_answer (snd sent).
Proof.
  intros phone pick sent after. subst after. unfold react_body. cbv zeta.
  fold phone. rewrite bind_eq. fold pick. rewrite bind_eq. fold sent.
  unfold reply_answer.
  destruct (fst sent) as [e|]; [destruct (truthy e)|];
    cbn [default]; unfold tell_then; rewrite bind_eq, reply_value;
    destruct (refused (env (snd sent) (tick (snd sent)))) as [err|];
    rewrite ?bind_eq; cbn [ret get fst snd]; split; reflexivity.
Qed.

End Ledger.

Section Ledger_claim.

Variable R : runtime.
Variable C : config.
Hypothesis HC : config_ok C.

Lemma picked_truthy (e : str) : e ∈ EMOJIS C -> truthy e = true.
Proof.
  intros He. pose proof (emojis_truthy C HC) as Hall.
  rewrite List.Forall_forall in Hall. apply Hall, list_elem_of_In, He.
Qed.

End Ledger_claim.

(** C1, at a failing input.  One account is selected for a reaction to
    the message [https://t.me/chan/5], the alphabet being [A], [B] and
    the ledger empty.  The glyph [A] is picked, the reaction is sent and
    answered without error, and the account is counted as a success; the
    reply that tells the operator so (bot.py, line 864) raises a rate
    limit of 3 seconds.  Nothing catches it: line 866 is not reached, the
    used-set of the pair stays empty although the account reacted with
    [A], and the executor raises.  The next reaction of the account to
    this message is with [A] again. *)
Theorem refused_reply_loses_the_glyph :
  let R := Ascii_runtime.R in
  let phone := lit "+1000001" in
  let w := world_with [first_account] ∅ (refusing_at 6 (FloodWaitError 3)) in
  let r := executor_batch R sample_config React operator 1 sample_link w in
  let t := fst (snd (fst r)) in
  let again := executor_batch R sample_config React operator 1 sample_link
                 (snd r) in
  requests_since w (snd r)
  = [GetEntity (ByName (lit "chan")); SendReactionRequest 0 5 (lit "A")]
  /\ map raised (map (env w) [4; 5]%nat) = [None; None]
  /\ success t = 1%nat
  /\ success_list t = [lit "✅ Account +1000001 reacted with A"]
  /\ failed_list t = []
  /\ replies (snd r)
     = [(7, lit "✅ Account +1000001 reacted to https://t.me/chan/5 with A")]
  /\ used_emojis w sample_link phone = ∅
  /\ used_emojis (snd r) sample_link phone = ∅
  /\ snd (snd (fst r)) = left_by (FloodWaitError 3) []
  /\ fst (process_react R sample_config operator 1 sample_link w)
     = Raised (FloodWaitError 3)
  /\ requests_since (snd r) (snd again)
     = [GetEntity (ByName (lit "chan")); SendReactionRequest 0 5 (lit "A")]
  /\ used_emojis (snd again) sample_link phone = {[lit "A"]}.
Proof.
  vm_compute. repeat split.
Qed.

(** ** The rotation of the glyphs *)

(** X13.  One turn of the loop of [process_react], for the account
    [acc] and the target [link], from a world whose ledger holds glyphs of
    the alphabet only: the glyph picked is of the alphabet; unless the
    used-set of the pair is the whole alphabet, the glyph is not in the
    used-set, which the pick leaves as it is; when the used-set is the
    whole alphabet, it is emptied and the glyph is drawn from the whole
    alphabet.  The reaction either succeeds with the glyph picked or
    fails.  When it succeeds and the reply that tells of it passes, the
    glyph is added to the used-set and the account is counted as a
    success; when that reply raises, the exception leaves the turn and the
    used-set is left as the pick left it; when the reaction fails, the
    used-set is left as the pick left it.  The ledger still holds glyphs
    of the alphabet only. *)
Theorem reaction_ledger_rotation (R : runtime) (C : config) (HC : config_ok C)
    (ev : event) (link : str) (acc : account) (t : tally) (w : world) :
  history_ok C w ->
  let phone := fst acc in
  let used := used_emojis w link phone in
  let alphabet : gset str := list_to_set (EMOJIS C) in
  let pick := choose_emoji C link phone w in
  let picked := fst pick in
  let sent := send_reaction R C (fst (snd acc)) link phone picked (snd pick) in
  let after := react_body R C ev link acc t w in
  picked ∈ EMOJIS C
  /\ (used <> alphabet ->
      (picked ∉ used) /\ used_emojis (snd pick) link phone = used)
  /\ (used = alphabet ->
      used_emojis (snd pick) link phone = ∅
      /\ exists draw, picked = nth (draw mod length (EMOJIS C)) (EMOJIS C) [])
  /\ (fst sent = Some picked \/ fst sent = None)
  /\ (fst sent = Some picked -> reply_answer (snd sent) = None ->
      used_emojis (snd after) link phone
      = {[picked]} ∪ used_emojis (snd pick) link phone
      /\ success (fst (fst after)) = S (success t)
      /\ snd (fst after) = None)
  /\ (fst sent = Some picked ->
      forall e, reply_answer (snd sent) = Some e ->
        used_emojis (snd after) link phone = used_emojis (snd pick) link phone
        /\ snd (fst after) = Some e)
  /\ (fst sent = None ->
      used_emojis (snd after) link phone = used_emojis (snd pick) link phone
      /\ success (fst (fst after)) = success t)
  /\ history_ok C (snd after).
Proof.
  intros Hok phone used alphabet pick picked sent after.
  destruct (choose_emoji_spec C link phone w) as ([draw Hdraw] & Hused & Hother).
  fold phone pick used in Hdraw, Hused, Hother. fold picked in Hdraw.
  destruct (react_body_history R C ev link acc t w) as [Hhere Helse].
  fold phone pick picked sent after in Hhere, Helse.
  destruct (react_body_counts R C ev link acc t w) as [Hsucc Hraise].
  fold phone pick picked sent after in Hsucc, Hraise.
  assert (Hsub : forall e, e ∈ used -> e ∈ EMOJIS C) by (intros e; apply Hok).
  pose proof (unused_of_nil C used Hsub) as Hnil. fold alphabet in Hnil.
  assert (Hpicked : picked ∈ EMOJIS C).
  { rewrite Hdraw. destruct (unused_of C used) as [|e rest] eqn:Eu.
    - apply nth_mod_in, (emojis_not_empty C HC).
    - assert (nth (draw mod length (e :: rest)) (e :: rest) []
              ∈ unused_of C used) as Hin
          by (rewrite Eu; apply nth_mod_in; discriminate).
      apply unused_of_spec in Hin. apply Hin. }
  pose proof (picked_truthy C HC picked Hpicked) as Htruthy.
  assert (Hsent : fst sent = Some picked \/ fst sent = None).
  { destruct (fst sent) as [e|] eqn:Esent; [left|right; reflexivity].
    f_equal. subst sent. apply (send_reaction_result R C _ _ _ _ _ _ Esent). }
  split; [exact Hpicked|].
  split.
  { intros Hne. destruct (unused_of C used) as [|e rest] eqn:Eu.
    - exfalso. apply Hne, Hnil. reflexivity.
    - split; [|exact Hused].
      assert (picked ∈ unused_of C used) as Hin
          by (rewrite Hdraw, Eu; apply nth_mod_in; discriminate).
      apply unused_of_spec in Hin. apply Hin. }
  split.
  { intros Heq. apply Hnil in Heq. rewrite Heq in Hused, Hdraw.
    split; [exact Hused|]. exists draw. exact Hdraw. }
  split; [exact Hsent|].
  split.
  { intros Hs Hr. rewrite Hs, Hr, Htruthy in Hhere. rewrite Hs, Htruthy in Hsucc.
    rewrite Hr in Hraise. repeat split; assumption. }
  split.
  { intros Hs e Hr. rewrite Hs, Hr in Hhere. rewrite Hr in Hraise.
    split; assumption. }
  split.
  { intros Hs. rewrite Hs in Hhere, Hsucc. split; assumption. }
  intros l p e He.
  destruct (decide ((l, p) = (link, phone))) as [[= -> ->]|Hne].
  - assert (Hpick_sub : forall e, e ∈ used_emojis (snd pick) link phone ->
                                  e ∈ EMOJIS C).
    { intros e0. rewrite Hused.
      destruct (unused_of C used); [intros H0; inversion H0 | apply Hsub]. }
    rewrite Hhere in He.
    destruct Hsent as [Hs|Hs]; rewrite Hs in He.
    + destruct (reply_answer (snd sent)); [apply Hpick_sub, He|].
      rewrite Htruthy in He. apply elem_of_union in He as [He|He].
      * apply elem_of_singleton in He. subst e. exact Hpicked.
      * apply Hpick_sub, He.
    + apply Hpick_sub, He.
  - rewrite (Helse l p Hne), (Hother l p Hne) in He. apply (Hok l p e He).
Qed.

Lemma sample_config_ok : config_ok sample_config.
Proof.
  split.
  - discriminate.
  - repeat constructor.
Qed.

Lemma empty_history_ok (C : config) (e : nat -> answer) :
  history_ok C (world_of e).
Proof.
  intros link phone g Hg. unfold used_emojis in Hg. cbn in Hg.
  rewrite lookup_empty in Hg. cbn in Hg. inversion Hg.
Qed.

(** A world with the three accounts where the first one has reacted to
    the sample message with the glyphs [used]. *)
Definition world_after_reactions (used : gset str) (e : nat -> answer) : world :=
  {| now := 0; tick := O; env := e; user_clients := pool;
     flood_wait_until := ∅;
     reaction_history := {[ sample_link := {[ lit "+1000001" := used ]} ]};
     cancellation_events := ∅; user_states := ∅; known_users := ∅;
     replies := []; calls := [] |}.

Lemma world_after_reactions_ok (C : config) (used : gset str)
    (e : nat -> answer) :
  (forall g, g ∈ used -> g ∈ EMOJIS C) ->
  history_ok C (world_after_reactions used e).
Proof.
  intros Hused link phone g Hg.
  unfold used_emojis, world_after_reactions in Hg.
  cbn [reaction_history] in Hg.
  destruct (decide (link = sample_link)) as [->|Hlink].
  - rewrite lookup_singleton_eq in Hg. cbn [mbind option_bind] in Hg.
    destruct (decide (phone = lit "+1000001")) as [->|Hphone].
    + rewrite lookup_singleton_eq in Hg. apply Hused, Hg.
    + rewrite lookup_singleton_ne in Hg by congruence. inversion Hg.
  - rewrite lookup_singleton_ne in Hg by congruence. inversion Hg.
Qed.

Lemma reaction_ledger_rotation_witness :
  let R := Ascii_runtime.R in
  let C := sample_config in
  let phone := lit "+1000001" in
  (let w := world_after_reactions {[ lit "A" ]} (fun _ => quiet) in
   let pick := choose_emoji C sample_link phone w in
   let after := react_body R C operator sample_link first_account no_outcome w in
   history_ok C w
   /\ used_emojis w sample_link phone = {[ lit "A" ]}
   /\ fst pick = lit "B"
   /\ (fst pick ∉ used_emojis w sample_link phone)
   /\ used_emojis (snd pick) sample_link phone
      = used_emojis w sample_link phone
   /\ used_emojis (snd after) sample_link phone
      = {[ fst pick ]} ∪ used_emojis (snd pick) sample_link phone
   /\ success (fst (fst after)) = 1%nat)
  /\ (let w := world_after_reactions {[ lit "A"; lit "B" ]} (fun _ => quiet) in
      let pick := choose_emoji C sample_link phone w in
      let after := react_body R C operator sample_link first_account
                     no_outcome w in
      history_ok C w
      /\ used_emojis w sample_link phone = list_to_set (EMOJIS C)
      /\ used_emojis (snd pick) sample_link phone = ∅
      /\ fst pick = lit "A"
      /\ used_emojis (snd after) sample_link phone
         = {[ fst pick ]} ∪ used_emojis (snd pick) sample_link phone).
Proof.
  intros R C phone.
  assert (HA : forall g : str, g ∈ ({[ lit "A" ]} : gset str) -> g ∈ EMOJIS C).
  { intros g Hg. apply elem_of_singleton in Hg. subst g. left. }
  assert (HAB : forall g : str,
             g ∈ ({[ lit "A"; lit "B" ]} : gset str) -> g ∈ EMOJIS C).
  { intros g Hg. apply elem_of_union in Hg as [Hg|Hg];
      apply elem_of_singleton in Hg; subst g; [left|right; left]. }
  split.
  - intros w pick after.
    pose proof (world_after_reactions_ok C _ (fun _ => quiet) HA) as Hok.
    destruct (reaction_ledger_rotation R C sample_config_ok operator sample_link
                first_account no_outcome w Hok)
      as (_ & Hfresh & _ & _ & Hadded & _).
    assert (Hused : used_emojis w sample_link phone = {[ lit "A" ]})
      by (vm_compute; reflexivity).
    assert (Hpick : fst pick = lit "B") by (vm_compute; reflexivity).
    destruct Hfresh as [Hnew Hkept].
    { intros Heq.
      change (used_emojis w sample_link phone = list_to_set (EMOJIS C)) in Heq.
      rewrite Hused in Heq.
      assert (Hin : lit "B" ∈ ({[ lit "A" ]} : gset str)).
      { rewrite Heq. apply elem_of_list_to_set. right. left. }
      apply elem_of_singleton in Hin. discriminate Hin. }
    destruct Hadded as (Hafter & Hsucc & _);
      [vm_compute; reflexivity | vm_compute; reflexivity |].
    split; [exact Hok|]. split; [exact Hused|]. split; [exact Hpick|].
    split; [exact Hnew|]. split; [exact Hkept|].
    split; [exact Hafter|exact Hsucc].
  - intros w pick after.
    pose proof (world_after_reactions_ok C _ (fun _ => quiet) HAB) as Hok.
    destruct (reaction_ledger_rotation R C sample_config_ok operator sample_link
                first_account no_outcome w Hok)
      as (_ & _ & Hreset & _ & Hadded & _).
    assert (Hused : used_emojis w sample_link phone = list_to_set (EMOJIS C))
      by (vm_compute; reflexivity).
    assert (Hpick : fst pick = lit "A") by (vm_compute; reflexivity).
    destruct (Hreset Hused) as [Hempty _].
    destruct Hadded as (Hafter & _);
      [vm_compute; reflexivity | vm_compute; reflexivity |].
    split; [exact Hok|]. split; [exact Hused|]. split; [exact Hempty|].
    split; [exact Hpick|exact Hafter].
Defined.

(** The scenario of the specification: the alphabet has two glyphs and
    an account reacts three times to the same target.  The second glyph
    is the other one; the third reaction finds both glyphs used, empties
    the used-set and picks again from the whole alphabet. *)
Example two_glyphs_three_reactions :
  let once := process_react Ascii_runtime.R sample_config operator 1 sample_link in
  let w1 := snd (once (world_of (fun _ => quiet))) in
  let w2 := snd (once w1) in
  let w3 := snd (once w2) in
  let phone := fst first_account in
  let glyphs := fun w : world =>
    List.filter (fun e => bool_decide (e ∈ used_emojis w sample_link phone))
      (EMOJIS sample_config) in
  glyphs w1 = [lit "A"]
  /\ glyphs w2 = [lit "A"; lit "B"]
  /\ glyphs w3 = [lit "A"]
  /\ map (fun c => call_request c)
       (List.filter (fun c => match call_request c with
                              | SendReactionRequest _ _ _ => true
                              | _ => false
                              end) (calls w3))
     = [SendReactionRequest 0 5 (lit "A"); SendReactionRequest 0 5 (lit "B");
        SendReactionRequest 0 5 (lit "A")].
Proof. vm_compute. repeat split. Qed.

(** ** Requests and the flood clock *)

(** A request was issued in time when the wait-until timestamp that the
    account had then, if any, had passed. *)
Definition call_ok (c : call) : Prop :=
  match wait_until_then c with
  | Some t => t <= issued_at c
  | None => True
  end.

(** Every request logged after the first [base] ones was issued in
    time. *)
Definition calls_ok (base : nat) (w : world) : Prop :=
  Forall call_ok (drop base (calls w)).

(** Every request logged after the first [base] ones was issued in time
    and the account may be used now. *)
Definition ready (base : nat) (phone : str) (w : world) : Prop :=
  calls_ok base w /\ wait_passed phone w.

(** Time passes and nothing else that matters to the flood clock. *)
Record steady (w w' : world) : Prop := {
  steady_calls : calls w' = calls w;
  steady_flood : flood_wait_until w' = flood_wait_until w;
  steady_now : now w <= now w'
}.

Global Instance steady_reflexive : Reflexive steady.
Proof. intros w. split; [reflexivity|reflexivity|lia]. Qed.

Global Instance steady_transitive : Transitive steady.
Proof. intros w1 w2 w3 [] []. split; [congruence|congruence|lia]. Qed.

Lemma steady_calls_ok (base : nat) (w w' : world) :
  steady w w' -> calls_ok base w -> calls_ok base w'.
Proof. intros [Hc _ _] H. unfold calls_ok. rewrite Hc. exact H. Qed.

Lemma steady_ready (base : nat) (phone : str) (w w' : world) :
  steady w w' -> ready base phone w -> ready base phone w'.
Proof.
  intros Hs [Hc Hp]. split; [exact (steady_calls_ok _ _ _ Hs Hc)|].
  destruct Hs as [_ Hf Hn]. intros t Ht. rewrite Hf in Ht.
  specialize (Hp t Ht). lia.
Qed.

Ltac steady_leaf := solve [intros ?; split; [reflexivity|reflexivity|cbn; lia]].

Lemma ask_steady : extends steady ask.
Proof. steady_leaf. Qed.

Lemma query_steady : extends steady query.
Proof. steady_leaf. Qed.

Lemma sleep_steady (d : Z) : extends steady (sleep d).
Proof. steady_leaf. Qed.

Lemma reply_steady (ev : event) (message : str) : extends steady (reply ev message).
Proof. steady_leaf. Qed.

Lemma get_steady {A} (f : world -> A) : extends steady (get f).
Proof. steady_leaf. Qed.

Lemma set_used_emojis_steady (link phone : str) (s : gset str) :
  extends steady (set_used_emojis link phone s).
Proof. steady_leaf. Qed.

Lemma begin_batch_steady (owner : Z) : extends steady (begin_batch owner).
Proof. steady_leaf. Qed.

Lemma end_batch_steady (owner : Z) : extends steady (end_batch owner).
Proof. steady_leaf. Qed.

Lemma open_history_steady (link : str) : extends steady (open_history link).
Proof.
  intros w. unfold open_history, modify. cbn.
  destruct (reaction_history w !! link); split; try reflexivity; cbn; lia.
Qed.

Global Hint Resolve ask_steady query_steady sleep_steady reply_steady
  get_steady set_used_emojis_steady begin_batch_steady end_batch_steady
  open_history_steady : extends_db.

Lemma ensure_connected_loop_steady (n : nat) (d : Z) :
  extends steady (ensure_connected_loop n d).
Proof.
  induction n as [|n IH]; cbn [ensure_connected_loop]; extends_auto.
Qed.

Lemma ensure_connected_steady (client : nat) (phone : str) :
  extends steady (ensure_connected client phone).
Proof. apply ensure_connected_loop_steady. Qed.

Lemma respect_flood_limit_steady (phone : str) (d : Z) :
  extends steady (respect_flood_limit phone d).
Proof.
  intros w. destruct (respect_flood_limit_spec phone d w) as (Hf & Hc & Hn & _).
  split; [exact Hc|exact Hf|].
  unfold wait_over in Hn.
  destruct (flood_wait_until w !! phone); destruct (0 <? d) eqn:E; try lia;
    apply Z.ltb_lt in E; lia.
Qed.

Lemma choose_emoji_steady (C : config) (link phone : str) :
  extends steady (choose_emoji C link phone).
Proof. unfold choose_emoji, random_choice. extends_auto. Qed.

Global Hint Resolve ensure_connected_steady respect_flood_limit_steady
  choose_emoji_steady : extends_db.

Lemma steady_keeps_calls_ok {A} (base : nat) (m : M A) :
  extends steady m -> hoare (calls_ok base) m (fun _ => calls_ok base).
Proof.
  intros H. apply (extends_hoare steady); [exact H|].
  intros w w'. apply steady_calls_ok.
Qed.

Lemma Forall_drop_snoc {A} (P : A -> Prop) (n : nat) (l : list A) (x : A) :
  Forall P (drop n l) -> P x -> Forall P (drop n (l ++ [x])).
Proof.
  intros Hl Hx. rewrite drop_app. apply Forall_app. split; [exact Hl|].
  apply Forall_drop. constructor; [exact Hx|constructor].
Qed.

Lemma steady_keeps_ready {A} (base : nat) (m : M A) (phone : str) :
  extends steady m -> hoare (ready base phone) m (fun _ => ready base phone).
Proof.
  intros H. apply (extends_hoare steady); [exact H|].
  intros w w'. apply steady_ready.
Qed.

Lemma remote_ready (base : nat) (phone : str) (r : request) :
  hoare (ready base phone) (remote phone r) (fun _ => ready base phone).
Proof.
  intros w [Hc Hp]. split.
  - unfold calls_ok. cbn. apply Forall_drop_snoc; [exact Hc|].
    unfold call_ok. cbn.
    destruct (flood_wait_until w !! phone) as [t|] eqn:E; [|exact I].
    apply Hp, E.
  - intros t Ht. cbn in Ht. specialize (Hp t Ht). cbn. lia.
Qed.

Lemma register_flood_wait_calls_ok (base : nat) (phone : str) (s : Z) :
  hoare (calls_ok base) (register_flood_wait phone s) (fun _ => calls_ok base).
Proof. intros w H. exact H. Qed.

Lemma respect_flood_limit_ready (base : nat) (phone : str) (d : Z) :
  hoare (calls_ok base) (respect_flood_limit phone d) (fun _ => ready base phone).
Proof.
  intros w H.
  destruct (respect_flood_limit_spec phone d w) as (_ & Hc & _ & Hp).
  split; [|exact Hp]. unfold calls_ok. rewrite Hc. exact H.
Qed.

(** After a rate limit was registered, sleeping for its time makes the
    account usable again. *)
Lemma register_then_sleep_ready (base : nat) (phone : str) (s : Z) :
  hoare (calls_ok base) (register_flood_wait phone s ;; sleep s) (fun _ => ready base phone).
Proof.
  intros w H. split; [exact H|].
  intros t Ht. cbn in Ht. rewrite lookup_insert_eq in Ht.
  injection Ht as <-. cbn. lia.
Qed.

Lemma hoare_assoc {A B D} (P : world -> Prop) (m : M A) (k : A -> M B)
    (k' : B -> M D) (Q : D -> world -> Prop) :
  hoare P (a <- m ;; b <- k a ;; k' b) Q ->
  hoare P (b <- (a <- m ;; k a) ;; k' b) Q.
Proof.
  intros H w Hw. specialize (H w Hw). rewrite !bind_eq in *. exact H.
Qed.

(** The steps of a proof that a handler keeps [calls_ok] or [ready]. *)
Create HintDb hoare_db.

Ltac hoare_leaf :=
  first
    [ apply remote_ready
    | apply respect_flood_limit_ready
    | apply register_flood_wait_calls_ok
    | apply steady_keeps_ready; solve [eauto with extends_db]
    | apply steady_keeps_calls_ok; solve [eauto with extends_db]
    | solve [eauto with hoare_db] ].

Ltac hoare_close :=
  match goal with
  | H : ?P ?w |- ?Q ?w => first [exact H | exact (proj1 H)]
  | H : ready _ _ ?w |- calls_ok _ ?w => exact (proj1 H)
  end.

Ltac hoare_step :=
  match goal with
  | |- hoare _ (ret _) _ => apply hoare_ret; intros ? ?; hoare_close
  | |- hoare _ (bind (bind _ _) _) _ => apply hoare_assoc
  | |- hoare _ (bind _ _) _ =>
      eapply hoare_bind;
        [ first [ hoare_leaf
                | eapply hoare_weaken;
                    [ hoare_leaf
                    | intros ? ?; hoare_close
                    | intros ? ? ?; eassumption ] ]
        | intros ? ]
  | |- hoare _ (tell_then _ _ _ _) _ => unfold tell_then
  | |- hoare _ (and_then _ _) _ => unfold and_then
  | |- hoare _ (match ?x with _ => _ end) _ => destruct x
  | |- hoare _ (let _ := _ in _) _ => cbv zeta
  | |- hoare _ _ _ =>
      first [ hoare_leaf
            | eapply hoare_weaken;
                [ hoare_leaf
                | intros ? ?; hoare_close
                | intros ? ? ?; hoare_close ] ]
  end.

Ltac hoare_auto := repeat hoare_step.

Section Calls_in_time.

Variable R : runtime.
Variable C : config.
Variable base : nat.

Lemma get_entity_by_name_ready (phone name : str) :
  hoare (ready base phone) (get_entity_by_name phone name) (fun _ => ready base phone).
Proof. unfold get_entity_by_name. hoare_auto. Qed.

Hint Resolve get_entity_by_name_ready : hoare_db.

Lemma join_channel_calls_ok (client : nat) (link phone : str) :
  hoare (calls_ok base) (join_channel C client link phone) (fun _ => calls_ok base).
Proof. unfold join_channel. hoare_auto. Qed.

Lemma join_channel_ready (client : nat) (link phone : str) :
  startswith link (lit "https://t.me/+") = false ->
  hoare (ready base phone) (join_channel C client link phone)
    (fun _ => ready base phone).
Proof. intros Hpublic. unfold join_channel. rewrite Hpublic. hoare_auto. Qed.

Lemma resolve_for_reaction_ready (chat phone : str) :
  hoare (ready base phone) (resolve_for_reaction R chat phone)
    (fun _ => ready base phone).
Proof. unfold resolve_for_reaction. hoare_auto. Qed.

End Calls_in_time.

(** *** The chat of a message link

    In Python ['+'] is neither a word character nor a decimal digit, so
    that the chat of a message link never begins with it: the link that
    [send_reaction] hands to [join_channel] is a public one. *)
Record link_classes_ok (R : runtime) : Prop := {
  plus_not_word : is_word R plus_sign = false;
  plus_not_decimal : is_decimal R plus_sign = false
}.

Lemma ascii_link_classes_ok : link_classes_ok Ascii_runtime.R.
Proof. split; reflexivity. Qed.

Lemma first_some_Some {A B} (f : A -> option B) (l : list A) (y : B) :
  first_some f l = Some y -> exists x, In x l /\ f x = Some y.
Proof.
  induction l as [|x l IH]; cbn; [discriminate|].
  destruct (f x) as [y'|] eqn:E.
  - intros [= <-]. exists x. auto.
  - intros H. destruct (IH H) as (x' & Hin & Hx'). exists x'. auto.
Qed.

Lemma startswith_app_both (p s q : str) :
  startswith (p ++ s) (p ++ q) = startswith s q.
Proof.
  induction p as [|c p IH]; [reflexivity|].
  cbn. rewrite N.eqb_refl. exact IH.
Qed.

Section Chat_of_a_link.

Variable R : runtime.
Hypothesis HR : link_classes_ok R.

Lemma run_then_tail_head (p : char -> bool) (s g d : str) :
  run_then_tail R p s = Some (g, d) ->
  exists c rest, g = c :: rest /\ p c = true.
Proof.
  unfold run_then_tail. intros H.
  apply first_some_Some in H as (k & Hk & Hf).
  apply in_rev, in_seq in Hk.
  destruct (tail_match R (drop k s)) as [ds|]; [|discriminate].
  cbn in Hf. injection Hf as <- <-.
  destruct s as [|c s']; [cbn in Hk; lia|].
  cbn [takewhile] in Hk. destruct (p c) eqn:Ec; [|cbn in Hk; lia].
  destruct k as [|k]; [lia|]. exists c, (take k s'). auto.
Qed.

Lemma not_plus_head (p : char -> bool) (g : str) :
  p plus_sign = false ->
  (exists c rest, g = c :: rest /\ p c = true) ->
  startswith g [plus_sign] = false.
Proof.
  intros Hp (c & rest & -> & Hc). cbn [startswith].
  destruct (N.eqb_spec plus_sign c) as [<-|_]; [congruence|reflexivity].
Qed.

Lemma is_chat_char_plus : is_chat_char R plus_sign = false.
Proof.
  unfold is_chat_char.
  rewrite (plus_not_word R HR), (plus_not_decimal R HR). reflexivity.
Qed.

Lemma chat_and_id_match_head (s g d : str) :
  chat_and_id_match R s = Some (g, d) -> startswith g [plus_sign] = false.
Proof.
  unfold chat_and_id_match.
  assert (Hbare : forall g d, run_then_tail R (is_chat_char R) s = Some (g, d) ->
                              startswith g [plus_sign] = false).
  { intros g0 d0 H. apply (not_plus_head (is_chat_char R));
      [apply is_chat_char_plus|apply (run_then_tail_head _ _ _ _ H)]. }
  assert (Hdec : forall g d, run_then_tail R (is_decimal R) s = Some (g, d) ->
                             startswith g [plus_sign] = false).
  { intros g0 d0 H. apply (not_plus_head (is_decimal R));
      [apply (plus_not_decimal R HR)|apply (run_then_tail_head _ _ _ _ H)]. }
  destruct s as [|c s'].
  - intros H. apply (Hdec _ _ H).
  - destruct (c =? at_sign)%N.
    + destruct (run_then_tail R (is_chat_char R) s') as [[name ds]|].
      * intros [= <- <-]. reflexivity.
      * destruct (run_then_tail R (is_chat_char R) (c :: s')) as [[g0 d0]|] eqn:E.
        -- intros [= <- <-]. apply (Hbare _ _ eq_refl).
        -- intros H. apply (Hdec _ _ H).
    + destruct (run_then_tail R (is_chat_char R) (c :: s')) as [[g0 d0]|] eqn:E.
      * intros [= <- <-]. apply (Hbare _ _ eq_refl).
      * intros H. apply (Hdec _ _ H).
Qed.

Lemma extract_message_info_public (link chat : str) (message_id : Z) :
  extract_message_info R link = Some (chat, message_id) ->
  startswith (lit "https://t.me/" ++ chat) (lit "https://t.me/+") = false.
Proof.
  intros H.
  change (lit "https://t.me/+") with (lit "https://t.me/" ++ [plus_sign]).
  rewrite startswith_app_both.
  unfold extract_message_info in H.
  destruct (message_link_match R link) as [[[prefix g] ds]|] eqn:Em;
    [|discriminate].
  injection H as <- _.
  destruct (eqb prefix (lit "c/")); [reflexivity|].
  unfold message_link_match in Em.
  destruct (startswith link (lit "https://t.me/")); [|discriminate].
  destruct (startswith (drop 13 link) (lit "c/")).
  - destruct (chat_and_id_match R (drop 2 (drop 13 link))) as [[g0 d0]|] eqn:E1.
    + cbn in Em. injection Em as <- <- <-.
      apply (chat_and_id_match_head _ _ _ E1).
    + cbn in Em.
      destruct (chat_and_id_match R (drop 13 link)) as [[g0 d0]|] eqn:E2;
        [|discriminate].
      cbn in Em. injection Em as <- <- <-.
      apply (chat_and_id_match_head _ _ _ E2).
  - destruct (chat_and_id_match R (drop 13 link)) as [[g0 d0]|] eqn:E2;
      [|discriminate].
    cbn in Em. injection Em as <- <- <-.
    apply (chat_and_id_match_head _ _ _ E2).
Qed.

End Chat_of_a_link.

Section Executors_in_time.

Variable R : runtime.
Variable C : config.
Hypothesis HR : link_classes_ok R.
Variable base : nat.

Hint Resolve get_entity_by_name_ready join_channel_calls_ok
  resolve_for_reaction_ready : hoare_db.

(** The [except FloodWaitError] clause of the retry loop: the rate
    limit is registered and slept through before [k] goes on. *)
Lemma flood_wait_retry {A} (phone : str) (seconds : Z) (k : M A) :
  hoare (ready base phone) k (fun _ => calls_ok base) ->
  hoare (ready base phone)
    (draw <- query ;;
     register_flood_wait phone (seconds + Z.of_nat (rand draw mod 3)) ;;
     sleep (seconds + Z.of_nat (rand draw mod 3)) ;;
     k)
    (fun _ => calls_ok base).
Proof.
  intros Hk.
  eapply hoare_bind; [apply steady_keeps_ready, query_steady|intros draw].
  eapply hoare_bind with
    (Q := fun _ w =>
            calls_ok base w
            /\ exists t0, flood_wait_until w !! phone
                          = Some (t0 + (seconds + Z.of_nat (rand draw mod 3)))
                          /\ t0 <= now w).
  { intros w [Hc _]. split; [exact Hc|]. exists (now w). cbn.
    rewrite lookup_insert_eq. split; [reflexivity|lia]. }
  intros _.
  eapply hoare_bind with (Q := fun _ => ready base phone); [|intros _; exact Hk].
  intros w (Hc & t0 & Hf & Ht0). split; [exact Hc|].
  intros t Ht. cbn in Ht. rewrite Hf in Ht. injection Ht as <-. cbn. lia.
Qed.

Lemma reaction_attempts_calls_ok (n client : nat) (chat_identifier : str)
    (chat message_id : Z) (phone emoji : str) :
  startswith (lit "https://t.me/" ++ chat_identifier) (lit "https://t.me/+")
  = false ->
  hoare (ready base phone)
    (reaction_attempts C n client chat_identifier chat message_id phone emoji)
    (fun _ => calls_ok base).
Proof.
  intros Hpublic.
  pose proof (join_channel_ready C base client _ phone Hpublic) as Hjoin.
  induction n as [|n IH]; cbn [reaction_attempts].
  - hoare_auto.
  - repeat first
      [ match goal with
        | |- hoare _ (bind query _) _ => apply flood_wait_retry
        end
      | hoare_step ].
Qed.

Lemma send_reaction_calls_ok (client : nat) (link phone emoji : str) :
  hoare (calls_ok base) (send_reaction R C client link phone emoji)
    (fun _ => calls_ok base).
Proof.
  unfold send_reaction.
  destruct (extract_message_info R link) as [[chat message_id]|] eqn:E;
    [|hoare_auto].
  pose proof (reaction_attempts_calls_ok 3 client chat) as Hloop.
  specialize (fun ch => Hloop ch message_id phone emoji
                          (extract_message_info_public R HR _ _ _ E)).
  hoare_auto.
Qed.

Lemma send_view_calls_ok (client : nat) (link phone : str) :
  hoare (calls_ok base) (send_view R client link phone) (fun _ => calls_ok base).
Proof. unfold send_view. hoare_auto. Qed.

Hint Resolve send_reaction_calls_ok send_view_calls_ok : hoare_db.

Lemma join_body_calls_ok (ev : event) (count : Z) (link : str) (acc : account)
    (t : tally) :
  hoare (calls_ok base) (join_body C ev count link acc t)
    (fun _ => calls_ok base).
Proof. unfold join_body. hoare_auto. Qed.

Lemma leave_failed_calls_ok (ev : event) (link phone : str) (e : error)
    (t : tally) :
  hoare (calls_ok base) (leave_failed ev link phone e t)
    (fun _ => calls_ok base).
Proof. unfold leave_failed. hoare_auto. Qed.

Lemma leave_try_calls_ok (ev : event) (link : str) (acc : account)
    (t : tally) :
  hoare (calls_ok base) (leave_try ev link acc t) (fun _ => calls_ok base).
Proof. unfold leave_try. hoare_auto. Qed.

Lemma leave_body_calls_ok (ev : event) (link : str) (acc : account)
    (t : tally) :
  hoare (calls_ok base) (leave_body ev link acc t) (fun _ => calls_ok base).
Proof.
  unfold leave_body.
  eapply hoare_bind; [apply leave_try_calls_ok|intros r].
  destruct (snd r); [apply leave_failed_calls_ok|hoare_auto].
Qed.

Lemma react_body_calls_ok (ev : event) (link : str) (acc : account)
    (t : tally) :
  hoare (calls_ok base) (react_body R C ev link acc t)
    (fun _ => calls_ok base).
Proof.
  unfold react_body. cbv zeta.
  eapply hoare_bind;
    [apply steady_keeps_calls_ok; eauto with extends_db|intros e].
  eapply hoare_bind; [apply send_reaction_calls_ok|intros sent].
  hoare_auto.
Qed.

Lemma view_try_calls_ok (ev : event) (link : str) (acc : account)
    (t : tally) :
  hoare (calls_ok base) (view_try R C ev link acc t) (fun _ => calls_ok base).
Proof.
  unfold view_try. cbv zeta.
  eapply hoare_bind; [apply send_view_calls_ok|intros sent].
  hoare_auto.
Qed.

Lemma view_body_calls_ok (ev : event) (link : str) (acc : account)
    (t : tally) :
  hoare (calls_ok base) (view_body R C ev link acc t)
    (fun _ => calls_ok base).
Proof.
  unfold view_body.
  eapply hoare_bind; [apply view_try_calls_ok|intros r].
  destruct (snd r); [unfold view_failed|]; hoare_auto.
Qed.

Lemma for_each_account_calls_ok (ev : event) (canceled : str)
    (body : account -> tally -> M (tally * option error))
    (selected : list account) :
  (forall acc t, hoare (calls_ok base) (body acc t) (fun _ => calls_ok base)) ->
  forall t,
    hoare (calls_ok base) (for_each_account ev canceled body selected t)
      (fun _ => calls_ok base).
Proof.
  intros Hbody. induction selected as [|acc rest IH]; intros t;
    cbn [for_each_account]; hoare_auto.
Qed.

Lemma batch_calls_ok (ev : event) (canceled : str) (prepare : M unit)
    (body : account -> tally -> M (tally * option error)) (count : Z) :
  extends steady prepare ->
  (forall acc t, hoare (calls_ok base) (body acc t) (fun _ => calls_ok base)) ->
  hoare (calls_ok base) (batch ev canceled prepare body count)
    (fun _ => calls_ok base).
Proof.
  intros Hprepare Hbody. unfold batch.
  pose proof (fun selected =>
                for_each_account_calls_ok ev canceled body selected Hbody)
    as Hloop.
  hoare_auto.
Qed.

Lemma executor_batch_calls_ok (x : executor) (ev : event) (count : Z)
    (link : str) :
  hoare (calls_ok base) (executor_batch R C x ev count link)
    (fun _ => calls_ok base).
Proof.
  destruct x; cbn [executor_batch];
    unfold join_batch, leave_batch, react_batch, view_batch.
  - apply (batch_calls_ok ev join_canceled (ret tt)
             (join_body C ev count link) count);
      [apply extends_ret; typeclasses eauto|].
    intros acc t. apply join_body_calls_ok.
  - apply (batch_calls_ok ev leave_canceled (ret tt) (leave_body ev link) count);
      [apply extends_ret; typeclasses eauto|].
    intros acc t. apply leave_body_calls_ok.
  - apply (batch_calls_ok ev react_canceled (open_history link)
             (react_body R C ev link) count);
      [apply open_history_steady|].
    intros acc t. apply react_body_calls_ok.
  - apply (batch_calls_ok ev view_canceled (ret tt) (view_body R C ev link) count);
      [apply extends_ret; typeclasses eauto|].
    intros acc t. apply view_body_calls_ok.
Qed.

End Executors_in_time.

(** The requests a batch adds to the log were all issued in time,
    whatever the log held before. *)
Lemma executor_batch_issues_in_time (R : runtime) (C : config)
    (HR : link_classes_ok R) (x : executor) (ev : event) (count : Z)
    (link : str) (w : world) :
  issues call_ok w (snd (executor_batch R C x ev count link w)).
Proof.
  destruct (executor_batch_requests R C x ev count link w)
    as (reached & _ & new & Hnew & _).
  exists new. split; [exact Hnew|].
  pose proof (executor_batch_calls_ok R C HR (length (calls w)) x ev count
                link w) as H.
  unfold calls_ok in H. rewrite Hnew, drop_app_length in H. apply H.
  rewrite drop_all. constructor.
Qed.

(** C3, as the code has it.  [respect_flood_limit] returns once the
    wait-until timestamp of the account has passed, and not before the
    delay it was given, when one is given, has passed too; it changes
    neither the flood map nor the log of requests.  In the four batch
    executors every request to the platform (resolving an entity, joining,
    leaving, reacting, viewing) is issued when the wait-until timestamp
    that its account has at that moment has passed: whatever the log of
    requests holds when a batch starts, the batch only appends to it, and
    every entry it appends was issued in time.  The batch is followed here
    as the one task that writes the flood map while it runs. *)
Theorem executors_wait_for_the_flood_clock (R : runtime) (C : config)
    (HR : link_classes_ok R) :
  (forall (phone : str) (delay : Z) (w : world),
      let w' := snd (respect_flood_limit phone delay w) in
      wait_passed phone w'
      /\ wait_over phone w + (if 0 <? delay then delay else 0) <= now w'
      /\ flood_wait_until w' = flood_wait_until w
      /\ calls w' = calls w)
  /\ (forall (x : executor) (ev : event) (count : Z) (link : str) (w : world),
         let w' := snd (executor_batch R C x ev count link w) in
         snd (executor_result R C x ev count link w) = w'
         /\ exists new, calls w' = calls w ++ new /\ Forall call_ok new).
Proof.
  split.
  - intros phone delay w w'.
    destruct (respect_flood_limit_spec phone delay w) as (Hf & Hc & Hn & Hp).
    auto.
  - intros x ev count link w w'. split.
    + rewrite executor_result_eq. reflexivity.
    + exact (executor_batch_issues_in_time R C HR x ev count link w).
Qed.

(** The account [+1000001] has a wait-until timestamp of 100 and the
    clock shows 10.  [info] logs a request issued too early; the batch of
    views that follows keeps this entry and appends requests that were all
    issued in time. *)
Lemma executors_wait_for_the_flood_clock_witness :
  let w := snd (info operator
                  (world_at 10 {[ lit "+1000001" := 100 ]} (fun _ => quiet))) in
  let w' := snd (executor_batch Ascii_runtime.R sample_config View operator
                   2 sample_link w) in
  link_classes_ok Ascii_runtime.R
  /\ ~ Forall call_ok (calls w)
  /\ snd (executor_result Ascii_runtime.R sample_config View operator
            2 sample_link w) = w'
  /\ exists new, calls w' = calls w ++ new /\ Forall call_ok new.
Proof.
  intros w w'.
  split; [exact ascii_link_classes_ok|]. split.
  - intros H.
    assert (Hhead : exists c rest, calls w = c :: rest
                                   /\ wait_until_then c = Some 100
                                   /\ issued_at c = 10).
    { vm_compute. eexists _, _. repeat split. }
    destruct Hhead as (c & rest & Hc & Hwait & Hat).
    rewrite Hc in H. apply Forall_inv in H. unfold call_ok in H.
    rewrite Hwait, Hat in H. lia.
  - exact (proj2 (executors_wait_for_the_flood_clock Ascii_runtime.R
                    sample_config ascii_link_classes_ok)
             View operator 2 sample_link w).
Defined.

(** The scenario of the specification: an account leaves a channel and
    the request is answered, at time 0, by a rate limit of 30 seconds; the
    requests of the next batch for the account are issued at time 30. *)
Example second_call_waits_for_the_rate_limit :
  let e := fun n : nat =>
    if Nat.eqb n 4 then
      {| took := 0%N; raised := Some (FloodWaitError 30); refused := None;
         payload := 0; name := []; flag := false; is_set := false;
         rand := O |}
    else quiet in
  let link := lit "https://t.me/chan" in
  let w1 := snd (process_leave operator 1 link (world_of e)) in
  let w2 := snd (process_leave operator 1 link w1) in
  flood_wait_until w1 !! lit "+1000001" = Some 30
  /\ map (fun c => (call_request c, issued_at c)) (calls w2)
     = [(GetEntity (ByName link), 0); (LeaveChannelRequest 0, 0);
        (GetEntity (ByName link), 30); (LeaveChannelRequest 0, 30)].
Proof. vm_compute. repeat split. Qed.

(** C3, as the claim states it, fails outside the executors: the account
    [+1000001] has a wait-until timestamp of 100 and the clock shows 10
    when the operator asks for the list of accounts; [info] asks the
    platform who the account is at once, at time 10. *)
Lemma info_does_not_wait :
  let w := world_at 10 {[ lit "+1000001" := 100 ]} (fun _ => quiet) in
  let w' := snd (info operator w) in
  calls_ok 0 w
  /\ map (fun c => (call_phone c, call_request c, issued_at c, wait_until_then c))
       (take 1 (calls w'))
     = [(lit "+1000001", GetMe, 10, Some 100)]
  /\ ~ calls_ok 0 w'.
Proof.
  intros w w'. split; [constructor|]. split; [vm_compute; reflexivity|].
  intros H. unfold calls_ok in H. rewrite drop_0 in H.
  assert (Hhead : exists c rest, calls w' = c :: rest
                                 /\ wait_until_then c = Some 100
                                 /\ issued_at c = 10).
  { vm_compute. eexists _, _. repeat split. }
  destruct Hhead as (c & rest & Hc & Hwait & Hat).
  rewrite Hc in H. apply Forall_inv in H. unfold call_ok in H.
  rewrite Hwait, Hat in H. lia.
Qed.

(** * Further properties of the code *)

(** ** The remote helpers *)

(** X1.  The chat that [extract_message_info] reads off a message link
    never begins with ['+'] (in Python ['+'] is neither [\w] nor [\d]): the
    link [https://t.me/<chat>] that [send_reaction] hands to [join_channel]
    when the account is no participant is never taken for a private
    invite. *)
Theorem implicit_join_link_is_public (R : runtime) (HR : link_classes_ok R)
    (link chat : str) (message_id : Z) :
  extract_message_info R link = Some (chat, message_id) ->
  startswith chat (lit "+") = false
  /\ startswith (lit "https://t.me/" ++ chat) (lit "https://t.me/+") = false.
Proof.
  intros H. pose proof (extract_message_info_public R HR _ _ _ H) as Hp.
  split; [|exact Hp].
  change (lit "https://t.me/+") with (lit "https://t.me/" ++ lit "+") in Hp.
  rewrite startswith_app_both in Hp. exact Hp.
Qed.

Lemma implicit_join_link_is_public_witness :
  extract_message_info Ascii_runtime.R (lit "https://t.me/c/1234/56")
  = Some (lit "-1001234", 56)
  /\ startswith (lit "-1001234") (lit "+") = false
  /\ startswith (lit "https://t.me/" ++ lit "-1001234") (lit "https://t.me/+")
     = false.
Proof.
  split; [reflexivity|].
  exact (implicit_join_link_is_public Ascii_runtime.R ascii_link_classes_ok
           (lit "https://t.me/c/1234/56") (lit "-1001234") 56 eq_refl).
Defined.

(** X2.  [send_reaction] returns the glyph it was given or nothing: it
    never reports another glyph than the one the caller picked. *)
Theorem send_reaction_returns_the_glyph (R : runtime) (C : config)
    (client : nat) (link phone emoji : str) (w : world) :
  fst (send_reaction R C client link phone emoji w) = Some emoji
  \/ fst (send_reaction R C client link phone emoji w) = None.
Proof.
  destruct (fst (send_reaction R C client link phone emoji w)) as [e|] eqn:E;
    [left|right; reflexivity].
  f_equal. apply (send_reaction_result R C _ _ _ _ _ _ E).
Qed.

(** X3.  [join_channel], [send_reaction] and [send_view] talk to the
    platform only: they send no reply to the operator and change neither
    the registry, nor the conversations, nor the reaction ledger, nor the
    cancellation events. *)
Theorem remote_helpers_are_quiet (R : runtime) (C : config) (client : nat)
    (link phone emoji : str) (w : world) :
  quiet_step w (snd (join_channel C client link phone w))
  /\ quiet_step w (snd (send_reaction R C client link phone emoji w))
  /\ quiet_step w (snd (send_view R client link phone w)).
Proof.
  split; [apply join_channel_quiet|].
  split; [apply send_reaction_quiet|apply send_view_quiet].
Qed.

(** ** An empty selection, and the text [process_join] returns *)

(** The local variable [result] of [process_join] holds the summary of
    the other local variables. *)
Definition result_bound (count : Z) (t : tally) : Prop :=
  result t = Some (summary (join_headline t count) t).

(** A turn of [process_join] that no exception leaves binds [result]. *)
Lemma join_body_binds_result (C : config) (ev : event) (count : Z)
    (link : str) (acc : account) (t : tally) (w : world) :
  snd (fst (join_body C ev count link acc t w)) = None ->
  result_bound count (fst (fst (join_body C ev count link acc t w))).
Proof.
  unfold join_body. cbv zeta. rewrite bind_eq.
  destruct (fst (join_channel C (fst (snd acc)) link (fst acc) w));
    unfold tell_then; rewrite bind_eq;
    match goal with
    | |- context [fst (reply ?e ?m ?w0)] => destruct (fst (reply e m w0))
    end; cbn [ret bind fst snd]; intros H; [discriminate H|reflexivity
                                           |discriminate H|reflexivity].
Qed.

(** When the loop of [process_join] runs to its end, [result] is as it
    was when no account was selected, and bound otherwise. *)
Lemma join_loop_result (C : config) (ev : event) (count : Z) (link : str)
    (selected : list account) :
  forall (t : tally) (w : world),
    let r := for_each_account ev join_canceled (join_body C ev count link)
               selected t w in
    snd (fst r) = ran_to_end ->
    (selected = [] /\ fst (fst r) = t)
    \/ (selected <> [] /\ result_bound count (fst (fst r))).
Proof.
  induction selected as [|acc rest IH]; intros t w r; subst r.
  - intros _. left. split; reflexivity.
  - cbn [for_each_account]. rewrite bind_eq.
    destruct (is_set (fst (query w))).
    + rewrite bind_eq. destruct (fst (reply ev join_canceled (snd (query w))));
        cbn [ret fst snd]; discriminate.
    + rewrite bind_eq.
      pose proof (join_body_binds_result C ev count link acc t (snd (query w)))
        as Hbody.
      destruct (snd (fst (join_body C ev count link acc t (snd (query w)))));
        [cbn [ret fst snd]; discriminate|].
      specialize (Hbody eq_refl). intros Hend. right. split; [discriminate|].
      destruct (IH _ _ Hend) as [[_ ->]|[_ Hb]]; [exact Hbody|exact Hb].
Qed.

(** X7.  What [process_join] gives.  The text it returns after its loop
    is bound inside the loop, at the end of each turn.  With no account
    selected the variable is unbound at the [return], which raises; with
    accounts selected [process_join] returns the summary of its counts
    when the loop ran to its end, the cancellation message when the loop
    was canceled, and raises the exception that left the loop otherwise.
    When no reply raises, it returns a text exactly when an account is
    selected. *)
Theorem process_join_returns_what_a_turn_bound (C : config) (ev : event)
    (count : Z) (link : str) (w : world) :
  let r := join_batch C ev count link w in
  let t := fst (snd (fst r)) in
  let given := fst (process_join C ev count link w) in
  (slice_to count (user_clients w) = [] -> given = Raised OtherError)
  /\ (slice_to count (user_clients w) <> [] ->
      match snd (snd (fst r)) with
      | ran_to_end => given = Returned (summary (join_headline t count) t)
      | canceled_before _ => given = Returned join_canceled
      | left_by e _ => given = Raised e
      end)
  /\ (replies_pass w ->
      (exists text, given = Returned text)
      <-> slice_to count (user_clients w) <> []).
Proof.
  intros r t given.
  assert (Hgiven : given = returned join_canceled (snd (snd (fst r))) (result t)).
  { subst given r t. unfold process_join. rewrite bind_eq. reflexivity. }
  assert (Hloop : snd (snd (fst r)) = ran_to_end ->
                  (slice_to count (user_clients w) = [] /\ t = no_outcome)
                  \/ (slice_to count (user_clients w) <> []
                      /\ result_bound count t)).
  { subst r t. unfold join_batch, batch. rewrite !bind_eq.
    cbn [ret get fst snd]. apply join_loop_result. }
  assert (Hnil : slice_to count (user_clients w) = [] ->
                 snd (snd (fst r)) = ran_to_end).
  { subst r. unfold join_batch, batch. rewrite !bind_eq.
    cbn [ret get fst snd]. intros ->. reflexivity. }
  assert (Hfirst : slice_to count (user_clients w) = [] ->
                   given = Raised OtherError).
  { intros Hsel. rewrite Hgiven, (Hnil Hsel).
    destruct (Hloop (Hnil Hsel)) as [[_ ->]|[Hne _]]; [reflexivity|].
    destruct (Hne Hsel). }
  assert (Hsecond : slice_to count (user_clients w) <> [] ->
            match snd (snd (fst r)) with
            | ran_to_end => given = Returned (summary (join_headline t count) t)
            | canceled_before _ => given = Returned join_canceled
            | left_by e _ => given = Raised e
            end).
  { intros Hsel. rewrite Hgiven.
    destruct (snd (snd (fst r))) as [|l|e l] eqn:Ef; [|reflexivity|reflexivity].
    destruct (Hloop eq_refl) as [[Hempty _]|[_ Hb]]; [destruct (Hsel Hempty)|].
    cbn [returned]. rewrite Hb. reflexivity. }
  split; [exact Hfirst|]. split; [exact Hsecond|].
  intros Hpass. split.
  - intros [text Htext] Hsel. rewrite (Hfirst Hsel) in Htext. discriminate.
  - intros Hsel. specialize (Hsecond Hsel).
    destruct (executor_batch_run Ascii_runtime.R C Join ev count link w Hpass)
      as (_ & os & Hrun).
    cbn [executor_batch canceled_text] in Hrun. fold r in Hrun.
    destruct Hrun as (_ & _ & _ & _ & _ & _ & Hleft & _).
    destruct (snd (snd (fst r))) as [|l|e l]; [eauto|eauto|destruct Hleft].
Qed.

(** Two accounts and a batch of joins: with a count of 0 nothing is
    selected and [process_join] raises; with a count of 2 it returns the
    summary; when the reply to the second account raises, so does it. *)
Lemma process_join_returns_what_a_turn_bound_witness :
  let w := world_with [first_account; second_account] ∅ (fun _ => quiet) in
  let refusing := world_with [first_account; second_account] ∅
                    (refusing_at 6 (FloodWaitError 3)) in
  slice_to 0 (user_clients w) = []
  /\ fst (process_join sample_config operator 0 (lit "https://t.me/chan") w)
     = Raised OtherError
  /\ slice_to 2 (user_clients w) <> []
  /\ replies_pass w
  /\ (exists text,
        fst (process_join sample_config operator 2 (lit "https://t.me/chan") w)
        = Returned text)
  /\ fst (process_join sample_config operator 2 (lit "https://t.me/chan")
            refusing)
     = Raised (FloodWaitError 3).
Proof.
  intros w refusing.
  assert (Hpass : replies_pass w) by (intros n _; reflexivity).
  split; [reflexivity|].
  split.
  { exact (proj1 (process_join_returns_what_a_turn_bound sample_config operator
                    0 (lit "https://t.me/chan") w) eq_refl). }
  split; [discriminate|]. split; [exact Hpass|].
  split.
  { apply (proj2 (proj2 (process_join_returns_what_a_turn_bound sample_config
                           operator 2 (lit "https://t.me/chan") w)) Hpass).
    discriminate. }
  vm_compute. reflexivity.
Defined.

(** With nothing selected an executor sends no reply and no request. *)
Lemma executor_batch_nothing_selected (R : runtime) (C : config) (x : executor)
    (ev : event) (count : Z) (link : str) (w : world) :
  slice_to count (user_clients w) = [] ->
  let r := executor_batch R C x ev count link w in
  fst (snd (fst r)) = no_outcome /\ snd (snd (fst r)) = ran_to_end
  /\ replies (snd r) = replies w /\ calls (snd r) = calls w.
Proof.
  intros Hnil.
  assert (Hbatch : forall canceled prepare body,
            extends (keeps replies) prepare -> extends (keeps calls) prepare ->
            let r := batch ev canceled prepare body count w in
            fst (snd (fst r)) = no_outcome /\ snd (snd (fst r)) = ran_to_end
            /\ replies (snd r) = replies w /\ calls (snd r) = calls w).
  { intros canceled prepare body Hr Hc. unfold batch.
    rewrite !bind_eq. cbn [ret get fst snd]. rewrite Hnil.
    cbn [for_each_account ret fst snd end_batch modify].
    split; [reflexivity|]. split; [reflexivity|].
    change (replies (snd (prepare (snd (begin_batch (sender_id ev) w))))
            = replies w
            /\ calls (snd (prepare (snd (begin_batch (sender_id ev) w))))
               = calls w).
    rewrite (replies_kept prepare _ Hr), (calls_kept prepare _ Hc).
    split; reflexivity. }
  destruct x; cbn [executor_batch];
    unfold join_batch, leave_batch, react_batch, view_batch;
    apply Hbatch; try (intros ?; reflexivity).
  all: intros w0; unfold open_history, modify, keeps; cbn;
    destruct (reaction_history w0 !! link); reflexivity.
Qed.

(** X8.  With no account selected, [process_leave], [process_react] and
    [process_view] return their headline with [0/count] and nothing else,
    and no executor sends a reply or a request. *)
Theorem nothing_selected_nothing_done (R : runtime) (C : config)
    (ev : event) (count : Z) (link : str) (w : world) :
  slice_to count (user_clients w) = [] ->
  fst (process_leave ev count link w)
  = Returned (lit "📤 Successfully removed 0/" ++ of_Z count
              ++ lit " accounts from channels" ++ [newline])
  /\ fst (process_react R C ev count link w)
     = Returned (lit "❤️ Successfully sent 0/" ++ of_Z count ++ lit " reactions"
                 ++ [newline])
  /\ fst (process_view R C ev count link w)
     = Returned (lit "👀 Successfully sent 0/" ++ of_Z count ++ lit " views"
                 ++ [newline])
  /\ forall x,
       replies (snd (executor_result R C x ev count link w)) = replies w
       /\ calls (snd (executor_result R C x ev count link w)) = calls w.
Proof.
  intros Hnil.
  pose proof (executor_batch_nothing_selected R C Leave ev count link w Hnil)
    as (Hl1 & Hl2 & _).
  pose proof (executor_batch_nothing_selected R C React ev count link w Hnil)
    as (Hr1 & Hr2 & _).
  pose proof (executor_batch_nothing_selected R C View ev count link w Hnil)
    as (Hv1 & Hv2 & _).
  cbn [executor_batch] in Hl1, Hl2, Hr1, Hr2, Hv1, Hv2.
  unfold process_leave, process_react, process_view.
  rewrite !bind_eq. cbn [ret fst snd].
  rewrite Hl1, Hl2, Hr1, Hr2, Hv1, Hv2. cbn [returned].
  split; [|split; [|split]].
  - unfold summary, leave_headline, react_headline, view_headline, ratio.
    cbn [no_outcome success success_list failed_list lines].
    rewrite ?app_nil_r, <- ?app_assoc. reflexivity.
  - unfold summary, leave_headline, react_headline, view_headline, ratio.
    cbn [no_outcome success success_list failed_list lines].
    rewrite ?app_nil_r, <- ?app_assoc. reflexivity.
  - unfold summary, leave_headline, react_headline, view_headline, ratio.
    cbn [no_outcome success success_list failed_list lines].
    rewrite ?app_nil_r, <- ?app_assoc. reflexivity.
  - intros x.
    pose proof (executor_batch_nothing_selected R C x ev count link w Hnil)
      as (_ & _ & Hr & Hc).
    rewrite executor_result_eq. cbn [snd]. split; assumption.
Qed.

Lemma nothing_selected_nothing_done_witness :
  let w := world_with [] ∅ (fun _ => quiet) in
  slice_to 3 (user_clients w) = []
  /\ fst (process_leave operator 3 sample_link w)
     = Returned (lit "📤 Successfully removed 0/3 accounts from channels"
                 ++ [newline])
  /\ forall x,
       replies (snd (executor_result Ascii_runtime.R sample_config x operator 3
                       sample_link w)) = replies w
       /\ calls (snd (executor_result Ascii_runtime.R sample_config x operator 3
                        sample_link w)) = calls w.
Proof.
  intros w. split; [reflexivity|].
  destruct (nothing_selected_nothing_done Ascii_runtime.R sample_config operator
              3 sample_link w eq_refl) as (Hl & _ & _ & Hx).
  split; [exact Hl|exact Hx].
Defined.

(** ** The steps of the conversation *)

(** What [receive_number] changes. *)
Lemma receive_number_step (R : runtime) (ev : event)
    (w : world) :
  let w' := snd (receive_number R ev w) in
  user_clients w' = user_clients w
  /\ calls w' = calls w
  /\ (user_states w' = user_states w
      \/ exists c count,
           user_states w !! sender_id ev = Some c
           /\ py_int R (text ev) = Some count
           /\ 1 <= count <= Z.of_nat (length (user_clients w))
           /\ user_states w'
              = <[sender_id ev :=
                    {| conv_command := conv_command c;
                       conv_state :=
                         if bool_decide (conv_command c = cmd_join)
                            || bool_decide (conv_command c = cmd_leave)
                         then invite_link else message_link;
                       conv_timestamp := now w;
                       conv_count := Some count;
                       conv_phone := conv_phone c;
                       conv_client := conv_client c;
                       conv_phone_code_hash := conv_phone_code_hash c |}]>
                (user_states w)).
Proof.
  assert (Hclose : forall (r : option error) (w1 : world),
            let w2 := snd (match r with
                           | Some ValueError =>
                               reply ev (lit "❌ Invalid input. Please enter a valid number (e.g., 5).")
                           | _ => ret r
                           end w1) in
            user_clients w2 = user_clients w1 /\ calls w2 = calls w1
            /\ user_states w2 = user_states w1).
  { intros [[]|] w1; repeat split. }
  unfold receive_number. rewrite bind_eq.
  destruct (Hclose (fst (receive_number_try R ev w))
              (snd (receive_number_try R ev w))) as (-> & -> & ->).
  clear Hclose. unfold receive_number_try.
  destruct (py_int R (text ev)) as [count|] eqn:Eint;
    [|cbn; auto].
  rewrite bind_eq. cbn [get fst snd].
  destruct ((count <? 1) || (Z.of_nat (length (user_clients w)) <? count))
    eqn:Eguard; [cbn; auto|].
  rewrite bind_eq. cbn [get fst snd].
  destruct (user_states w !! sender_id ev) as [c|] eqn:Estate; [|cbn; auto].
  apply orb_false_iff in Eguard as [H1 H2].
  apply Z.ltb_ge in H1, H2.
  split; [reflexivity|]. split; [reflexivity|].
  right. exists c, count. repeat split; try assumption.
Qed.

(** X9.  [receive_number] issues no request and leaves the registry
    alone, and it either leaves every conversation as it is, or stores a
    count: then the text is an integer between 1 and the number of
    accounts, the operator had a conversation, and this conversation moves
    to the step of the links (channel links for [join] and [leave], message
    links otherwise) with the count and the time of the clock. *)
Theorem receive_number_stores_a_count_in_range (R : runtime) (ev : event)
    (w : world) :
  let w' := snd (receive_number R ev w) in
  user_clients w' = user_clients w
  /\ calls w' = calls w
  /\ (user_states w' = user_states w
      \/ exists c count,
           user_states w !! sender_id ev = Some c
           /\ py_int R (text ev) = Some count
           /\ 1 <= count <= Z.of_nat (length (user_clients w))
           /\ user_states w'
              = <[sender_id ev :=
                    {| conv_command := conv_command c;
                       conv_state :=
                         if bool_decide (conv_command c = cmd_join)
                            || bool_decide (conv_command c = cmd_leave)
                         then invite_link else message_link;
                       conv_timestamp := now w;
                       conv_count := Some count;
                       conv_phone := conv_phone c;
                       conv_client := conv_client c;
                       conv_phone_code_hash := conv_phone_code_hash c |}]>
                (user_states w)).
Proof. exact (receive_number_step R ev w). Qed.

(** X10.  With no account in the registry, [start_link_only_command]
    tells the operator so and opens no conversation, whereas
    [start_count_link_command] tells the same but has opened a conversation
    in the step [counting] before looking at the registry; no number the
    operator sends next moves this conversation on. *)
Theorem start_commands_on_an_empty_registry (R : runtime) (ev : event)
    (cmd : command) (w : world) :
  user_clients w = [] ->
  let w1 := snd (start_link_only_command ev cmd w) in
  let w2 := snd (start_count_link_command ev cmd w) in
  user_states w1 = user_states w
  /\ replies w1 = replies w ++ [(sender_id ev, no_accounts)]
  /\ replies w2 = replies w ++ [(sender_id ev, no_accounts)]
  /\ (exists c,
        user_states w2 !! sender_id ev = Some c
        /\ conv_command c = cmd /\ conv_state c = counting
        /\ conv_count c = None)
  /\ forall ev', user_states (snd (receive_number R ev' w2)) = user_states w2.
Proof.
  intros Hempty w1 w2.
  assert (H2 : user_clients w2 = []).
  { subst w2. unfold start_count_link_command. rewrite !bind_eq.
    cbn [loop_time get set_state modify fst snd user_clients set_user_states].
    rewrite Hempty. cbn. exact Hempty. }
  split; [|split; [|split; [|split]]].
  - subst w1. unfold start_link_only_command. rewrite bind_eq.
    cbn [get fst snd]. rewrite Hempty. reflexivity.
  - subst w1. unfold start_link_only_command. rewrite bind_eq.
    cbn [get fst snd]. rewrite Hempty. reflexivity.
  - subst w2. unfold start_count_link_command. rewrite !bind_eq.
    cbn [loop_time get set_state modify fst snd user_clients set_user_states].
    rewrite Hempty. reflexivity.
  - eexists. split; [|split; [|split]].
    + subst w2. unfold start_count_link_command. rewrite !bind_eq.
      cbn [loop_time get set_state modify fst snd user_clients set_user_states].
      rewrite Hempty.
      cbn [length reply modify bind ask ret fst snd user_states set_replies
           set_clock set_user_states].
      apply lookup_insert_eq.
    + reflexivity.
    + reflexivity.
    + reflexivity.
  - intros ev'.
    destruct (receive_number_step R ev' w2)
      as (_ & _ & [Hsame|(c & count & _ & _ & Hcount & _)]); [exact Hsame|].
    rewrite H2 in Hcount. cbn in Hcount. lia.
Qed.

Lemma start_commands_on_an_empty_registry_witness :
  let w := world_with [] ∅ (fun _ => quiet) in
  let w2 := snd (start_count_link_command operator cmd_join w) in
  user_clients w = []
  /\ user_states (snd (start_link_only_command operator cmd_mega_join w))
     = user_states w
  /\ exists c,
       user_states w2 !! sender_id operator = Some c
       /\ conv_command c = cmd_join /\ conv_state c = counting
       /\ conv_count c = None.
Proof.
  intros w w2. split; [reflexivity|].
  split.
  - exact (proj1 (start_commands_on_an_empty_registry Ascii_runtime.R operator
                    cmd_mega_join w eq_refl)).
  - exact (proj1 (proj2 (proj2 (proj2
             (start_commands_on_an_empty_registry Ascii_runtime.R operator
                cmd_join w eq_refl))))).
Defined.

(** X11.  [receive_phone] refuses a phone that is registered already:
    for an operator in the phone step whose text normalises to a
    well-formed phone of the registry, the operator is told so and no
    request is issued; the conversation is closed when the reply passes,
    and stays open, the handler raising, when the reply raises. *)
Theorem receive_phone_refuses_a_registered_phone (R : runtime) (ev : event)
    (w : world) (c : conversation) :
  let phone := normalize_phone R (strip (isspace R) (text ev)) in
  user_states w !! sender_id ev = Some c ->
  conv_state c = phone_step ->
  phone_pattern R phone = true ->
  phone ∈ map fst (user_clients w) ->
  let w' := snd (receive_phone R ev w) in
  replies w'
  = replies w
    ++ [(sender_id ev, lit "❌ Account " ++ phone ++ lit " is already added.")]
  /\ user_clients w' = user_clients w
  /\ calls w' = calls w
  /\ fst (receive_phone R ev w) = refused (env w (tick w))
  /\ user_states w'
     = match refused (env w (tick w)) with
       | None => delete (sender_id ev) (user_states w)
       | Some _ => user_states w
       end.
Proof.
  intros phone Hstate Hstep Hpat Hknown. unfold receive_phone.
  rewrite bind_eq. cbn [get fst snd]. rewrite Hstate, Hstep.
  rewrite bool_decide_eq_true_2 by reflexivity. cbn [negb].
  fold phone. rewrite Hpat. cbn [negb].
  rewrite bind_eq. cbn [get fst snd].
  rewrite bool_decide_eq_true_2 by exact Hknown.
  unfold and_then. rewrite bind_eq.
  rewrite reply_value.
  destruct (refused (env w (tick w))); repeat split.
Qed.

Lemma receive_phone_refuses_a_registered_phone_witness :
  let ev := {| sender_id := 7; text := lit " +1 000 001 " |} in
  let w := world_with pool {[ 7 := awaiting_phone ]} (fun _ => quiet) in
  let w' := snd (receive_phone Ascii_runtime.R ev w) in
  normalize_phone Ascii_runtime.R (strip (isspace Ascii_runtime.R) (text ev))
  = lit "+1000001"
  /\ replies w' = [(7, lit "❌ Account +1000001 is already added.")]
  /\ user_clients w' = user_clients w
  /\ calls w' = calls w
  /\ fst (receive_phone Ascii_runtime.R ev w) = None
  /\ user_states w' = delete 7 (user_states w).
Proof.
  intros ev w. split; [reflexivity|].
  apply (receive_phone_refuses_a_registered_phone Ascii_runtime.R ev w
           awaiting_phone).
  - reflexivity.
  - reflexivity.
  - reflexivity.
  - vm_compute. constructor.
Defined.

(** The same message when the reply raises: the conversation of the
    operator stays in the phone step. *)
Example receive_phone_reply_refused :
  let ev := {| sender_id := 7; text := lit " +1 000 001 " |} in
  let w := world_with pool {[ 7 := awaiting_phone ]}
             (refusing_at 0 (FloodWaitError 3)) in
  fst (receive_phone Ascii_runtime.R ev w) = Some (FloodWaitError 3)
  /\ user_states (snd (receive_phone Ascii_runtime.R ev w)) = user_states w.
Proof. vm_compute. repeat split. Qed.

(** What follows the request of [receive_phone] neither changes the
    registry nor issues a request. *)
Lemma receive_phone_closing (ev : event) (message : str) (user_id : Z) :
  extends (fun w w' => user_clients w' = user_clients w /\ calls w' = calls w)
    (reply ev message ;;; disconnect ;;; pop_and_return user_id).
Proof.
  intros w. unfold and_then. rewrite !bind_eq.
  destruct (fst (reply ev message w)); [split; reflexivity|].
  rewrite !bind_eq.
  destruct (fst (disconnect (snd (reply ev message w)))); split; reflexivity.
Qed.

(** X12.  [receive_phone] requests a login code at most once, and only
    for the normalised phone of the text, when this phone is well formed
    and not registered and the operator is in the phone step; it never
    changes the registry. *)
Theorem receive_phone_requests_one_code_at_most (R : runtime) (ev : event)
    (w : world) :
  let phone := normalize_phone R (strip (isspace R) (text ev)) in
  let w' := snd (receive_phone R ev w) in
  user_clients w' = user_clients w
  /\ (calls w' = calls w
      \/ exists c conv,
           calls w' = calls w ++ [c]
           /\ call_phone c = phone
           /\ call_request c = SendCodeRequest phone
           /\ phone_pattern R phone = true
           /\ (phone ∉ map fst (user_clients w))
           /\ user_states w !! sender_id ev = Some conv
           /\ conv_state conv = phone_step).
Proof.
  intros phone. cbv zeta. unfold receive_phone.
  rewrite bind_eq. cbn [get fst snd].
  destruct (user_states w !! sender_id ev) as [conv|] eqn:Estate;
    [|cbn; auto].
  destruct (bool_decide (conv_state conv = phone_step)) eqn:Estep;
    cbn [negb]; [|cbn; auto].
  apply bool_decide_eq_true in Estep.
  fold phone.
  destruct (phone_pattern R phone) eqn:Epat; cbn [negb]; [|cbn; auto].
  rewrite bind_eq. cbn [get fst snd].
  destruct (bool_decide (phone ∈ map fst (user_clients w))) eqn:Eknown.
  { unfold and_then. rewrite bind_eq.
    destruct (fst (reply ev (lit "❌ Account " ++ phone
                             ++ lit " is already added.") w));
      cbn; auto. }
  apply bool_decide_eq_false in Eknown.
  rewrite !bind_eq. cbn [get fst snd].
  assert (Htry : let w1 := snd (receive_phone_try ev conv phone (tick w) w) in
            user_clients w1 = user_clients w
            /\ (calls w1 = calls w
                \/ (exists c, calls w1 = calls w ++ [c]
                              /\ call_phone c = phone
                              /\ call_request c = SendCodeRequest phone))).
  { unfold receive_phone_try. cbv zeta. rewrite bind_eq.
    pose proof (ensure_connected_keeps_calls (tick w) phone w) as Hcalls.
    pose proof (quiet_clients _ _ (ensure_connected_quiet (tick w) phone w))
      as Hclients.
    unfold keeps in Hcalls.
    set (connected := fst (ensure_connected (tick w) phone w)).
    set (w1 := snd (ensure_connected (tick w) phone w)) in *.
    clearbody connected w1.
    destruct connected; cbn [negb].
    - rewrite bind_eq.
      set (sent_code := fst (remote phone (SendCodeRequest phone) w1)).
      assert (Hsent : calls (snd (remote phone (SendCodeRequest phone) w1))
                      = calls w1
                        ++ [{| call_phone := phone;
                               call_request := SendCodeRequest phone;
                               issued_at := now w1;
                               wait_until_then := flood_wait_until w1 !! phone |}])
        by reflexivity.
      assert (Hsame : user_clients (snd (remote phone (SendCodeRequest phone) w1))
                      = user_clients w1) by reflexivity.
      set (w2 := snd (remote phone (SendCodeRequest phone) w1)) in *.
      clearbody sent_code w2.
      assert (Hend : forall w3 : world,
                user_clients w3 = user_clients w2 -> calls w3 = calls w2 ->
                user_clients w3 = user_clients w
                /\ (calls w3 = calls w
                    \/ (exists c, calls w3 = calls w ++ [c]
                                  /\ call_phone c = phone
                                  /\ call_request c = SendCodeRequest phone))).
      { intros w3 H3 H4. rewrite H3, H4, Hsame, Hsent, Hclients, Hcalls.
        split; [reflexivity|]. right. eexists.
        split; [reflexivity|]. split; reflexivity. }
      destruct (raised sent_code) as [[]|]; apply Hend; reflexivity.
    - unfold and_then. rewrite bind_eq.
      match goal with
      | |- context [fst (reply ?e ?m ?w0)] => destruct (fst (reply e m w0))
      end; cbn; rewrite Hclients, Hcalls; auto. }
  cbv zeta in Htry.
  set (r := fst (receive_phone_try ev conv phone (tick w) w)) in *.
  set (w1 := snd (receive_phone_try ev conv phone (tick w) w)) in *.
  clearbody r w1.
  assert (Hend : forall w3 : world,
            user_clients w3 = user_clients w1 /\ calls w3 = calls w1 ->
            user_clients w3 = user_clients w
            /\ (calls w3 = calls w
                \/ exists c conv0,
                     calls w3 = calls w ++ [c]
                     /\ call_phone c = phone
                     /\ call_request c = SendCodeRequest phone
                     /\ true = true
                     /\ (phone ∉ map fst (user_clients w))
                     /\ Some conv = Some conv0
                     /\ conv_state conv0 = phone_step)).
  { intros w3 [H3 H4]. rewrite H3, H4.
    destruct Htry as [Hc [Hsame|(c & Hc1 & Hc2 & Hc3)]].
    - split; [exact Hc|]. left. exact Hsame.
    - split; [exact Hc|]. right. exists c, conv. repeat split; assumption. }
  destruct r as [e|]; [|apply Hend; split; reflexivity].
  destruct e; apply Hend;
    try (apply (receive_phone_closing ev _ (sender_id ev) w1)).
  rewrite bind_eq.
  apply (receive_phone_closing ev _ (sender_id ev)
           (snd (register_flood_wait phone seconds w1))).
Qed.

(** ** The counts of a batch whose replies pass *)

Lemma successes_failures (os : list outcome) :
  (successes os + failures os = length os)%nat.
Proof.
  unfold successes, failures. induction os as [|o os IH]; [reflexivity|].
  cbn [List.filter length]. destruct (outcome_ok o); cbn [negb length]; lia.
Qed.

(** X14.  When no reply raises, every account selected by a batch is
    counted once: as a success, as a failure, or as not reached; an
    account is not reached only when the cancellation event was found set
    during the batch, and when the event is never set the successes and
    the failures add up to the accounts selected.  The list of successes
    is as long as the count of successes. *)
Theorem batch_counts_when_replies_pass (R : runtime) (C : config)
    (x : executor) (ev : event) (count : Z) (link : str) (w : world) :
  replies_pass w ->
  let r := executor_batch R C x ev count link w in
  let t := fst (snd (fst r)) in
  let f := snd (snd (fst r)) in
  let selected := slice_to count (user_clients w) in
  (success t + length (failed_list t) + length (unreached f)
   = length selected)%nat
  /\ length (success_list t) = success t
  /\ (unreached f <> [] -> found_set w (snd r))
  /\ (never_set w ->
      f = ran_to_end
      /\ (success t + length (failed_list t) = length selected)%nat).
Proof.
  intros Hpass r t f selected.
  destruct (executor_batch_run R C x ev count link w Hpass)
    as (Hsel & os & Hsplit & _ & _ & Hs & Hsl & Hfl & Hleft & _).
  fold r in Hsel, Hsplit, Hs, Hsl, Hfl, Hleft.
  fold t in Hs, Hsl, Hfl. fold f in Hsplit, Hleft.
  fold selected in Hsel. rewrite Hsel in Hsplit.
  cbn [no_outcome success success_list failed_list length] in Hs, Hsl, Hfl.
  assert (Hlen : length selected = (length os + length (unreached f))%nat).
  { rewrite Hsplit, length_app, length_map. reflexivity. }
  pose proof (successes_failures os) as Hsum.
  split; [lia|]. split; [lia|]. split.
  - intros Hne. destruct f as [|l|e l]; cbn in Hne, Hleft;
      [destruct (Hne eq_refl)|exact (proj2 Hleft)|destruct Hleft].
  - intros Hnever.
    assert (Hend : f = ran_to_end).
    { destruct f as [|l|e l]; [reflexivity| |destruct Hleft].
      destruct Hleft as [_ Hfound].
      destruct (never_set_not_found _ _ Hnever Hfound). }
    split; [exact Hend|]. rewrite Hend in Hlen. cbn in Hlen. lia.
Qed.

(** Three accounts and a batch of views over all of them: when the
    event is never set the three are counted; when it is found set before
    the second account, one is counted and two are not reached. *)
Lemma batch_counts_when_replies_pass_witness :
  let w := world_of (fun _ => quiet) in
  let r := executor_batch Ascii_runtime.R sample_config View operator 3
             sample_link w in
  let canceled := executor_batch Ascii_runtime.R sample_config View operator 3
                    sample_link (world_of (set_at 7)) in
  replies_pass w /\ never_set w
  /\ snd (snd (fst r)) = ran_to_end
  /\ (success (fst (snd (fst r))) + length (failed_list (fst (snd (fst r))))
      = 3)%nat
  /\ replies_pass (world_of (set_at 7))
  /\ (success (fst (snd (fst canceled)))
      + length (failed_list (fst (snd (fst canceled)))) = 1)%nat
  /\ length (unreached (snd (snd (fst canceled)))) = 2%nat.
Proof.
  intros w r canceled.
  assert (Hpass : replies_pass w) by (intros n _; reflexivity).
  assert (Hnever : never_set w) by (intros n _; reflexivity).
  assert (Hpass' : replies_pass (world_of (set_at 7))).
  { intros n _. cbn. unfold set_at. destruct (Nat.eqb n 7); reflexivity. }
  split; [exact Hpass|]. split; [exact Hnever|].
  destruct (proj2 (proj2 (proj2
              (batch_counts_when_replies_pass Ascii_runtime.R sample_config
                 View operator 3 sample_link w Hpass))) Hnever)
    as [Hend Hsum].
  split; [exact Hend|]. split; [exact Hsum|].
  split; [exact Hpass'|]. split; vm_compute; reflexivity.
Defined.

(** ** The cancellation event set before the first account *)






(** ** The looks at the cancellation event *)

(** [looks_of w w' reached looks]: between [w] and [w'] the cancellation
    event was looked at and found not set at the moments [looks], all
    different, as many as the accounts [reached]. *)
Definition looks_of (w w' : world) (reached : list account)
    (looks : list nat) : Prop :=
  length looks = length reached
  /\ NoDup looks
  /\ Forall (fun n => (tick w <= n < tick w')%nat
                      /\ is_set (env w n) = false) looks.

Lemma looks_of_onward (w0 w w' w1 : world) (reached : list account)
    (looks : list nat) :
  onward w0 w -> onward w' w1 ->
  looks_of w w' reached looks -> looks_of w0 w1 reached looks.
Proof.
  intros [He Ht] [_ Ht'] (Hlen & Hnd & Hall).
  split; [exact Hlen|]. split; [exact Hnd|].
  eapply Forall_impl; [exact Hall|].
  intros n [Hn Hset]. cbn beta. rewrite <- He. split; [lia|exact Hset].
Qed.

Lemma for_each_account_looks (ev : event) (canceled : str)
    (body : account -> tally -> M (tally * option error)) :
  (forall acc t, extends onward (body acc t)) ->
  forall selected t w,
    let r := for_each_account ev canceled body selected t w in
    exists reached looks,
      selected = reached ++ unreached (snd (fst r))
      /\ looks_of w (snd r) reached looks.
Proof.
  intros Honward selected.
  induction selected as [|acc rest IH]; intros t w r; subst r.
  - exists [], []. split; [reflexivity|].
    split; [reflexivity|]. split; constructor.
  - cbn [for_each_account]. rewrite bind_eq.
    assert (Hset0 : is_set (fst (query w)) = is_set (env w (tick w)))
      by reflexivity.
    assert (Htick1 : tick (snd (query w)) = S (tick w)) by reflexivity.
    assert (Henv1 : env (snd (query w)) = env w) by reflexivity.
    set (a := fst (query w)) in *. set (w1 := snd (query w)) in *.
    clearbody a w1.
    destruct (is_set a) eqn:Eset.
    + exists [], []. rewrite bind_eq.
      destruct (fst (reply ev canceled w1)); cbn [ret fst snd unreached app];
        (split; [reflexivity|]); split; [reflexivity| |reflexivity|];
        split; constructor.
    + rewrite bind_eq.
      pose proof (Honward acc t w1) as [He2 Ht2].
      set (t2 := fst (fst (body acc t w1))) in *.
      set (e2 := snd (fst (body acc t w1))) in *.
      set (w2 := snd (body acc t w1)) in *.
      clearbody t2 e2 w2.
      destruct e2 as [e|].
      * exists [acc], [tick w]. cbn [ret fst snd unreached app].
        split; [reflexivity|]. split; [reflexivity|].
        split; [constructor; [intros H; inversion H|constructor]|].
        constructor; [|constructor].
        split; [lia|]. symmetry. exact Hset0.
      * destruct (IH t2 w2) as (reached & looks & Hsel & Hlen & Hnd & Hall).
        exists (acc :: reached), (tick w :: looks).
        split; [cbn [app]; f_equal; exact Hsel|].
        split; [cbn [length]; f_equal; exact Hlen|].
        split.
        { constructor; [|exact Hnd].
          intros Hin. rewrite Forall_forall in Hall.
          destruct (Hall _ Hin) as [Hn _]. lia. }
        constructor.
        { split; [|symmetry; exact Hset0].
          split; [lia|].
          pose proof (for_each_account_onward ev canceled body rest Honward
                        t2 w2) as [_ Ht3].
          lia. }
        eapply Forall_impl; [exact Hall|].
        intros n [Hn Hset]. cbn beta. rewrite He2, Henv1 in Hset.
        split; [lia|exact Hset].
Qed.

Lemma batch_looks (ev : event) (canceled : str) (prepare : M unit)
    (body : account -> tally -> M (tally * option error)) (count : Z)
    (w : world) :
  (forall acc t, extends onward (body acc t)) ->
  extends onward prepare ->
  let r := batch ev canceled prepare body count w in
  exists reached looks,
    slice_to count (user_clients w) = reached ++ unreached (snd (snd (fst r)))
    /\ looks_of w (snd r) reached looks.
Proof.
  intros Honward Hprepare r. subst r. unfold batch.
  rewrite !bind_eq. cbn [ret get fst snd].
  set (w0 := snd (begin_batch (sender_id ev) w)).
  assert (Ho0 : onward w w0) by (split; reflexivity).
  set (w1 := snd (prepare w0)).
  assert (Ho1 : onward w w1) by (etransitivity; [exact Ho0|apply Hprepare]).
  destruct (for_each_account_looks ev canceled body Honward
              (slice_to count (user_clients w)) no_outcome w1)
    as (reached & looks & Hsel & Hlooks).
  exists reached, looks. split; [exact Hsel|].
  eapply looks_of_onward; [exact Ho1| |exact Hlooks].
  split; reflexivity.
Qed.

(** X16.  Every account a batch takes a turn for was preceded by a look
    at the cancellation event that found it not set: the accounts selected
    are the accounts reached followed by the accounts not reached, and
    there are as many different moments of the batch at which the event
    was looked at and found not set as accounts reached.  A batch that
    runs to its end has found the event not set once for each account
    selected. *)
Theorem every_turn_follows_a_look (R : runtime) (C : config) (x : executor)
    (ev : event) (count : Z) (link : str) (w : world) :
  let r := executor_batch R C x ev count link w in
  exists reached looks,
    slice_to count (user_clients w) = reached ++ unreached (snd (snd (fst r)))
    /\ length looks = length reached
    /\ NoDup looks
    /\ Forall (fun n => (tick w <= n < tick (snd r))%nat
                        /\ is_set (env w n) = false) looks
    /\ (snd (snd (fst r)) = ran_to_end ->
        length looks = length (slice_to count (user_clients w))).
Proof.
  intros r.
  assert (H : exists reached looks,
            slice_to count (user_clients w)
            = reached ++ unreached (snd (snd (fst r)))
            /\ looks_of w (snd r) reached looks).
  { subst r. destruct x; cbn [executor_batch];
      unfold join_batch, leave_batch, react_batch, view_batch.
    - apply (batch_looks ev join_canceled (ret tt) (join_body C ev count link)
               count w); [|auto with extends_db].
      intros acc t. apply join_body_onward.
    - apply (batch_looks ev leave_canceled (ret tt) (leave_body ev link)
               count w); [|auto with extends_db].
      intros acc t. apply leave_body_onward.
    - apply (batch_looks ev react_canceled (open_history link)
               (react_body R C ev link) count w); [|auto with extends_db].
      intros acc t. apply react_body_onward.
    - apply (batch_looks ev view_canceled (ret tt) (view_body R C ev link)
               count w); [|auto with extends_db].
      intros acc t. apply view_body_onward. }
  destruct H as (reached & looks & Hsel & Hlen & Hnd & Hall).
  exists reached, looks.
  split; [exact Hsel|]. split; [exact Hlen|]. split; [exact Hnd|].
  split; [exact Hall|].
  intros Hend. rewrite Hsel, Hend. cbn [unreached].
  rewrite app_nil_r. exact Hlen.
Qed.

Lemma every_turn_follows_a_look_witness :
  let w := world_of (fun _ => quiet) in
  let r := executor_batch Ascii_runtime.R sample_config View operator 3
             sample_link w in
  snd (snd (fst r)) = ran_to_end
  /\ exists looks,
       length looks = 3%nat
       /\ NoDup looks
       /\ Forall (fun n => (tick w <= n < tick (snd r))%nat
                           /\ is_set (env w n) = false) looks.
Proof.
  intros w r.
  assert (Hf : snd (snd (fst r)) = ran_to_end) by (vm_compute; reflexivity).
  split; [exact Hf|].
  destruct (every_turn_follows_a_look Ascii_runtime.R sample_config View
              operator 3 sample_link w)
    as (reached & looks & _ & _ & Hnd & Hall & Hend).
  exists looks. split; [exact (Hend Hf)|]. split; [exact Hnd|exact Hall].
Defined.

(** Three accounts under an environment where the event is set from
    the eighth answer on: the turn of the first account takes the answers
    before, the look before the second account finds the event set, and
    the batch of views is canceled there. *)
Example event_set_from_the_eighth_answer :
  let e := fun n : nat =>
    if Nat.leb 7 n then
      {| took := 0%N; raised := None; refused := None; payload := 0;
         name := []; flag := false; is_set := true; rand := O |}
    else quiet in
  let r := executor_batch Ascii_runtime.R sample_config View operator 3
             sample_link (world_of e) in
  snd (snd (fst r)) = canceled_before [second_account; third_account]
  /\ map call_phone (calls (snd r)) = [lit "+1000001"; lit "+1000001"].
Proof. vm_compute. repeat split. Qed.
